(** * MetalLB: legacy configuration conversion and the pool reconciler

    A shallow embedding of [internal/conversion/internal.go] and of
    [PoolReconciler.Reconcile] in [internal/k8s/controllers/pool_controller.go],
    followed by the properties established about them.

    Conventions of the embedding:
    - a Go slice is a [list] of its elements (contents only: capacity and the
      nil/empty distinction are not represented);
    - a Go [map[string]T] is a [gmap string T]; where the code depends on a map
      being nil the field is an [option], and where a map is shared through a
      reference it lives in an explicit store;
    - a Go [int] counter is a [Z];
    - [fmt.Sprintf] with a single [%d] verb is string concatenation with the
      decimal rendering of the integer. *)

From stdpp Require Import gmap strings list fin_maps pretty sorting.
From Stdlib Require Import ZArith Lia Ascii.
From Stdlib Require Floats Uint63.

Open Scope Z_scope.

(** ** The API objects built by the conversion (package [v1beta1]) *)

Module v1beta1.

(** The part of [metav1.ObjectMeta] that the conversion fills in. *)
Record ObjectMeta := {
  Name : string;
  Namespace : string;
}.

Record CommunityAlias := {
  alias_Name : string;
  alias_Value : string;
}.

Record CommunitySpec := {
  Communities : list CommunityAlias;
}.

Record Community := {
  community_ObjectMeta : ObjectMeta;
  community_Spec : CommunitySpec;
}.

(** Modelled from the spec: the declaration of [BGPAdvertisementSpec] lives
    in the [api] packages, outside the two files embedded here.  The spec
    lists an aggregation length (v4), an aggregation length (v6) and a local
    preference as the numeric fields of an advertisement; each is an integer
    here, and the Go zero value of the field is [0].  The fields that the
    conversion never sets are left out. *)
Record BGPAdvertisementSpec := {
  AggregationLength : Z;
  AggregationLengthV6 : Z;
  LocalPref : Z;
  adv_Communities : list string;
  IPAddressPools : list string;
}.

Record BGPAdvertisement := {
  bgpadv_ObjectMeta : ObjectMeta;
  bgpadv_Spec : BGPAdvertisementSpec;
}.

Record L2AdvertisementSpec := {
  l2_IPAddressPools : list string;
}.

Record L2Advertisement := {
  l2adv_ObjectMeta : ObjectMeta;
  l2adv_Spec : L2AdvertisementSpec;
}.

(** A [*bool] of the objects below is nil ([None]) or the address of a
    flag.  The only addresses that the conversion takes are those of the two
    flags of an element of the profile slice of the legacy document:
    [&c.BFDProfiles[i].EchoMode] is the pair of [i] and [EchoModeField]. *)
Inductive flagField := EchoModeField | PassiveModeField.

Record boolPtr := {
  ptr_elem : nat;
  ptr_field : flagField;
}.

(** Modelled from the spec: [BFDProfileSpec] is declared in the [api]
    packages.  The five numbers are optional, and copied as they are; the
    two modes are pointers to a flag. *)
Record BFDProfileSpec := {
  ReceiveInterval : option Z;
  TransmitInterval : option Z;
  DetectMultiplier : option Z;
  EchoInterval : option Z;
  EchoMode : option boolPtr;
  PassiveMode : option boolPtr;
  MinimumTTL : option Z;
}.

Record BFDProfile := {
  bfd_ObjectMeta : ObjectMeta;
  bfd_Spec : BFDProfileSpec;
}.

(** Modelled from the spec: [IPAddressPoolSpec] is declared in the [api]
    packages.  [AutoAssign] is optional as in the legacy schema, and
    [AvoidBuggyIPs] is a plain flag. *)
Record IPAddressPoolSpec := {
  ippool_Addresses : list string;
  ippool_AutoAssign : option bool;
  ippool_AvoidBuggyIPs : bool;
}.

Record IPAddressPool := {
  ippool_ObjectMeta : ObjectMeta;
  ippool_Spec : IPAddressPoolSpec;
}.

End v1beta1.

(** ** Label selectors (package [metav1]) *)

Module metav1.

(** [Operator] is of a string type, [LabelSelectorOperator]. *)
Record LabelSelectorRequirement := {
  Key : string;
  Operator : string;
  Values : list string;
}.

Record LabelSelector := {
  MatchLabels : gmap string string;
  MatchExpressions : list LabelSelectorRequirement;
}.

End metav1.

(** ** Go library functions used by the conversion *)

Module fmt.

(** [fmt.Sprintf(prefix + "%d", n)]. *)
Definition Sprintf_d (prefix : string) (n : Z) : string :=
  prefix +:+ pretty n.

End fmt.

Module sort.

(** Go compares strings byte-wise, a proper prefix being smaller. *)
Definition string_le (a b : string) : Prop := String.leb a b = true.

#[global] Instance string_le_dec : RelDecision string_le.
Proof. intros a b. unfold string_le. apply _. Defined.

(** [sort.Strings]: the argument in increasing order. *)
Definition Strings (l : list string) : list string :=
  merge_sort string_le l.

End sort.

(** ** IEEE 754 binary64 arithmetic on finite values

    A finite [float64] is kept as the pair of an integer significand and a
    binary exponent and denotes [mant * 2 ^ expo].  Every operation computes
    the exact rational result and rounds it to the nearest value with a 53-bit
    significand, ties to even.  Infinities and NaN are not represented: the
    operands met below are far from the overflow threshold, and no divisor is
    zero. *)

Module float64.

Record t := mk { mant : Z; expo : Z }.

(** The value of [x] as the fraction [num x / den x]. *)
Definition num (x : t) : Z := mant x * 2 ^ Z.max 0 (expo x).
Definition den (x : t) : Z := 2 ^ Z.max 0 (- expo x).

(** The integer [k] with [2 ^ k <= a / d < 2 ^ (k + 1)], for positive [a], [d]. *)
Definition ilog2 (a d : Z) : Z :=
  let k0 := Z.log2 a - Z.log2 d in
  if a * 2 ^ Z.max 0 (- k0) <? d * 2 ^ Z.max 0 k0 then k0 - 1 else k0.

(** The integer nearest to [N / D], ties to even. *)
Definition nearest_even (N D : Z) : Z :=
  let q := N / D in
  let r := N mod D in
  if 2 * r <? D then q
  else if D <? 2 * r then q + 1
  else if Z.even q then q else q + 1.

(** The binary64 value nearest to [n / d], for [d > 0]. *)
Definition round (n d : Z) : t :=
  if n =? 0 then mk 0 0 else
  let a := Z.abs n in
  let e := Z.max (ilog2 a d - 52) (-1074) in
  let m := nearest_even (a * 2 ^ Z.max 0 (- e)) (d * 2 ^ Z.max 0 e) in
  mk (Z.sgn n * m) e.

(** Conversion from an integer, [float64(n)]. *)
Definition of_int (n : Z) : t := round n 1.

Definition add (x y : t) : t :=
  round (num x * den y + num y * den x) (den x * den y).

Definition mul (x y : t) : t :=
  round (num x * num y) (den x * den y).

Definition div (x y : t) : t :=
  round (Z.sgn (num y) * num x * den y) (den x * Z.abs (num y)).

Definition neg (x : t) : t := mk (- mant x) (expo x).

(** Conversion to an integer type, [int(x)]: the fraction is discarded. *)
Definition to_int (x : t) : Z := Z.quot (num x) (den x).

(** [2 ^ K <= a / d], for positive [d]: used to state facts about [ilog2]. *)
Definition ge_pow2 (K a d : Z) : Prop :=
  d * 2 ^ Z.max 0 K <= a * 2 ^ Z.max 0 (- K).

End float64.

(** ** Go's package [time]: durations and [ParseDuration] *)

Module time.

(** A [Duration] is an [int64] count of nanoseconds. *)
Definition Duration := Z.

Definition Nanosecond : Duration := 1.
Definition Microsecond : Duration := 1000 * Nanosecond.
Definition Millisecond : Duration := 1000 * Microsecond.
Definition Second : Duration := 1000 * Millisecond.
Definition Minute : Duration := 60 * Second.
Definition Hour : Duration := 60 * Minute.

Definition wrap_int64 (z : Z) : Z := (z + 2 ^ 63) mod 2 ^ 64 - 2 ^ 63.
Definition wrap_uint64 (z : Z) : Z := z mod 2 ^ 64.

(** [Duration.Seconds]: [float64(sec) + float64(nsec)/1e9] where [sec] and
    [nsec] are the quotient and remainder of the duration by one second. *)
Definition Seconds (d : Duration) : float64.t :=
  let sec := Z.quot d Second in
  let nsec := Z.rem d Second in
  float64.add (float64.of_int sec)
    (float64.div (float64.of_int nsec) (float64.of_int 1000000000)).

(** The three error messages of [ParseDuration]. *)
Inductive ParseError :=
| InvalidDuration (orig : string)
| MissingUnit (orig : string)
| UnknownUnit (u orig : string).

Definition byte (c : ascii) : Z := Z.of_N (N_of_ascii c).
Definition isDigit (c : ascii) : bool := (48 <=? byte c) && (byte c <=? 57).
Definition isDot (c : ascii) : bool := byte c =? 46.

(** [leadingInt]: the leading digits of [s] as a [uint64] and the rest of
    [s]; [None] when the number overflows. *)
Fixpoint leadingInt (s : string) (x : Z) : option (Z * string) :=
  match s with
  | String c s' =>
      if isDigit c then
        if 2 ^ 63 / 10 <? x then None
        else
          let x := wrap_uint64 (wrap_uint64 (wrap_uint64 (x * 10) + byte c) - 48) in
          if 2 ^ 63 <? x then None else leadingInt s' x
      else Some (x, s)
  | EmptyString => Some (x, s)
  end.

(** [leadingFraction]: the leading digits of [s], the power of ten that
    scales them, and the rest of [s]; digits past the capacity of a
    [uint64] are skipped. *)
Fixpoint leadingFraction (s : string) (x : Z) (scale : float64.t) (overflow : bool)
  : Z * float64.t * string :=
  match s with
  | String c s' =>
      if isDigit c then
        if overflow then leadingFraction s' x scale overflow
        else if (2 ^ 63 - 1) / 10 <? x then leadingFraction s' x scale true
        else
          let y := wrap_uint64 (wrap_uint64 (wrap_uint64 (x * 10) + byte c) - 48) in
          if 2 ^ 63 <? y then leadingFraction s' x scale true
          else leadingFraction s' y (float64.mul scale (float64.of_int 10)) overflow
      else (x, scale, s)
  | EmptyString => (x, scale, s)
  end.

(** The unit: everything up to the next digit or dot. *)
Fixpoint unitSplit (s : string) : string * string :=
  match s with
  | String c s' =>
      if isDot c || isDigit c then (EmptyString, s)
      else let '(u, r) := unitSplit s' in (String c u, r)
  | EmptyString => (EmptyString, s)
  end.

(** The two spellings of the microsecond unit that start with a non-ASCII
    letter (U+00B5 and U+03BC), as UTF-8 bytes. *)
Definition micro_sign_s : string :=
  String (ascii_of_N 194) (String (ascii_of_N 181) "s").
Definition greek_mu_s : string :=
  String (ascii_of_N 206) (String (ascii_of_N 188) "s").

Definition unitMap (u : string) : option Z :=
  if decide (u = "ns") then Some Nanosecond
  else if decide (u = "us") then Some Microsecond
  else if decide (u = micro_sign_s) then Some Microsecond
  else if decide (u = greek_mu_s) then Some Microsecond
  else if decide (u = "ms") then Some Millisecond
  else if decide (u = "s") then Some Second
  else if decide (u = "m") then Some Minute
  else if decide (u = "h") then Some Hour
  else None.

Definition headIs (p : ascii -> bool) (s : string) : bool :=
  match s with String c _ => p c | EmptyString => false end.

(** One turn of the loop of [ParseDuration]: the new total and the rest of
    the input, or the error returned. *)
Definition parseChunk (orig s : string) (d : Z) : (Z * string) + ParseError :=
  if negb (headIs (fun c => isDot c || isDigit c) s) then inr (InvalidDuration orig)
  else
    match leadingInt s 0 with
    | None => inr (InvalidDuration orig)
    | Some (v, s1) =>
        let pre := negb (String.length s =? String.length s1)%nat in
        let '(f, scale, s2, post) :=
          match s1 with
          | String c rest =>
              if isDot c then
                let '(f, scale, s2) :=
                  leadingFraction rest 0 (float64.of_int 1) false in
                (f, scale, s2, negb (String.length rest =? String.length s2)%nat)
              else (0, float64.of_int 1, s1, false)
          | EmptyString => (0, float64.of_int 1, s1, false)
          end in
        if negb pre && negb post then inr (InvalidDuration orig)
        else
          let '(u, s3) := unitSplit s2 in
          if decide (u = EmptyString) then inr (MissingUnit orig)
          else
            match unitMap u with
            | None => inr (UnknownUnit u orig)
            | Some unit =>
                if 2 ^ 63 / unit <? v then inr (InvalidDuration orig)
                else
                  let v := wrap_uint64 (v * unit) in
                  let ov :=
                    if 0 <? f then
                      let v' :=
                        wrap_uint64
                          (v + float64.to_int
                                 (float64.mul (float64.of_int f)
                                    (float64.div (float64.of_int unit) scale))) in
                      if 2 ^ 63 <? v' then None else Some v'
                    else Some v in
                  match ov with
                  | None => inr (InvalidDuration orig)
                  | Some v =>
                      let d := wrap_uint64 (d + v) in
                      if 2 ^ 63 <? d then inr (InvalidDuration orig)
                      else inl (d, s3)
                  end
            end
    end.

(** The loop [for s != ""]; every turn shortens [s], so [fuel] at least the
    length of [s] is never used up ([parseLoop_fuel] below). *)
Fixpoint parseLoop (fuel : nat) (orig s : string) (d : Z)
  : option (Z + ParseError) :=
  if decide (s = EmptyString) then Some (inl d)
  else
    match fuel with
    | O => None
    | S fuel =>
        match parseChunk orig s d with
        | inr e => Some (inr e)
        | inl (d, s) => parseLoop fuel orig s d
        end
    end.

(** [ParseDuration], after the function of Go's standard library.  The
    first branch of the last [match] is never taken. *)
Definition ParseDuration (s : string) : Duration + ParseError :=
  let orig := s in
  let '(neg, s) :=
    match s with
    | String c rest =>
        if (byte c =? 45) || (byte c =? 43) then (byte c =? 45, rest)
        else (false, s)
    | EmptyString => (false, s)
    end in
  if decide (s = "0") then inl 0
  else if decide (s = EmptyString) then inr (InvalidDuration orig)
  else
    match parseLoop (String.length s) orig s 0 with
    | None => inr (InvalidDuration orig)
    | Some (inr e) => inr e
    | Some (inl d) =>
        if neg then inl (wrap_int64 (- wrap_int64 d))
        else if 2 ^ 63 - 1 <? d then inr (InvalidDuration orig)
        else inl (wrap_int64 d)
    end.

End time.

(** ** The peers built by the conversion (package [v1beta2]) *)

Module v1beta2.

(** Modelled from the spec: [BGPPeerSpec] is declared in the [api] packages.
    The fields are those that [parsePeer] fills in; the numbers are
    integers, and the two [metav1.Duration] fields are the durations they
    wrap. *)
Record BGPPeerSpec := {
  MyASN : Z;
  ASN : Z;
  Address : string;
  SrcAddress : string;
  Port : Z;
  HoldTime : time.Duration;
  KeepaliveTime : time.Duration;
  RouterID : string;
  NodeSelectors : list metav1.LabelSelector;
  Password : string;
  BFDProfile : string;
  EBGPMultiHop : bool;
}.

Record BGPPeer := {
  peer_ObjectMeta : v1beta1.ObjectMeta;
  peer_Spec : BGPPeerSpec;
}.

End v1beta2.

(** ** The same computation on the kernel's binary64 numbers

    [float64] above is checked against the primitive floating-point numbers
    of the proof assistant, which are the binary64 numbers of the machine:
    [hardware.Seconds] is [time.Seconds] computed with them. *)

Module hardware.

Definition of_int (z : Z) : PrimFloat.float :=
  if z <? 0
  then PrimFloat.opp (PrimFloat.of_uint63 (Uint63.of_Z (- z)))
  else PrimFloat.of_uint63 (Uint63.of_Z z).

Definition Seconds (d : Z) : PrimFloat.float :=
  let sec := Z.quot d time.Second in
  let nsec := Z.rem d time.Second in
  PrimFloat.add (of_int sec) (PrimFloat.div (of_int nsec) (of_int 1000000000)).

(** A significand and an exponent without common factor two. *)
Definition reduce (m e : Z) : Z * Z :=
  if m =? 0 then (0, 0)
  else let tz := Z.log2 (Z.land m (- m)) in (m / 2 ^ tz, e + tz).

Definition decode (x : PrimFloat.float) : option (Z * Z) :=
  match FloatOps.Prim2SF x with
  | SpecFloat.S754_zero _ => Some (0, 0)
  | SpecFloat.S754_finite s m e => Some (reduce ((if s then -1 else 1) * Z.pos m) e)
  | _ => None
  end.

(** [x] and [y] are the same number. *)
Definition agree (x : float64.t) (y : PrimFloat.float) : bool :=
  match decode y with
  | Some (m, e) =>
      let '(m', e') := reduce (float64.mant x) (float64.expo x) in
      (m =? m') && (e =? e')
  | None => false
  end.

End hardware.

(** ** The resource types handled by reference only *)

Module api.

(** The Kubernetes and MetalLB objects that the code below moves around
    without looking inside them. *)
Class Types := {
  IPAddressPool : Type;
  BGPPeer : Type;
  BFDProfile : Type;
  BGPAdvertisement : Type;
  L2Advertisement : Type;
  AddressPool : Type;
  Community : Type;
  Secret : Type;
  Node : Type;
  Namespace : Type;
}.

End api.

(** ** Package [config]: the aggregation unit *)

Module config.

(** A reference to a Go map held in the store. *)
Definition mapref := positive.

Section ClusterResources.

Context `{api.Types}.

(** [PasswordSecrets] is a Go map: [None] is the nil map, [Some r] a
    reference to an allocated one. *)
Record ClusterResources := {
  Pools : list api.IPAddressPool;
  Peers : list api.BGPPeer;
  BFDProfiles : list api.BFDProfile;
  BGPAdvs : list api.BGPAdvertisement;
  L2Advs : list api.L2Advertisement;
  LegacyAddressPools : list api.AddressPool;
  Communities : list api.Community;
  PasswordSecrets : option mapref;
  Nodes : list api.Node;
  Namespaces : list api.Namespace;
}.

(** The zero value [config.ClusterResources{}]. *)
Definition zeroClusterResources : ClusterResources :=
  {| Pools := []; Peers := []; BFDProfiles := []; BGPAdvs := []; L2Advs := [];
     LegacyAddressPools := []; Communities := []; PasswordSecrets := None;
     Nodes := []; Namespaces := [] |}.

End ClusterResources.

End config.

(** ** Package [conversion]: the legacy schema and its translation *)

Module conversion.

Import v1beta1.

(** Modelled from the spec: the legacy schema is declared in another file of
    the package.  The protocol tag of a pool is a string, and the two tags
    the translation tests for are [bgp] and [layer2]. *)
Definition Proto := string.
Definition BGP : Proto := "bgp".
Definition Layer2 : Proto := "layer2".

(** Modelled from the spec: an advertisement spec of the legacy schema, with
    the four fields that [bgpAdvertisementsFor] reads; the three numbers are
    integers as in [BGPAdvertisementSpec]. *)
Record bgpAdvertisement := {
  legacy_AggregationLength : Z;
  legacy_AggregationLengthV6 : Z;
  legacy_LocalPref : Z;
  legacy_Communities : list string;
}.

(** Modelled from the spec: a pool of the legacy schema.  [Name] is
    [pool_Name] here; the two optional flags are [None] when unset. *)
Record addressPool := {
  Protocol : Proto;
  pool_Name : string;
  Addresses : list string;
  AvoidBuggyIPs : option bool;
  AutoAssign : option bool;
  BGPAdvertisements : list bgpAdvertisement;
}.

(** The fields of the legacy document read by the functions below. *)
Record configFile := {
  BGPCommunities : gmap string string;
  Pools : list addressPool;
}.

(** [make] followed by [copy]: a fresh slice with the same elements. *)
Definition copy_strings (src : list string) : list string :=
  (fun s : string => s) <$> src.

Section Translation.

(** The namespace given to every translated object: a package-level value
    declared in another file, taken as a parameter. *)
Variable resourcesNameSpace : string.

(** *** [communitiesFor] *)

(** [rangeOrder] is the order in which this run of [range] visits the
    keys of [cf.BGPCommunities]; Go leaves it unspecified. *)
Definition communitiesFor (rangeOrder : list string) (cf : configFile)
  : list Community :=
  if bool_decide (size (BGPCommunities cf) = 0%nat) then []
  else
    let sortedCommunities :=
      sort.Strings (fold_left (fun acc n => acc ++ [n]) rangeOrder []) in
    let communitiesAliases :=
      fold_left
        (fun acc v =>
           acc ++ [ {| alias_Name := v;
                       alias_Value := default "" (BGPCommunities cf !! v) |} ])
        sortedCommunities [] in
    [ {| community_ObjectMeta :=
           {| Name := "communities"; Namespace := resourcesNameSpace |};
         community_Spec := {| Communities := communitiesAliases |} |} ].

(** *** [bgpAdvertisementsFor] *)

Definition emptyBGPAdv (addressPoolName : string) (index : Z)
  : BGPAdvertisement :=
  {| bgpadv_ObjectMeta :=
       {| Name := fmt.Sprintf_d "bgpadvertisement" index;
          Namespace := resourcesNameSpace |};
     bgpadv_Spec :=
       {| AggregationLength := 0;
          AggregationLengthV6 := 0;
          LocalPref := 0;
          adv_Communities := [];
          IPAddressPools := [addressPoolName] |} |}.

(** The advertisement built by one turn of the inner loop. *)
Definition explicitBGPAdv (ap : addressPool) (bgpAdv : bgpAdvertisement)
    (index : Z) : BGPAdvertisement :=
  {| bgpadv_ObjectMeta :=
       {| Name := fmt.Sprintf_d "bgpadvertisement" index;
          Namespace := resourcesNameSpace |};
     bgpadv_Spec :=
       {| AggregationLength := legacy_AggregationLength bgpAdv;
          AggregationLengthV6 := legacy_AggregationLengthV6 bgpAdv;
          LocalPref := legacy_LocalPref bgpAdv;
          adv_Communities := copy_strings (legacy_Communities bgpAdv);
          IPAddressPools := [pool_Name ap] |} |}.

(** The loop state is the pair of [res] and [index]. *)
Definition bgpAdvInner (ap : addressPool)
    (st : list BGPAdvertisement * Z) (bgpAdv : bgpAdvertisement)
  : list BGPAdvertisement * Z :=
  let b := explicitBGPAdv ap bgpAdv st.2 in
  (st.1 ++ [b], st.2 + 1).

Definition bgpAdvOuter (st : list BGPAdvertisement * Z) (ap : addressPool)
  : list BGPAdvertisement * Z :=
  let st1 := fold_left (bgpAdvInner ap) (BGPAdvertisements ap) st in
  if bool_decide (length (BGPAdvertisements ap) = 0%nat)
     && bool_decide (Protocol ap = BGP)
  then (st1.1 ++ [emptyBGPAdv (pool_Name ap) st1.2], st1.2 + 1)
  else st1.

Definition bgpAdvertisementsFor (c : configFile) : list BGPAdvertisement :=
  (fold_left bgpAdvOuter (Pools c) ([], 1)).1.

(** *** [l2AdvertisementsFor] *)

(** The advertisement built for a pool of protocol [layer2]. *)
Definition layer2Adv (addresspool : addressPool) (index : Z) : L2Advertisement :=
  {| l2adv_ObjectMeta :=
       {| Name := fmt.Sprintf_d "l2advertisement" index;
          Namespace := resourcesNameSpace |};
     l2adv_Spec := {| l2_IPAddressPools := [pool_Name addresspool] |} |}.

Definition l2AdvStep (st : list L2Advertisement * Z) (addresspool : addressPool)
  : list L2Advertisement * Z :=
  if bool_decide (Protocol addresspool = Layer2) then
    let l2Adv := layer2Adv addresspool st.2 in
    (st.1 ++ [l2Adv], st.2 + 1)
  else st.

Definition l2AdvertisementsFor (c : configFile) : list L2Advertisement :=
  (fold_left l2AdvStep (Pools c) ([], 1)).1.

(** *** Vocabulary of the statements about the translation *)

(** What one pool contributes to the BGP advertisements, each entry still
    waiting for its number: its explicit specs in order, or the single
    synthesized advertisement of a [bgp] pool without specs. *)
Definition poolAdvs (ap : addressPool) : list (Z -> BGPAdvertisement) :=
  match BGPAdvertisements ap with
  | [] => if bool_decide (Protocol ap = BGP) then [emptyBGPAdv (pool_Name ap)] else []
  | advs => explicitBGPAdv ap <$> advs
  end.

End Translation.

(** The entries of [l] numbered [first], [first + 1], ... in order. *)
Definition numberFrom {A} (first : Z) (l : list (Z -> A)) : list A :=
  imap (fun k mk => mk (first + Z.of_nat k)) l.

Definition bgpAdvName (b : BGPAdvertisement) : string := Name (bgpadv_ObjectMeta b).

Definition l2AdvName (b : L2Advertisement) : string := Name (l2adv_ObjectMeta b).

(** The keys of the alias mapping, in the order of [map_to_list]. *)
Definition keysOf (cf : configFile) : list string :=
  (map_to_list (BGPCommunities cf)).*1.

Definition aliasOf (kv : string * string) : CommunityAlias :=
  {| alias_Name := kv.1; alias_Value := kv.2 |}.

(** *** [parseHoldTime] *)

Inductive error :=
| ErrHoldTimeSyntax (ht : string) (err : time.ParseError)
    (* "invalid hold time %q: %s" *)
| ErrHoldTimeRange (ht : string).
    (* "invalid hold time %q: must be 0 or >=3s" *)

(** The two results [(d, nil)] and [(0, err)] are the two sides of a sum. *)
Definition parseHoldTime (ht : string) : time.Duration + error :=
  if decide (ht = "") then inl (time.wrap_int64 (90 * time.Second))
  else
    match time.ParseDuration ht with
    | inr err => inr (ErrHoldTimeSyntax ht err)
    | inl d =>
        let rounded :=
          time.wrap_int64
            (time.wrap_int64 (float64.to_int (time.Seconds d)) * time.Second) in
        if negb (rounded =? 0) && (rounded <? time.wrap_int64 (3 * time.Second))
        then inr (ErrHoldTimeRange ht)
        else inl rounded
    end.

(** The whole seconds kept in [rounded]: [int(d.Seconds())]. *)
Definition roundedSeconds (d : time.Duration) : Z :=
  float64.to_int (time.Seconds d).

(** *** [addResources]

    The two arguments are pointers, and the secret mapping is a Go map: the
    function is run against a store of [ClusterResources] objects and of
    maps.  A pointer is [None] (nil) or the address of an object; a run
    that dereferences nil panics, which is the result [None]. *)

Section Aggregation.

Context `{api.Types}.

Definition ptr := option positive.

Record store := {
  objects : gmap positive config.ClusterResources;
  maps : gmap config.mapref (gmap string api.Secret);
}.

Definition M (A : Type) : Type := store -> option (A * store).

Definition ret {A} (a : A) : M A := fun st => Some (a, st).

Definition bind {A B} (m : M A) (k : A -> M B) : M B :=
  fun st => match m st with
            | Some (a, st') => k a st'
            | None => None
            end.

Notation "'do' x <- m ; k" := (bind m (fun x => k))
  (at level 10, x name, m at level 100, k at level 200).
Notation "'run' m ; k" := (bind m (fun _ => k))
  (at level 10, m at level 100, k at level 200).

(** [*p] *)
Definition load (p : ptr) : M config.ClusterResources :=
  fun st => match p with
            | Some l => match objects st !! l with
                        | Some v => Some (v, st)
                        | None => None
                        end
            | None => None
            end.

(** [*p = v], for [p] a valid pointer *)
Definition assign (p : ptr) (v : config.ClusterResources) : M unit :=
  fun st => match p with
            | Some l =>
                Some (tt, {| objects := <[l := v]> (objects st); maps := maps st |})
            | None => None
            end.

(** [&config.ClusterResources{}] *)
Definition new : M ptr :=
  fun st =>
    let l := fresh (dom (objects st)) in
    Some (Some l, {| objects := <[l := config.zeroClusterResources]> (objects st);
                     maps := maps st |}).

Definition loadMap (r : config.mapref) : M (gmap string api.Secret) :=
  fun st => match maps st !! r with
            | Some m => Some (m, st)
            | None => None
            end.

(** [m[key] = value] on the map behind [r] *)
Definition mapAssign (r : config.mapref) (key : string) (value : api.Secret)
  : M unit :=
  fun st => match maps st !! r with
            | Some m =>
                Some (tt, {| objects := objects st;
                             maps := <[r := <[key := value]> m]> (maps st) |})
            | None => None
            end.

Fixpoint forEach {A} (l : list A) (body : A -> M unit) : M unit :=
  match l with
  | [] => ret tt
  | x :: l => run body x ; forEach l body
  end.

Definition set_Pools v (r : config.ClusterResources) : config.ClusterResources :=
  {| config.Pools := v; config.Peers := config.Peers r;
     config.BFDProfiles := config.BFDProfiles r; config.BGPAdvs := config.BGPAdvs r;
     config.L2Advs := config.L2Advs r;
     config.LegacyAddressPools := config.LegacyAddressPools r;
     config.Communities := config.Communities r;
     config.PasswordSecrets := config.PasswordSecrets r;
     config.Nodes := config.Nodes r; config.Namespaces := config.Namespaces r |}.

Definition set_Peers v (r : config.ClusterResources) : config.ClusterResources :=
  {| config.Pools := config.Pools r; config.Peers := v;
     config.BFDProfiles := config.BFDProfiles r; config.BGPAdvs := config.BGPAdvs r;
     config.L2Advs := config.L2Advs r;
     config.LegacyAddressPools := config.LegacyAddressPools r;
     config.Communities := config.Communities r;
     config.PasswordSecrets := config.PasswordSecrets r;
     config.Nodes := config.Nodes r; config.Namespaces := config.Namespaces r |}.

Definition set_BFDProfiles v (r : config.ClusterResources) : config.ClusterResources :=
  {| config.Pools := config.Pools r; config.Peers := config.Peers r;
     config.BFDProfiles := v; config.BGPAdvs := config.BGPAdvs r;
     config.L2Advs := config.L2Advs r;
     config.LegacyAddressPools := config.LegacyAddressPools r;
     config.Communities := config.Communities r;
     config.PasswordSecrets := config.PasswordSecrets r;
     config.Nodes := config.Nodes r; config.Namespaces := config.Namespaces r |}.

Definition set_BGPAdvs v (r : config.ClusterResources) : config.ClusterResources :=
  {| config.Pools := config.Pools r; config.Peers := config.Peers r;
     config.BFDProfiles := config.BFDProfiles r; config.BGPAdvs := v;
     config.L2Advs := config.L2Advs r;
     config.LegacyAddressPools := config.LegacyAddressPools r;
     config.Communities := config.Communities r;
     config.PasswordSecrets := config.PasswordSecrets r;
     config.Nodes := config.Nodes r; config.Namespaces := config.Namespaces r |}.

Definition set_L2Advs v (r : config.ClusterResources) : config.ClusterResources :=
  {| config.Pools := config.Pools r; config.Peers := config.Peers r;
     config.BFDProfiles := config.BFDProfiles r; config.BGPAdvs := config.BGPAdvs r;
     config.L2Advs := v;
     config.LegacyAddressPools := config.LegacyAddressPools r;
     config.Communities := config.Communities r;
     config.PasswordSecrets := config.PasswordSecrets r;
     config.Nodes := config.Nodes r; config.Namespaces := config.Namespaces r |}.

Definition set_LegacyAddressPools v (r : config.ClusterResources)
  : config.ClusterResources :=
  {| config.Pools := config.Pools r; config.Peers := config.Peers r;
     config.BFDProfiles := config.BFDProfiles r; config.BGPAdvs := config.BGPAdvs r;
     config.L2Advs := config.L2Advs r;
     config.LegacyAddressPools := v;
     config.Communities := config.Communities r;
     config.PasswordSecrets := config.PasswordSecrets r;
     config.Nodes := config.Nodes r; config.Namespaces := config.Namespaces r |}.

Definition set_Communities v (r : config.ClusterResources) : config.ClusterResources :=
  {| config.Pools := config.Pools r; config.Peers := config.Peers r;
     config.BFDProfiles := config.BFDProfiles r; config.BGPAdvs := config.BGPAdvs r;
     config.L2Advs := config.L2Advs r;
     config.LegacyAddressPools := config.LegacyAddressPools r;
     config.Communities := v;
     config.PasswordSecrets := config.PasswordSecrets r;
     config.Nodes := config.Nodes r; config.Namespaces := config.Namespaces r |}.

Definition set_Nodes v (r : config.ClusterResources) : config.ClusterResources :=
  {| config.Pools := config.Pools r; config.Peers := config.Peers r;
     config.BFDProfiles := config.BFDProfiles r; config.BGPAdvs := config.BGPAdvs r;
     config.L2Advs := config.L2Advs r;
     config.LegacyAddressPools := config.LegacyAddressPools r;
     config.Communities := config.Communities r;
     config.PasswordSecrets := config.PasswordSecrets r;
     config.Nodes := v; config.Namespaces := config.Namespaces r |}.

Definition set_Namespaces v (r : config.ClusterResources) : config.ClusterResources :=
  {| config.Pools := config.Pools r; config.Peers := config.Peers r;
     config.BFDProfiles := config.BFDProfiles r; config.BGPAdvs := config.BGPAdvs r;
     config.L2Advs := config.L2Advs r;
     config.LegacyAddressPools := config.LegacyAddressPools r;
     config.Communities := config.Communities r;
     config.PasswordSecrets := config.PasswordSecrets r;
     config.Nodes := config.Nodes r; config.Namespaces := v |}.

(** [first.F = append(first.F, second.F...)] *)
Definition appendField {A} (get : config.ClusterResources -> list A)
    (set : list A -> config.ClusterResources -> config.ClusterResources)
    (first second : ptr) : M unit :=
  do f <- load first ;
  do s <- load second ;
  assign first (set (get f ++ get s) f).

(** The guarded loop over [second.PasswordSecrets].  The entries are
    visited in the order of [map_to_list]; they have distinct keys, so the
    outcome is the same in every order ([mergeEntries_order] below). *)
Definition mergeSecrets (first second : ptr) : M unit :=
  do f <- load first ;
  do s <- load second ;
  match config.PasswordSecrets f, config.PasswordSecrets s with
  | Some fm, Some sm =>
      do entries <- loadMap sm ;
      forEach (map_to_list entries) (fun kv => mapAssign fm kv.1 kv.2)
  | _, _ => ret tt
  end.

Definition addResources (first second : ptr) : M config.ClusterResources :=
  do first <- (match first with None => new | Some _ => ret first end) ;
  run appendField config.Pools set_Pools first second ;
  run appendField config.Peers set_Peers first second ;
  run appendField config.BFDProfiles set_BFDProfiles first second ;
  run appendField config.BGPAdvs set_BGPAdvs first second ;
  run appendField config.L2Advs set_L2Advs first second ;
  run appendField config.LegacyAddressPools set_LegacyAddressPools first second ;
  run appendField config.Communities set_Communities first second ;
  run mergeSecrets first second ;
  run appendField config.Nodes set_Nodes first second ;
  run appendField config.Namespaces set_Namespaces first second ;
  load first.

(** *** Vocabulary of the statements about [addResources] *)

(** Every map that the object refers to is allocated. *)
Definition secretsAllocated (st : store) (r : config.ClusterResources) : Prop :=
  forall m, config.PasswordSecrets r = Some m -> is_Some (maps st !! m).

(** The address that [first] stands for once the nil check is passed: its
    own, or that of the object allocated in its place. *)
Definition target (st : store) (first : ptr) : positive :=
  match first with
  | Some l => l
  | None => fresh (dom (objects st))
  end.

(** The object found there before the first append. *)
Definition valueAt (st : store) (first : ptr) : option config.ClusterResources :=
  match first with
  | Some l => objects st !! l
  | None => Some config.zeroClusterResources
  end.

(** The object left at [first], which is also the value returned. *)
Definition merged (f s : config.ClusterResources) : config.ClusterResources :=
  {| config.Pools := config.Pools f ++ config.Pools s;
     config.Peers := config.Peers f ++ config.Peers s;
     config.BFDProfiles := config.BFDProfiles f ++ config.BFDProfiles s;
     config.BGPAdvs := config.BGPAdvs f ++ config.BGPAdvs s;
     config.L2Advs := config.L2Advs f ++ config.L2Advs s;
     config.LegacyAddressPools :=
       config.LegacyAddressPools f ++ config.LegacyAddressPools s;
     config.Communities := config.Communities f ++ config.Communities s;
     config.PasswordSecrets := config.PasswordSecrets f;
     config.Nodes := config.Nodes f ++ config.Nodes s;
     config.Namespaces := config.Namespaces f ++ config.Namespaces s |}.

(** The maps of the store after the guarded loop. *)
Definition mergedMaps (f s : config.ClusterResources)
    (ms : gmap config.mapref (gmap string api.Secret)) :=
  match config.PasswordSecrets f, config.PasswordSecrets s with
  | Some fm, Some sm =>
      match ms !! fm, ms !! sm with
      | Some a, Some b => <[fm := b ∪ a]> ms
      | _, _ => ms
      end
  | _, _ => ms
  end.

Definition insertEntry (m : gmap string api.Secret) (kv : string * api.Secret) :=
  <[kv.1 := kv.2]> m.

End Aggregation.

(** *** The rest of the legacy schema *)

(** Modelled from the spec: a match-expression clause and a node selector
    of the legacy schema, declared in another file of the package. *)
Record selectorRequirements := {
  req_Key : string;
  req_Operator : string;
  req_Values : list string;
}.

Record nodeSelector := {
  sel_MatchLabels : gmap string string;
  sel_MatchExpressions : list selectorRequirements;
}.

(** Modelled from the spec: a peer of the legacy schema.  The two times are
    strings, empty when unset; the numbers are integers. *)
Record peer := {
  peer_MyASN : Z;
  peer_ASN : Z;
  peer_Addr : string;
  peer_SrcAddr : string;
  peer_Port : Z;
  peer_HoldTime : string;
  peer_KeepaliveTime : string;
  peer_RouterID : string;
  peer_NodeSelectors : list nodeSelector;
  peer_Password : string;
  peer_BFDProfile : string;
  peer_EBGPMultiHop : bool;
}.

(** Modelled from the spec: a BFD profile of the legacy schema.  The two
    modes are flags held in the element itself; the five numbers are as in
    [BFDProfileSpec]. *)
Record bfdProfile := {
  bfd_Name : string;
  bfd_ReceiveInterval : option Z;
  bfd_TransmitInterval : option Z;
  bfd_DetectMultiplier : option Z;
  bfd_EchoInterval : option Z;
  bfd_EchoMode : bool;
  bfd_PassiveMode : bool;
  bfd_MinimumTTL : option Z;
}.

(** *** [parseKeepaliveTime] *)

Inductive keepaliveError :=
| ErrKeepaliveTimeSyntax (ka : string) (err : time.ParseError).
    (* "invalid keepalive time %q: %s" *)

Definition parseKeepaliveTime (ka : string) : time.Duration + keepaliveError :=
  match time.ParseDuration ka with
  | inr err => inr (ErrKeepaliveTimeSyntax ka err)
  | inl d =>
      let rounded :=
        time.wrap_int64
          (time.wrap_int64 (float64.to_int (time.Seconds d)) * time.Second) in
      inl rounded
  end.

(** *** [parseNodeSelector] *)

Definition parseNodeSelector (sel : nodeSelector) : metav1.LabelSelector :=
  let res :=
    {| metav1.MatchLabels := sel_MatchLabels sel;
       metav1.MatchExpressions := [] |} in
  fold_left
    (fun res m =>
       let matchExp :=
         {| metav1.Key := req_Key m;
            metav1.Operator := req_Operator m;
            metav1.Values := copy_strings (req_Values m) |} in
       {| metav1.MatchLabels := metav1.MatchLabels res;
          metav1.MatchExpressions := metav1.MatchExpressions res ++ [matchExp] |})
    (sel_MatchExpressions sel) res.

(** *** [parsePeer] and [peersFor] *)

(** The error that [parsePeer] and [peersFor] hand on: the one of
    [parseHoldTime] or the one of [parseKeepaliveTime]. *)
Inductive peerError :=
| HoldTimeError (err : error)
| KeepaliveTimeError (err : keepaliveError).

(** [res.Spec.KeepaliveTime = metav1.Duration{Duration: keepaliveTime}] *)
Definition set_KeepaliveTime (keepaliveTime : time.Duration) (res : v1beta2.BGPPeer)
  : v1beta2.BGPPeer :=
  let spec := v1beta2.peer_Spec res in
  {| v1beta2.peer_ObjectMeta := v1beta2.peer_ObjectMeta res;
     v1beta2.peer_Spec :=
       {| v1beta2.MyASN := v1beta2.MyASN spec;
          v1beta2.ASN := v1beta2.ASN spec;
          v1beta2.Address := v1beta2.Address spec;
          v1beta2.SrcAddress := v1beta2.SrcAddress spec;
          v1beta2.Port := v1beta2.Port spec;
          v1beta2.HoldTime := v1beta2.HoldTime spec;
          v1beta2.KeepaliveTime := keepaliveTime;
          v1beta2.RouterID := v1beta2.RouterID spec;
          v1beta2.NodeSelectors := v1beta2.NodeSelectors spec;
          v1beta2.Password := v1beta2.Password spec;
          v1beta2.BFDProfile := v1beta2.BFDProfile spec;
          v1beta2.EBGPMultiHop := v1beta2.EBGPMultiHop spec |} |}.

(** [p.Name = name] *)
Definition set_Name (name : string) (p : v1beta2.BGPPeer) : v1beta2.BGPPeer :=
  {| v1beta2.peer_ObjectMeta :=
       {| Name := name; Namespace := Namespace (v1beta2.peer_ObjectMeta p) |};
     v1beta2.peer_Spec := v1beta2.peer_Spec p |}.

(** [p.Namespace = namespace] *)
Definition set_Namespace (namespace : string) (p : v1beta2.BGPPeer)
  : v1beta2.BGPPeer :=
  {| v1beta2.peer_ObjectMeta :=
       {| Name := Name (v1beta2.peer_ObjectMeta p); Namespace := namespace |};
     v1beta2.peer_Spec := v1beta2.peer_Spec p |}.

Section Resources.

Variable resourcesNameSpace : string.

Definition parsePeer (p : peer) : v1beta2.BGPPeer + peerError :=
  match parseHoldTime (peer_HoldTime p) with
  | inr err => inr (HoldTimeError err)
  | inl holdTime =>
      let nodeSels :=
        fold_left (fun nodeSels sel => nodeSels ++ [parseNodeSelector sel])
          (peer_NodeSelectors p) [] in
      let res :=
        {| v1beta2.peer_ObjectMeta :=
             {| Name := ""; Namespace := resourcesNameSpace |};
           v1beta2.peer_Spec :=
             {| v1beta2.MyASN := peer_MyASN p;
                v1beta2.ASN := peer_ASN p;
                v1beta2.Address := peer_Addr p;
                v1beta2.SrcAddress := peer_SrcAddr p;
                v1beta2.Port := peer_Port p;
                v1beta2.HoldTime := holdTime;
                v1beta2.KeepaliveTime := 0;
                v1beta2.RouterID := peer_RouterID p;
                v1beta2.NodeSelectors := nodeSels;
                v1beta2.Password := peer_Password p;
                v1beta2.BFDProfile := peer_BFDProfile p;
                v1beta2.EBGPMultiHop := peer_EBGPMultiHop p |} |} in
      if decide (peer_KeepaliveTime p ≠ "") then
        match parseKeepaliveTime (peer_KeepaliveTime p) with
        | inr err => inr (KeepaliveTimeError err)
        | inl keepaliveTime => inl (set_KeepaliveTime keepaliveTime res)
        end
      else inl res
  end.

(** The loop of [peersFor] from index [i] on, with [res] built so far. *)
Fixpoint peersLoop (i : Z) (peers : list peer) (res : list v1beta2.BGPPeer)
  : list v1beta2.BGPPeer + peerError :=
  match peers with
  | [] => inl res
  | peer :: peers =>
      match parsePeer peer with
      | inr err => inr err
      | inl p =>
          let p := set_Name (fmt.Sprintf_d "peer" (i + 1)) p in
          let p := set_Namespace resourcesNameSpace p in
          peersLoop (i + 1) peers (res ++ [p])
      end
  end.

(** [peersFor]; the argument is [c.Peers], the one field of the legacy
    document that the function reads. *)
Definition peersFor (peers : list peer) : list v1beta2.BGPPeer + peerError :=
  peersLoop 0 peers [].

(** *** [bfdProfileFor] *)

(** The zero value of [v1beta1.BFDProfile], which fills the slice that
    [make] returns. *)
Definition zeroBFDProfile : BFDProfile :=
  {| bfd_ObjectMeta := {| Name := ""; Namespace := "" |};
     bfd_Spec :=
       {| ReceiveInterval := None; TransmitInterval := None;
          DetectMultiplier := None; EchoInterval := None;
          EchoMode := None; PassiveMode := None; MinimumTTL := None |} |}.

(** The profile [b] built by the turn of the loop at index [i]. *)
Definition bfdProfileAt (i : nat) (bfd : bfdProfile) : BFDProfile :=
  {| bfd_ObjectMeta :=
       {| Name := bfd_Name bfd; Namespace := resourcesNameSpace |};
     bfd_Spec :=
       {| ReceiveInterval := bfd_ReceiveInterval bfd;
          TransmitInterval := bfd_TransmitInterval bfd;
          DetectMultiplier := bfd_DetectMultiplier bfd;
          EchoInterval := bfd_EchoInterval bfd;
          EchoMode := Some {| ptr_elem := i; ptr_field := EchoModeField |};
          PassiveMode := Some {| ptr_elem := i; ptr_field := PassiveModeField |};
          MinimumTTL := bfd_MinimumTTL bfd |} |}.

(** One turn of the loop, the state being [ret] and the index [i]. *)
Definition bfdProfileStep (st : list BFDProfile * nat) (bfd : bfdProfile)
  : list BFDProfile * nat :=
  let i := st.2 in
  let b := bfdProfileAt i bfd in
  (<[i := b]> st.1, S i).

(** [bfdProfileFor]; the argument is the slice [c.BFDProfiles], the one
    field of the legacy document that the function reads, and the one that
    the addresses it takes point into. *)
Definition bfdProfileFor (profiles : list bfdProfile) : list BFDProfile :=
  let ret := replicate (length profiles) zeroBFDProfile in
  (fold_left bfdProfileStep profiles (ret, 0%nat)).1.

(** *** [ipAddressPoolsFor] *)

(** The zero value of [v1beta1.IPAddressPool]. *)
Definition zeroIPAddressPool : IPAddressPool :=
  {| ippool_ObjectMeta := {| Name := ""; Namespace := "" |};
     ippool_Spec :=
       {| ippool_Addresses := []; ippool_AutoAssign := None;
          ippool_AvoidBuggyIPs := false |} |}.

(** The pool [ap] built by one turn of the loop: the zero value with its
    fields assigned. *)
Definition ipAddressPoolOf (addresspool : addressPool) : IPAddressPool :=
  {| ippool_ObjectMeta :=
       {| Name := pool_Name addresspool; Namespace := resourcesNameSpace |};
     ippool_Spec :=
       {| ippool_Addresses := copy_strings (Addresses addresspool);
          ippool_AutoAssign := AutoAssign addresspool;
          ippool_AvoidBuggyIPs :=
            match AvoidBuggyIPs addresspool with
            | Some flag => flag
            | None => ippool_AvoidBuggyIPs (ippool_Spec zeroIPAddressPool)
            end |} |}.

(** One turn of the loop, the state being [res] and the index [i]. *)
Definition ipAddressPoolStep (st : list IPAddressPool * nat)
    (addresspool : addressPool) : list IPAddressPool * nat :=
  let i := st.2 in
  let ap := ipAddressPoolOf addresspool in
  (<[i := ap]> st.1, S i).

Definition ipAddressPoolsFor (c : configFile) : list IPAddressPool :=
  let res := replicate (length (Pools c)) zeroIPAddressPool in
  (fold_left ipAddressPoolStep (Pools c) (res, 0%nat)).1.

End Resources.

(** *** Vocabulary of the statements about the peers, profiles and pools *)

Definition peerName (p : v1beta2.BGPPeer) : string :=
  Name (v1beta2.peer_ObjectMeta p).

Definition peerNamespace (p : v1beta2.BGPPeer) : string :=
  Namespace (v1beta2.peer_ObjectMeta p).

Definition ipPoolName (p : IPAddressPool) : string :=
  Name (ippool_ObjectMeta p).

(** The flag found at an address of the profile slice when the slice holds
    [profiles]; [None] outside the slice. *)
Definition readFlag (profiles : list bfdProfile) (p : boolPtr) : option bool :=
  match profiles !! ptr_elem p with
  | Some bfd =>
      Some (match ptr_field p with
            | EchoModeField => bfd_EchoMode bfd
            | PassiveModeField => bfd_PassiveMode bfd
            end)
  | None => None
  end.

(** The mapping that a list of aliases stands for. *)
Definition aliasMap (aliases : list CommunityAlias) : gmap string string :=
  list_to_map ((fun a => (alias_Name a, alias_Value a)) <$> aliases).

End conversion.

(** ** Package [controllers]: the pool reconciler *)

Module controllers.

(** [SyncState] is declared in another file of the package as an integer
    type: the handler may return any value of it, named or not. *)
Definition SyncState := Z.

(** What [Reconcile] uses from the rest of the repository and from its
    libraries, declared elsewhere and taken as parameters. *)
Class Decls `{api.Types} := {
  ConfigMap : Type;
  LegacyConfig : Type;
  Config : Type;
  PoolSet : Type;
  error : Type;
  (** [reflect.DeepEqual] on what two non-nil [*config.Config] point to;
      a nil pointer equals no configuration that was built *)
  Config_eq_dec :: EqDecision Config;
  (** the field [cfg.Pools] *)
  config_Pools : Config -> PoolSet;
  (** the three outcomes that [Reconcile] tells apart *)
  SyncStateError : SyncState;
  SyncStateReprocessAll : SyncState;
  SyncStateErrorNoRetry : SyncState;
  errRetry : error;
  (** [apierrors.IsNotFound] *)
  IsNotFound : error -> bool;
  (** the zero value of [corev1.ConfigMap] *)
  zeroConfigMap : ConfigMap;
  DecodeLegacyCM : ConfigMap -> LegacyConfig + error;
  ResourcesFor : LegacyConfig -> config.ClusterResources + error;
  AddLegacyResources :
    config.ClusterResources -> config.ClusterResources -> config.ClusterResources;
  (** [toConfig], applied to [r.ValidateConfig]; a success carries a
      non-nil configuration *)
  toConfig : config.ClusterResources -> Config + error;
}.

Section Reconcile.

Context `{Decls}.

(** What the cluster and the handler answer during one invocation. *)
Record Env := {
  listAddressPools : list api.AddressPool + error;
  listIPAddressPools : list api.IPAddressPool + error;
  listCommunities : list api.Community + error;
  listNamespaces : list api.Namespace + error;
  getLegacyConfig : ConfigMap + error;
  Handler : PoolSet -> SyncState;
}.

Inductive Level := Debug | Info | Error.

(** What an invocation does to its surroundings, in order. *)
Inductive Event :=
| Log (level : Level) (message : string)
| HandlerCall (pools : PoolSet)
| ForceReloadCall.

(** The reconciler's own field [currentConfig] ([None] is the nil
    pointer), the four metrics of the package, and the events so far.
    The counters are integers and a gauge holds the last value set. *)
Record State := {
  currentConfig : option Config;
  updates : Z;
  updateErrors : Z;
  configStale : Z;
  configLoaded : Z;
  events : list Event;
}.

(** A step either goes on with a value or returns from [Reconcile] with
    the given error ([None] is nil). *)
Inductive Flow (A : Type) :=
| Continue (a : A)
| Return (err : option error).
#[global] Arguments Continue {A} a.
#[global] Arguments Return {A} err.

Definition R (A : Type) : Type := State -> State * Flow A.

Definition continue {A} (a : A) : R A := fun st => (st, Continue a).

Definition return_ {A} (err : option error) : R A := fun st => (st, Return err).

Definition step {A B} (m : R A) (k : A -> R B) : R B :=
  fun st => match m st with
            | (st', Continue a) => k a st'
            | (st', Return err) => (st', Return err)
            end.

Notation "'do' x <- m ; k" := (step m (fun x => k))
  (at level 10, x name, m at level 100, k at level 200).
Notation "'run' m ; k" := (step m (fun _ => k))
  (at level 10, m at level 100, k at level 200).

Definition emit (e : Event) : R unit :=
  fun st =>
    ({| currentConfig := currentConfig st; updates := updates st;
        updateErrors := updateErrors st; configStale := configStale st;
        configLoaded := configLoaded st; events := events st ++ [e] |},
     Continue tt).

Definition log (level : Level) (message : string) : R unit :=
  emit (Log level message).

(** [updates.Inc()] *)
Definition updates_Inc : R unit :=
  fun st =>
    ({| currentConfig := currentConfig st; updates := updates st + 1;
        updateErrors := updateErrors st; configStale := configStale st;
        configLoaded := configLoaded st; events := events st |},
     Continue tt).

(** [updateErrors.Inc()] *)
Definition updateErrors_Inc : R unit :=
  fun st =>
    ({| currentConfig := currentConfig st; updates := updates st;
        updateErrors := updateErrors st + 1; configStale := configStale st;
        configLoaded := configLoaded st; events := events st |},
     Continue tt).

(** [configStale.Set(v)] *)
Definition configStale_Set (v : Z) : R unit :=
  fun st =>
    ({| currentConfig := currentConfig st; updates := updates st;
        updateErrors := updateErrors st; configStale := v;
        configLoaded := configLoaded st; events := events st |},
     Continue tt).

(** [configLoaded.Set(v)] *)
Definition configLoaded_Set (v : Z) : R unit :=
  fun st =>
    ({| currentConfig := currentConfig st; updates := updates st;
        updateErrors := updateErrors st; configStale := configStale st;
        configLoaded := v; events := events st |},
     Continue tt).

(** [r.currentConfig = cfg] *)
Definition set_currentConfig (cfg : Config) : R unit :=
  fun st =>
    ({| currentConfig := Some cfg; updates := updates st;
        updateErrors := updateErrors st; configStale := configStale st;
        configLoaded := configLoaded st; events := events st |},
     Continue tt).

Definition get_currentConfig : R (option Config) :=
  fun st => (st, Continue (currentConfig st)).

(** [if err := r.List(...); err != nil { log; return ctrl.Result{}, err }] *)
Definition listOrReturn {A} (answer : A + error) (message : string) : R A :=
  match answer with
  | inl items => continue items
  | inr err => run log Error message ; return_ (Some err)
  end.

(** [x, err := f(...); if err != nil { return ctrl.Result{}, err }] *)
Definition orReturn {A} (result : A + error) : R A :=
  match result with
  | inl a => continue a
  | inr err => return_ (Some err)
  end.

(** The composite literal [config.ClusterResources{...}] of [Reconcile]. *)
Definition clusterResources (ipAddressPools : list api.IPAddressPool)
    (addressPools : list api.AddressPool) (communities : list api.Community)
    (namespaces : list api.Namespace) : config.ClusterResources :=
  {| config.Pools := ipAddressPools;
     config.Peers := [];
     config.BFDProfiles := [];
     config.BGPAdvs := [];
     config.L2Advs := [];
     config.LegacyAddressPools := addressPools;
     config.Communities := communities;
     config.PasswordSecrets := None;
     config.Nodes := [];
     config.Namespaces := namespaces |}.

(** From the first [r.List] to [AddLegacyResources]: reading the cluster,
    translating the legacy document and merging the two. *)
Definition fetchResources (env : Env) : R config.ClusterResources :=
  do addressPools <- listOrReturn (listAddressPools env) "failed to get addresspools" ;
  do ipAddressPools <- listOrReturn (listIPAddressPools env) "failed to get ipaddresspools" ;
  do communities <- listOrReturn (listCommunities env) "failed to get communities" ;
  do namespaces <- listOrReturn (listNamespaces env) "failed to get namespaces" ;
  do legacyConfig <-
    (match getLegacyConfig env with
     | inl cm => continue cm
     | inr err =>
         if negb (IsNotFound err)
         then run log Error "failed to get the frr configmap" ; return_ (Some err)
         else continue zeroConfigMap
     end) ;
  do legacyCF <- orReturn (DecodeLegacyCM legacyConfig) ;
  do legacyResources <- orReturn (ResourcesFor legacyCF) ;
  let resources :=
    clusterResources ipAddressPools addressPools communities namespaces in
  continue (AddLegacyResources resources legacyResources).

(** From [toConfig] to the end: building the configuration, comparing it
    with the one in force and handing it to the handler. *)
Definition applyResources (env : Env) (resources : config.ClusterResources)
  : R unit :=
  do cfg <-
    (match toConfig resources with
     | inl cfg => continue cfg
     | inr err =>
         run configStale_Set 1 ;
         run log Error "failed to parse the configuration" ;
         return_ None
     end) ;
  run log Debug "rendered config" ;
  do current <- get_currentConfig ;
  run (if bool_decide (current = Some cfg)
       then run log Debug "configuration did not change, ignoring" ; return_ None
       else continue tt) ;
  run emit (HandlerCall (config_Pools cfg)) ;
  let res := Handler env (config_Pools cfg) in
  run (if bool_decide (res = SyncStateError) then
         run updateErrors_Inc ;
         run configStale_Set 1 ;
         run log Error "reload failed, retry" ;
         return_ (Some errRetry)
       else if bool_decide (res = SyncStateReprocessAll) then
         run log Info "force service reload" ;
         emit ForceReloadCall
       else if bool_decide (res = SyncStateErrorNoRetry) then
         run updateErrors_Inc ;
         run configStale_Set 1 ;
         run log Error "reload failed, no retry" ;
         return_ None
       else continue tt) ;
  run set_currentConfig cfg ;
  run configLoaded_Set 1 ;
  run configStale_Set 0 ;
  run log Info "config reloaded" ;
  return_ None.

(** The body of [Reconcile], between the first log line and the deferred
    one.  The [ctrl.Result] returned is empty on every path and is left
    out. *)
Definition reconcileBody (env : Env) : R unit :=
  run updates_Inc ;
  do resources <- fetchResources env ;
  run log Debug "metallb CRs" ;
  applyResources env resources.

(** [Reconcile]: the final state and the error returned ([None] is nil). *)
Definition Reconcile (env : Env) (st : State) : State * option error :=
  match (run log Info "start reconcile" ; reconcileBody env) st with
  | (st', Return err) => ((log Info "end reconcile" st').1, err)
  | (st', Continue _) => ((log Info "end reconcile" st').1, None)
  end.

(** *** Vocabulary of the statements about [Reconcile] *)

(** The legacy document that the translation starts from. *)
Definition legacyDocument (env : Env) : option ConfigMap :=
  match getLegacyConfig env with
  | inl cm => Some cm
  | inr err => if IsNotFound err then Some zeroConfigMap else None
  end.

(** The merged resources, when every read and the translation succeed. *)
Definition fetched (env : Env) : option config.ClusterResources :=
  match listAddressPools env, listIPAddressPools env,
        listCommunities env, listNamespaces env, legacyDocument env with
  | inl addressPools, inl ipAddressPools, inl communities, inl namespaces,
    Some legacyConfig =>
      match DecodeLegacyCM legacyConfig with
      | inl legacyCF =>
          match ResourcesFor legacyCF with
          | inl legacyResources =>
              Some (AddLegacyResources
                      (clusterResources ipAddressPools addressPools
                         communities namespaces)
                      legacyResources)
          | inr _ => None
          end
      | inr _ => None
      end
  | _, _, _, _, _ => None
  end.

(** The pool sets handed to the handler, oldest first. *)
Definition handlerCalls (evs : list Event) : list PoolSet :=
  omap (fun e => match e with HandlerCall p => Some p | _ => None end) evs.

(** The reconciler's state after the invocations [envs], one after the
    other: the caller runs them one at a time. *)
Definition reconcileAll (envs : list Env) (st : State) : State :=
  fold_left (fun st env => (Reconcile env st).1) envs st.

(** The same surroundings, with the legacy document found and empty. *)
Definition withEmptyLegacyConfig (env : Env) : Env :=
  {| listAddressPools := listAddressPools env;
     listIPAddressPools := listIPAddressPools env;
     listCommunities := listCommunities env;
     listNamespaces := listNamespaces env;
     getLegacyConfig := inl zeroConfigMap;
     Handler := Handler env |}.

(** The number of reloads forced. *)
Definition forcedReloads (evs : list Event) : nat :=
  length (omap (fun e => match e with ForceReloadCall => Some tt | _ => None end)
            evs).

End Reconcile.

End controllers.

(** ** Sample data for the closed statements *)

Module samples.

Import v1beta1 conversion.

(** The alias mapping [{"b": "100", "a": "200"}]. *)
Definition exampleCommunities : configFile :=
  {| BGPCommunities := <["b" := "100"]> (<["a" := "200"]> ∅); Pools := [] |}.

Definition plainAdv : bgpAdvertisement :=
  {| legacy_AggregationLength := 32; legacy_AggregationLengthV6 := 128;
     legacy_LocalPref := 100; legacy_Communities := ["no-export"] |}.

(** A pool tagged [layer2] that nevertheless lists a BGP advertisement. *)
Definition layer2WithAdv : addressPool :=
  {| Protocol := Layer2; pool_Name := "first"; Addresses := ["192.168.1.0/24"];
     AvoidBuggyIPs := None; AutoAssign := None; BGPAdvertisements := [plainAdv] |}.

Definition bgpWithAdv : addressPool :=
  {| Protocol := BGP; pool_Name := "second"; Addresses := ["10.0.0.0/24"];
     AvoidBuggyIPs := None; AutoAssign := None; BGPAdvertisements := [plainAdv] |}.

Definition twoPoolsBothWithAdv : configFile :=
  {| BGPCommunities := ∅; Pools := [layer2WithAdv; bgpWithAdv] |}.

(** Every object of the cluster stands for itself by its name. *)
Definition stringTypes : api.Types :=
  {| api.IPAddressPool := string; api.BGPPeer := string; api.BFDProfile := string;
     api.BGPAdvertisement := string; api.L2Advertisement := string;
     api.AddressPool := string; api.Community := string; api.Secret := string;
     api.Node := string; api.Namespace := string |}.

#[local] Existing Instance stringTypes.

(** A resource set whose secret mapping is nil. *)
Definition bareFirst : config.ClusterResources :=
  {| config.Pools := ["pool-a"]; config.Peers := []; config.BFDProfiles := [];
     config.BGPAdvs := []; config.L2Advs := []; config.LegacyAddressPools := [];
     config.Communities := []; config.PasswordSecrets := None;
     config.Nodes := []; config.Namespaces := ["ns-a"] |}.

(** One whose secret mapping is the map at reference 2. *)
Definition keyedFirst : config.ClusterResources :=
  {| config.Pools := ["pool-a"]; config.Peers := []; config.BFDProfiles := [];
     config.BGPAdvs := []; config.L2Advs := []; config.LegacyAddressPools := [];
     config.Communities := []; config.PasswordSecrets := Some 2%positive;
     config.Nodes := []; config.Namespaces := ["ns-a"] |}.

(** One whose secret mapping is the map at reference 1. *)
Definition keyedSecond : config.ClusterResources :=
  {| config.Pools := ["pool-b"]; config.Peers := ["peer1"]; config.BFDProfiles := [];
     config.BGPAdvs := []; config.L2Advs := []; config.LegacyAddressPools := [];
     config.Communities := []; config.PasswordSecrets := Some 1%positive;
     config.Nodes := []; config.Namespaces := [] |}.

Definition secretMaps : gmap config.mapref (gmap string string) :=
  <[1%positive := <["k" := "new"]> ∅]>
    (<[2%positive := <["k" := "old"]> (<["j" := "other"]> ∅)]> ∅).

(** [bareFirst] at address 1 and [keyedSecond] at address 2. *)
Definition bareStore : conversion.store :=
  {| conversion.objects :=
       <[1%positive := bareFirst]> (<[2%positive := keyedSecond]> ∅);
     conversion.maps := secretMaps |}.

(** [keyedFirst] at address 1 and [keyedSecond] at address 2. *)
Definition keyedStore : conversion.store :=
  {| conversion.objects :=
       <[1%positive := keyedFirst]> (<[2%positive := keyedSecond]> ∅);
     conversion.maps := secretMaps |}.

(** A reconciler whose configuration is the list of pool names, built only
    when there is a pool; the outcomes are numbered in the order
    success, error, error without retry, reprocess all. *)
Definition listDecls : controllers.Decls :=
  {| controllers.ConfigMap := string;
     controllers.LegacyConfig := string;
     controllers.Config := list string;
     controllers.PoolSet := list string;
     controllers.error := string;
     controllers.Config_eq_dec := _;
     controllers.config_Pools := fun cfg => cfg;
     controllers.SyncStateError := 1;
     controllers.SyncStateReprocessAll := 3;
     controllers.SyncStateErrorNoRetry := 2;
     controllers.errRetry := "retry";
     controllers.IsNotFound := fun err => String.eqb err "not found";
     controllers.zeroConfigMap := "";
     controllers.DecodeLegacyCM := fun cm => inl cm;
     controllers.ResourcesFor := fun _ => inl config.zeroClusterResources;
     controllers.AddLegacyResources := conversion.merged;
     controllers.toConfig :=
       fun r => match config.Pools r with
                | [] => inr "no pools"
                | pools => inl pools
                end |}.

#[local] Existing Instance listDecls.

(** A cluster with the given pools and no legacy document, and a handler
    that answers [outcome]. *)
Definition clusterWith (pools : list string) (outcome : controllers.SyncState)
  : controllers.Env :=
  {| controllers.listAddressPools := inl [];
     controllers.listIPAddressPools := inl pools;
     controllers.listCommunities := inl [];
     controllers.listNamespaces := inl [];
     controllers.getLegacyConfig := inr "not found";
     controllers.Handler := fun _ => outcome |}.

(** A cluster whose first read fails. *)
Definition unreachableCluster : controllers.Env :=
  {| controllers.listAddressPools := inr "unreachable";
     controllers.listIPAddressPools := inl [];
     controllers.listCommunities := inl [];
     controllers.listNamespaces := inl [];
     controllers.getLegacyConfig := inr "not found";
     controllers.Handler := fun _ => 0 |}.

(** A reconciler that has run seven times and holds [current]. *)
Definition stateWith (current : option (list string)) : controllers.State :=
  {| controllers.currentConfig := current;
     controllers.updates := 7;
     controllers.updateErrors := 0;
     controllers.configStale := 0;
     controllers.configLoaded := 1;
     controllers.events := [] |}.

(** A peer that sets neither of its two times. *)
Definition plainPeer : peer :=
  {| peer_MyASN := 64512; peer_ASN := 64513; peer_Addr := "10.0.0.1";
     peer_SrcAddr := ""; peer_Port := 179; peer_HoldTime := "";
     peer_KeepaliveTime := ""; peer_RouterID := ""; peer_NodeSelectors := [];
     peer_Password := ""; peer_BFDProfile := ""; peer_EBGPMultiHop := false |}.

Definition rackSelector : nodeSelector :=
  {| sel_MatchLabels := <["rack" := "r1"]> ∅;
     sel_MatchExpressions :=
       [ {| req_Key := "zone"; req_Operator := "In"; req_Values := ["a"; "b"] |} ] |}.

(** A peer that sets both times and selects its nodes. *)
Definition timedPeer : peer :=
  {| peer_MyASN := 64512; peer_ASN := 64514; peer_Addr := "10.0.0.2";
     peer_SrcAddr := ""; peer_Port := 179; peer_HoldTime := "30s";
     peer_KeepaliveTime := "10s"; peer_RouterID := "10.0.0.254";
     peer_NodeSelectors := [rackSelector];
     peer_Password := ""; peer_BFDProfile := "fast"; peer_EBGPMultiHop := true |}.

(** A peer whose hold time is below three seconds. *)
Definition hastyPeer : peer :=
  {| peer_MyASN := 64512; peer_ASN := 64515; peer_Addr := "10.0.0.3";
     peer_SrcAddr := ""; peer_Port := 179; peer_HoldTime := "2s";
     peer_KeepaliveTime := ""; peer_RouterID := ""; peer_NodeSelectors := [];
     peer_Password := ""; peer_BFDProfile := ""; peer_EBGPMultiHop := false |}.

(** A pool with no protocol tag and no advertisement spec. *)
Definition untaggedPool : addressPool :=
  {| Protocol := ""; pool_Name := "third"; Addresses := ["172.16.0.0/24"];
     AvoidBuggyIPs := Some true; AutoAssign := None; BGPAdvertisements := [] |}.

(** [keyedFirst] at address 1, [bareFirst] at address 2 and [keyedSecond]
    at address 3. *)
Definition threeStore : conversion.store :=
  {| conversion.objects :=
       <[1%positive := keyedFirst]>
         (<[2%positive := bareFirst]> (<[3%positive := keyedSecond]> ∅));
     conversion.maps := secretMaps |}.

End samples.

(** * Properties *)

(** ** The order of [sort.Strings] *)

Module sort_facts.

Lemma ascii_compare_refl a : Ascii.compare a a = Eq.
Proof. unfold Ascii.compare. apply N.compare_refl. Qed.

Lemma ascii_compare_trans c a b d :
  Ascii.compare a b = c → Ascii.compare b d = c → Ascii.compare a d = c.
Proof.
  unfold Ascii.compare. destruct c; intros H1 H2.
  - apply N.compare_eq_iff in H1, H2. apply N.compare_eq_iff. congruence.
  - rewrite N.compare_lt_iff in *. lia.
  - rewrite N.compare_gt_iff in *. lia.
Qed.

Lemma string_compare_lt_trans s1 : ∀ s2 s3,
  String.compare s1 s2 = Lt → String.compare s2 s3 = Lt → String.compare s1 s3 = Lt.
Proof.
  induction s1 as [|c1 s1 IH]; intros [|c2 s2] [|c3 s3]; simpl; try done.
  destruct (Ascii.compare c1 c2) eqn:H12; try done;
    destruct (Ascii.compare c2 c3) eqn:H23; try done; intros Ha Hb.
  - rewrite (ascii_compare_trans Eq _ _ _ H12 H23). eauto.
  - apply Ascii.compare_eq_iff in H12 as ->. by rewrite H23.
  - apply Ascii.compare_eq_iff in H23 as <-. by rewrite H12.
  - by rewrite (ascii_compare_trans Lt _ _ _ H12 H23).
Qed.

Lemma string_compare_refl s : String.compare s s = Eq.
Proof. induction s as [|c s IH]; simpl; [done|]. by rewrite ascii_compare_refl. Qed.

Lemma string_le_alt a b :
  sort.string_le a b ↔ a = b ∨ String.compare a b = Lt.
Proof.
  unfold sort.string_le, String.leb.
  destruct (String.compare a b) eqn:H; split; try done; try (by right).
  - intros _. left. by apply String.compare_eq_iff.
  - intros [->|?]; [|done]. by rewrite string_compare_refl in H.
Qed.

#[global] Instance string_le_trans : Transitive sort.string_le.
Proof.
  intros a b c. rewrite !string_le_alt.
  intros [->|H1] [->|H2]; eauto using string_compare_lt_trans.
Qed.

#[global] Instance string_le_antisym : AntiSymm eq sort.string_le.
Proof. intros a b. apply String.leb_antisym. Qed.

#[global] Instance string_le_total : Total sort.string_le.
Proof. intros a b. apply String.leb_total. Qed.

Lemma Strings_sorted l : Sorted sort.string_le (sort.Strings l).
Proof. apply Sorted_merge_sort, _. Qed.

Lemma Strings_perm l : sort.Strings l ≡ₚ l.
Proof. apply merge_sort_Permutation. Qed.

(** The result depends on the elements only, not on their order. *)
Lemma Strings_order_irrelevant l1 l2 :
  l1 ≡ₚ l2 → sort.Strings l1 = sort.Strings l2.
Proof.
  intros H. apply (Sorted_unique sort.string_le); auto using Strings_sorted.
  by rewrite !Strings_perm.
Qed.

End sort_facts.

(** ** The translation of the legacy document *)

Module translation_facts.

Import v1beta1 conversion sort_facts.

Lemma fold_left_snoc {A B} (f : B → A) (l : list B) (acc : list A) :
  fold_left (λ acc x, acc ++ [f x]) l acc = acc ++ (f <$> l).
Proof.
  revert acc. induction l as [|x l IH]; intros acc; simpl.
  - by rewrite app_nil_r.
  - rewrite IH. by rewrite <- app_assoc.
Qed.

Lemma numberFrom_cons {A} i (f : Z → A) l :
  numberFrom i (f :: l) = f i :: numberFrom (i + 1) l.
Proof.
  unfold numberFrom. rewrite imap_cons. f_equal; [f_equal; lia|].
  apply imap_ext. intros k x _. simpl. f_equal. lia.
Qed.

Lemma numberFrom_app {A} i (l1 l2 : list (Z → A)) :
  numberFrom i (l1 ++ l2) =
  numberFrom i l1 ++ numberFrom (i + Z.of_nat (length l1)) l2.
Proof.
  unfold numberFrom. rewrite imap_app. f_equal.
  apply imap_ext. intros k x _. simpl. f_equal. lia.
Qed.

Lemma numberFrom_names {A} (name : A → string) (prefix : string) i (l : list (Z → A)) :
  (∀ mk j, mk ∈ l → name (mk j) = fmt.Sprintf_d prefix j) →
  name <$> numberFrom i l =
  (λ k : nat, fmt.Sprintf_d prefix (i + Z.of_nat k)) <$> seq 0 (length l).
Proof.
  intros H. unfold numberFrom. rewrite fmap_imap.
  rewrite <- (imap_seq_0 l (λ k, fmt.Sprintf_d prefix (i + Z.of_nat k))).
  apply imap_ext. intros k mk Hk. simpl. apply H. by eapply list_elem_of_lookup_2.
Qed.

Section Translation.

Variable ns : string.

(** *** Communities *)

Lemma communitiesFor_eq order cf :
  communitiesFor ns order cf =
  if bool_decide (size (BGPCommunities cf) = 0%nat) then []
  else [ {| community_ObjectMeta := {| Name := "communities"; Namespace := ns |};
            community_Spec :=
              {| Communities :=
                   aliasOf <$> ((λ k, (k, default "" (BGPCommunities cf !! k)))
                                  <$> sort.Strings order) |} |} ].
Proof.
  unfold communitiesFor. case_bool_decide; [done|].
  rewrite (fold_left_snoc (λ n, n) order []). simpl. rewrite list_fmap_id.
  rewrite (fold_left_snoc
             (λ v, {| alias_Name := v;
                      alias_Value := default "" (BGPCommunities cf !! v) |})).
  simpl. by rewrite <- list_fmap_compose.
Qed.

Lemma entries_of_keys (m : gmap string string) :
  (λ k, (k, default "" (m !! k))) <$> (map_to_list m).*1 = map_to_list m.
Proof.
  rewrite <- list_fmap_compose. rewrite <- (list_fmap_id (map_to_list m)) at 2.
  apply list_fmap_ext. intros i [k v] Hi. simpl.
  apply list_elem_of_lookup_2, elem_of_map_to_list in Hi. by rewrite Hi.
Qed.

(** C7.  An empty alias mapping yields no community resource.  A non-empty one
    yields exactly one, named "communities", whose aliases are the entries of
    the mapping in increasing order of their names; the order in which the
    mapping happens to be traversed does not matter.  The mapping
    [{"b": "100", "a": "200"}] gives the sequence [a:200, b:100] whichever key
    comes first. *)
Theorem communitiesFor_sorted (cf : configFile) (order order' : list string) :
  order ≡ₚ keysOf cf → order' ≡ₚ keysOf cf →
  (BGPCommunities cf = ∅ → communitiesFor ns order cf = [])
  ∧ (BGPCommunities cf ≠ ∅ →
       ∃ entries,
         communitiesFor ns order cf =
           [ {| community_ObjectMeta := {| Name := "communities"; Namespace := ns |};
                community_Spec := {| Communities := aliasOf <$> entries |} |} ]
         ∧ entries ≡ₚ map_to_list (BGPCommunities cf)
         ∧ Sorted sort.string_le entries.*1)
  ∧ communitiesFor ns order' cf = communitiesFor ns order cf
  ∧ communitiesFor ns ["b"; "a"] samples.exampleCommunities =
      [ {| community_ObjectMeta := {| Name := "communities"; Namespace := ns |};
           community_Spec :=
             {| Communities := [ {| alias_Name := "a"; alias_Value := "200" |};
                                 {| alias_Name := "b"; alias_Value := "100" |} ] |} |} ]
  ∧ communitiesFor ns ["a"; "b"] samples.exampleCommunities =
      communitiesFor ns ["b"; "a"] samples.exampleCommunities.
Proof.
  intros Hord Hord'. rewrite !communitiesFor_eq. repeat split.
  - intros ->. by rewrite map_size_empty.
  - intros Hne. eexists.
    rewrite bool_decide_eq_false_2; [|by rewrite map_size_empty_iff].
    split; [done|]. split.
    + rewrite Strings_perm, Hord. unfold keysOf. by rewrite entries_of_keys.
    + rewrite <- list_fmap_compose. simpl.
      replace (fst ∘ _) with (@id string) by done.
      rewrite list_fmap_id. apply Strings_sorted.
  - rewrite (Strings_order_irrelevant order' order); [done|]. by rewrite Hord.
Qed.

(** *** BGP advertisements *)

Lemma bgpAdvInner_fold ap advs res i :
  fold_left (bgpAdvInner ns ap) advs (res, i) =
  (res ++ numberFrom i (explicitBGPAdv ns ap <$> advs), i + Z.of_nat (length advs)).
Proof.
  revert res i. induction advs as [|a advs IH]; intros res i; simpl.
  - rewrite app_nil_r. f_equal. lia.
  - unfold bgpAdvInner at 2. simpl. rewrite IH, numberFrom_cons, <- app_assoc. simpl.
    f_equal. lia.
Qed.

Lemma bgpAdvOuter_eq res i ap :
  bgpAdvOuter ns (res, i) ap =
  (res ++ numberFrom i (poolAdvs ns ap), i + Z.of_nat (length (poolAdvs ns ap))).
Proof.
  unfold bgpAdvOuter, poolAdvs. rewrite bgpAdvInner_fold.
  destruct (BGPAdvertisements ap) as [|a advs] eqn:E.
  - simpl. case_bool_decide; simpl.
    + rewrite app_nil_r. do 2 f_equal. unfold numberFrom. simpl. do 2 f_equal. lia.
    + done.
  - simpl length. rewrite (bool_decide_eq_false_2 (S _ = 0%nat)) by done. simpl.
    by rewrite length_fmap.
Qed.

Lemma bgpAdvOuter_fold pools res i :
  fold_left (bgpAdvOuter ns) pools (res, i) =
  (res ++ numberFrom i (flat_map (poolAdvs ns) pools),
   i + Z.of_nat (length (flat_map (poolAdvs ns) pools))).
Proof.
  revert res i. induction pools as [|ap pools IH]; intros res i; simpl.
  - rewrite app_nil_r. f_equal. lia.
  - rewrite bgpAdvOuter_eq, IH, numberFrom_app, <- app_assoc, length_app.
    f_equal. lia.
Qed.

Lemma bgpAdvertisementsFor_numbered c :
  bgpAdvertisementsFor ns c = numberFrom 1 (flat_map (poolAdvs ns) (Pools c)).
Proof. unfold bgpAdvertisementsFor. by rewrite bgpAdvOuter_fold. Qed.

Lemma poolAdvs_names ap mk j :
  mk ∈ poolAdvs ns ap → bgpAdvName (mk j) = fmt.Sprintf_d "bgpadvertisement" j.
Proof.
  unfold poolAdvs. destruct (BGPAdvertisements ap) as [|a advs].
  - case_bool_decide; [|by intros ?%elem_of_nil].
    by intros ->%list_elem_of_singleton.
  - intros (x & -> & _)%list_elem_of_fmap. done.
Qed.

(** C4.  The BGP advertisements are the contributions of the pools, pool
    after pool and spec after spec, numbered 1, 2, 3, ... by one counter that
    runs over all pools: their names are bgpadvertisement1, bgpadvertisement2,
    ... in the order of the output.  An explicit spec gives an advertisement
    that carries the spec's three numbers, a copy of its community list, and
    the name of its own pool as the only pool.  A pool tagged bgp that has no
    spec adds exactly one advertisement, with the next number, the three
    numbers zero, no community and its own pool only.  A pool tagged layer2
    adds what its specs give and nothing else, so nothing and no number when
    it has no spec. *)
Theorem bgpAdvertisementsFor_spec (c : configFile)
    (res : list BGPAdvertisement) (index : Z)
    (name : string) (addresses : list string) (avoid auto : option bool)
    (advs : list bgpAdvertisement) (ap : addressPool) (bgpAdv : bgpAdvertisement) :
  bgpAdvertisementsFor ns c = numberFrom 1 (flat_map (poolAdvs ns) (Pools c))
  ∧ bgpAdvName <$> bgpAdvertisementsFor ns c =
      (λ k : nat, fmt.Sprintf_d "bgpadvertisement" (1 + Z.of_nat k))
        <$> seq 0 (length (bgpAdvertisementsFor ns c))
  ∧ bgpadv_Spec (explicitBGPAdv ns ap bgpAdv index) =
      {| AggregationLength := legacy_AggregationLength bgpAdv;
         AggregationLengthV6 := legacy_AggregationLengthV6 bgpAdv;
         LocalPref := legacy_LocalPref bgpAdv;
         adv_Communities := legacy_Communities bgpAdv;
         IPAddressPools := [pool_Name ap] |}
  ∧ bgpAdvOuter ns (res, index)
      {| Protocol := BGP; pool_Name := name; Addresses := addresses;
         AvoidBuggyIPs := avoid; AutoAssign := auto; BGPAdvertisements := [] |} =
      (res ++ [ {| bgpadv_ObjectMeta :=
                     {| Name := fmt.Sprintf_d "bgpadvertisement" index;
                        Namespace := ns |};
                   bgpadv_Spec :=
                     {| AggregationLength := 0; AggregationLengthV6 := 0;
                        LocalPref := 0; adv_Communities := [];
                        IPAddressPools := [name] |} |} ],
       index + 1)
  ∧ bgpAdvOuter ns (res, index)
      {| Protocol := Layer2; pool_Name := name; Addresses := addresses;
         AvoidBuggyIPs := avoid; AutoAssign := auto; BGPAdvertisements := advs |} =
      (res ++ numberFrom index
                (explicitBGPAdv ns
                   {| Protocol := Layer2; pool_Name := name; Addresses := addresses;
                      AvoidBuggyIPs := avoid; AutoAssign := auto;
                      BGPAdvertisements := advs |} <$> advs),
       index + Z.of_nat (length advs))
  ∧ bgpAdvOuter ns (res, index)
      {| Protocol := Layer2; pool_Name := name; Addresses := addresses;
         AvoidBuggyIPs := avoid; AutoAssign := auto; BGPAdvertisements := [] |} =
      (res, index).
Proof.
  split; [apply bgpAdvertisementsFor_numbered|]. split.
  { rewrite bgpAdvertisementsFor_numbered. unfold numberFrom at 2.
    rewrite length_imap. apply numberFrom_names. intros mk j Hmk.
    apply list_elem_of_In, in_flat_map in Hmk as (ap' & _ & Hmk).
    eapply poolAdvs_names. by apply list_elem_of_In. }
  split.
  { simpl. unfold copy_strings. by rewrite list_fmap_id. }
  split.
  { rewrite bgpAdvOuter_eq. unfold poolAdvs, numberFrom. simpl.
    by rewrite Z.add_0_r. }
  split.
  - rewrite bgpAdvOuter_eq. unfold poolAdvs. cbn [BGPAdvertisements Protocol].
    destruct advs as [|a advs']; [|by rewrite length_fmap].
    rewrite bool_decide_eq_false_2 by done. done.
  - rewrite bgpAdvOuter_eq. unfold poolAdvs. cbn [BGPAdvertisements Protocol].
    rewrite bool_decide_eq_false_2 by done. unfold numberFrom. simpl.
    rewrite app_nil_r. f_equal. lia.
Qed.

(** *** L2 advertisements *)

Lemma l2AdvStep_fold pools res i :
  fold_left (l2AdvStep ns) pools (res, i) =
  (res ++ numberFrom i
            (layer2Adv ns <$> filter (λ ap, Protocol ap = Layer2) pools),
   i + Z.of_nat (length (filter (λ ap, Protocol ap = Layer2) pools))).
Proof.
  revert res i. induction pools as [|ap pools IH]; intros res i; simpl.
  - rewrite app_nil_r. f_equal. lia.
  - unfold l2AdvStep at 2. rewrite filter_cons. simpl. case_bool_decide as Hp.
    + rewrite decide_True by done. rewrite IH. simpl.
      rewrite numberFrom_cons, <- app_assoc. simpl. f_equal. lia.
    + rewrite decide_False by done. by rewrite IH.
Qed.

Lemma l2AdvertisementsFor_numbered c :
  l2AdvertisementsFor ns c =
  numberFrom 1 (layer2Adv ns <$> filter (λ ap, Protocol ap = Layer2) (Pools c)).
Proof. unfold l2AdvertisementsFor. by rewrite l2AdvStep_fold. Qed.

(** C8, amended.  The L2 advertisements are one per pool tagged layer2, in
    pool order, numbered 1, 2, 3, ... by a counter of their own, each naming
    its pool only.  For two pools, the first tagged layer2 with no BGP
    advertisement spec and the second tagged bgp with one spec, the
    translation gives l2advertisement1 for the first pool and
    bgpadvertisement1 for the spec of the second. *)
Theorem l2AdvertisementsFor_spec (c : configFile)
    (communities : gmap string string)
    (name1 name2 : string) (addresses1 addresses2 : list string)
    (avoid1 avoid2 auto1 auto2 : option bool) (bgpAdv : bgpAdvertisement) :
  l2AdvertisementsFor ns c =
    numberFrom 1 (layer2Adv ns <$> filter (λ ap, Protocol ap = Layer2) (Pools c))
  ∧ l2AdvName <$> l2AdvertisementsFor ns c =
      (λ k : nat, fmt.Sprintf_d "l2advertisement" (1 + Z.of_nat k))
        <$> seq 0 (length (l2AdvertisementsFor ns c))
  ∧ l2AdvertisementsFor ns
      {| BGPCommunities := communities;
         Pools :=
           [ {| Protocol := Layer2; pool_Name := name1; Addresses := addresses1;
                AvoidBuggyIPs := avoid1; AutoAssign := auto1;
                BGPAdvertisements := [] |};
             {| Protocol := BGP; pool_Name := name2; Addresses := addresses2;
                AvoidBuggyIPs := avoid2; AutoAssign := auto2;
                BGPAdvertisements := [bgpAdv] |} ] |} =
      [ {| l2adv_ObjectMeta := {| Name := "l2advertisement1"; Namespace := ns |};
           l2adv_Spec := {| l2_IPAddressPools := [name1] |} |} ]
  ∧ bgpAdvertisementsFor ns
      {| BGPCommunities := communities;
         Pools :=
           [ {| Protocol := Layer2; pool_Name := name1; Addresses := addresses1;
                AvoidBuggyIPs := avoid1; AutoAssign := auto1;
                BGPAdvertisements := [] |};
             {| Protocol := BGP; pool_Name := name2; Addresses := addresses2;
                AvoidBuggyIPs := avoid2; AutoAssign := auto2;
                BGPAdvertisements := [bgpAdv] |} ] |} =
      [ {| bgpadv_ObjectMeta := {| Name := "bgpadvertisement1"; Namespace := ns |};
           bgpadv_Spec :=
             {| AggregationLength := legacy_AggregationLength bgpAdv;
                AggregationLengthV6 := legacy_AggregationLengthV6 bgpAdv;
                LocalPref := legacy_LocalPref bgpAdv;
                adv_Communities := legacy_Communities bgpAdv;
                IPAddressPools := [name2] |} |} ].
Proof.
  split; [apply l2AdvertisementsFor_numbered|]. split.
  { rewrite l2AdvertisementsFor_numbered. unfold numberFrom at 2.
    rewrite length_imap. apply numberFrom_names.
    intros mk j (ap & -> & _)%list_elem_of_fmap. done. }
  split; [done|].
  unfold bgpAdvertisementsFor. simpl. unfold bgpAdvOuter. simpl.
  unfold bgpAdvInner, explicitBGPAdv, copy_strings. simpl.
  by rewrite list_fmap_id.
Qed.

End Translation.

(** C8, as stated, fails when the pool tagged layer2 lists a BGP
    advertisement of its own: that advertisement takes bgpadvertisement1, and
    the spec of the second pool is named bgpadvertisement2. *)
Lemma layer2_pool_consumes_bgp_counter :
  (λ b, (bgpAdvName b, IPAddressPools (bgpadv_Spec b)))
    <$> bgpAdvertisementsFor "metallb-system" samples.twoPoolsBothWithAdv
  = [ ("bgpadvertisement1", ["first"]); ("bgpadvertisement2", ["second"]) ]
  ∧ Protocol <$> Pools samples.twoPoolsBothWithAdv = [Layer2; BGP]
  ∧ length <$> (BGPAdvertisements <$> Pools samples.twoPoolsBothWithAdv) = [1%nat; 1%nat].
Proof. by vm_compute. Qed.

End translation_facts.

(** ** Hold times: [float64] rounding, [ParseDuration] and [parseHoldTime] *)

Module holdtime_facts.

Import float64 conversion.
Lemma nearest_even_cases N D :
  0 < D →
  let q := N / D in let r := N mod D in
  N = D * q + r ∧ 0 ≤ r < D ∧
  ((nearest_even N D = q ∧ 2 * r ≤ D) ∨ (nearest_even N D = q + 1 ∧ D ≤ 2 * r)).
Proof.
  intros HD q r. split; [apply Z.div_mod; lia|].
  split; [apply Z.mod_pos_bound; lia|].
  unfold nearest_even. fold q r.
  destruct (Z.ltb_spec (2 * r) D); [left; lia|].
  destruct (Z.ltb_spec D (2 * r)); [right; lia|].
  destruct (Z.even q); [left|right]; lia.
Qed.

Lemma nearest_even_ge N D g : 0 < D → g * D ≤ N → g ≤ nearest_even N D.
Proof.
  intros HD Hg. destruct (nearest_even_cases N D HD) as (E & Hr & Hc).
  assert (g ≤ N / D) by (apply Z.div_le_lower_bound; lia).
  destruct Hc as [[-> _]|[-> _]]; lia.
Qed.

Lemma nearest_even_le N D g : 0 < D → N ≤ g * D → nearest_even N D ≤ g.
Proof.
  intros HD Hg. destruct (nearest_even_cases N D HD) as (E & Hr & Hc).
  destruct Hc as [[-> _]|[-> Hh]]; nia.
Qed.

Lemma nearest_even_half N D : 0 < D → 2 * nearest_even N D * D ≤ 2 * N + D.
Proof.
  intros HD. destruct (nearest_even_cases N D HD) as (E & Hr & Hc).
  destruct Hc as [[-> _]|[-> Hh]]; nia.
Qed.

Lemma nearest_even_exact n D : 0 < D → nearest_even (n * D) D = n.
Proof.
  intros HD. unfold nearest_even. rewrite Z.div_mul, Z.mod_mul by lia.
  destruct (Z.ltb_spec (2 * 0) D); [done|lia].
Qed.

Lemma nearest_even_scale t N D : 0 < t → 0 < D → nearest_even (t * N) (t * D) = nearest_even N D.
Proof.
  intros Ht HD. unfold nearest_even.
  rewrite Z.div_mul_cancel_l by lia. rewrite Zmult_mod_distr_l.
  replace (2 * (t * (N mod D))) with (t * (2 * (N mod D))) by lia.
  destruct (Z.ltb_spec (2 * (N mod D)) D), (Z.ltb_spec (t * (2 * (N mod D))) (t * D)); try nia; try done.
  destruct (Z.ltb_spec D (2 * (N mod D))), (Z.ltb_spec (t * D) (t * (2 * (N mod D)))); try nia; done.
Qed.


Lemma ge_pow2_scaled K M a d :
  0 ≤ M → 0 ≤ K + M → ge_pow2 K a d ↔ d * 2 ^ (K + M) ≤ a * 2 ^ M.
Proof.
  intros HM HKM. unfold ge_pow2.
  destruct (Z.le_gt_cases 0 K).
  - rewrite (Z.max_r 0 K), (Z.max_l 0 (- K)) by lia.
    rewrite Z.pow_add_r by lia. simpl (2 ^ 0).
    assert (0 < 2 ^ M) by (apply Z.pow_pos_nonneg; lia). nia.
  - rewrite (Z.max_l 0 K), (Z.max_r 0 (- K)) by lia.
    replace M with (- K + (K + M)) at 2 by lia.
    rewrite (Z.pow_add_r 2 (- K)) by lia. simpl (2 ^ 0).
    assert (0 < 2 ^ (K + M)) by (apply Z.pow_pos_nonneg; lia). nia.
Qed.

Lemma ge_pow2_antitone K1 K2 a d :
  0 ≤ d → K1 ≤ K2 → ge_pow2 K2 a d → ge_pow2 K1 a d.
Proof.
  intros Hd HK H2.
  set (M := Z.max 0 (- K1)).
  apply (ge_pow2_scaled K1 M); [lia..|].
  apply (ge_pow2_scaled K2 M) in H2; [|lia..].
  assert (2 ^ (K1 + M) ≤ 2 ^ (K2 + M)) by (apply Z.pow_le_mono_r; lia).
  nia.
Qed.

Lemma ilog2_spec a d :
  0 < a → 0 < d → ge_pow2 (ilog2 a d) a d ∧ ¬ ge_pow2 (ilog2 a d + 1) a d.
Proof.
  intros Ha Hd. unfold ilog2.
  destruct (Z.log2_spec a Ha) as [La Ua], (Z.log2_spec d Hd) as [Ld Ud].
  pose proof (Z.log2_nonneg a). pose proof (Z.log2_nonneg d).
  set (la := Z.log2 a) in *. set (ld := Z.log2 d) in *.
  assert (0 < 2 ^ la) by (apply Z.pow_pos_nonneg; lia).
  assert (0 < 2 ^ ld) by (apply Z.pow_pos_nonneg; lia).
  rewrite Z.pow_succ_r in Ua, Ud by lia.
  destruct (Z.ltb_spec (a * 2 ^ Z.max 0 (- (la - ld))) (d * 2 ^ Z.max 0 (la - ld))) as [Hlt|Hge].
  - split.
    + apply (ge_pow2_scaled _ (ld + 1)); [lia..|].
      replace (la - ld - 1 + (ld + 1)) with la by lia.
      rewrite (Z.pow_add_r 2 ld 1) by lia. change (2 ^ 1) with 2. nia.
    + replace (la - ld - 1 + 1) with (la - ld) by lia. unfold ge_pow2. lia.
  - split; [exact Hge|].
    rewrite (ge_pow2_scaled _ ld) by lia.
    replace (la - ld + 1 + ld) with (la + 1) by lia.
    rewrite (Z.pow_add_r 2 la 1) by lia. change (2 ^ 1) with 2. nia.
Qed.

Lemma ilog2_unique a d K :
  0 < a → 0 < d → ge_pow2 K a d → ¬ ge_pow2 (K + 1) a d → ilog2 a d = K.
Proof.
  intros Ha Hd H1 H2. destruct (ilog2_spec a d Ha Hd) as [H3 H4].
  destruct (Z.lt_trichotomy (ilog2 a d) K) as [Hlt|[->|Hgt]]; [|done|].
  - exfalso. apply H4. apply (ge_pow2_antitone _ K); [lia..|done].
  - exfalso. apply H2. apply (ge_pow2_antitone _ (ilog2 a d)); [lia..|done].
Qed.

Lemma ge_pow2_scale t K a d : 0 < t → ge_pow2 K (t * a) (t * d) ↔ ge_pow2 K a d.
Proof. intros Ht. unfold ge_pow2. nia. Qed.

Lemma ilog2_scale t a d : 0 < t → 0 < a → 0 < d → ilog2 (t * a) (t * d) = ilog2 a d.
Proof.
  intros Ht Ha Hd. destruct (ilog2_spec a d Ha Hd) as [H3 H4].
  apply ilog2_unique; [nia..| |]; by rewrite ge_pow2_scale.
Qed.

Lemma round_scale t n d : 0 < t → 0 < d → round (t * n) (t * d) = round n d.
Proof.
  intros Ht Hd. unfold round.
  destruct (Z.eqb_spec n 0) as [->|Hn].
  - by rewrite Z.mul_0_r.
  - destruct (Z.eqb_spec (t * n) 0); [nia|].
    rewrite Z.abs_mul, (Z.abs_eq t) by lia.
    rewrite ilog2_scale by lia.
    rewrite <- !Z.mul_assoc, nearest_even_scale.
    + f_equal. f_equal. rewrite Z.sgn_mul. rewrite (Z.sgn_pos t); lia.
    + lia.
    + assert (0 < 2 ^ Z.max 0 (Z.max (ilog2 (Z.abs n) d - 52) (-1074))) by (apply Z.pow_pos_nonneg; lia). nia.
Qed.

Lemma round_neg n d : round (- n) d = mk (- mant (round n d)) (expo (round n d)).
Proof.
  unfold round. destruct (Z.eqb_spec n 0) as [->|Hn]; [done|].
  destruct (Z.eqb_spec (- n) 0); [lia|]. rewrite Z.abs_opp, Z.sgn_opp. simpl. f_equal. lia.
Qed.

Lemma den_pos x : 0 < den x.
Proof. unfold den. apply Z.pow_pos_nonneg; lia. Qed.

Lemma round_small n d K :
  0 < n → 0 < d → ge_pow2 K n d → ¬ ge_pow2 (K + 1) n d → -1022 ≤ K ≤ 52 →
  round n d = mk (nearest_even (n * 2 ^ (52 - K)) d) (K - 52).
Proof.
  intros Hn Hd H1 H2 HK. unfold round.
  destruct (Z.eqb_spec n 0); [lia|].
  rewrite Z.abs_eq, (ilog2_unique n d K), Z.sgn_pos by (done || lia).
  rewrite (Z.max_l (K - 52)) by lia.
  rewrite (Z.max_r 0 (- (K - 52))), (Z.max_l 0 (K - 52)) by lia.
  f_equal. rewrite Z.mul_1_l. f_equal; [f_equal; f_equal; lia|]. simpl. lia.
Qed.


Lemma num_neg x : num (neg x) = - num x.
Proof. unfold num, neg. simpl. lia. Qed.
Lemma den_neg x : den (neg x) = den x.
Proof. done. Qed.

Lemma round_opp n d : round (- n) d = neg (round n d).
Proof. apply round_neg. Qed.

Lemma of_int_opp n : of_int (- n) = neg (of_int n).
Proof. apply round_opp. Qed.

Lemma add_neg x y : add (neg x) (neg y) = neg (add x y).
Proof.
  unfold add. rewrite !num_neg, !den_neg. rewrite <- round_opp. f_equal. lia.
Qed.

Lemma div_neg_l x y : div (neg x) y = neg (div x y).
Proof.
  unfold div. rewrite !num_neg, !den_neg. rewrite <- round_opp. f_equal. lia.
Qed.

Lemma to_int_neg x : to_int (neg x) = - to_int x.
Proof.
  unfold to_int. rewrite num_neg, den_neg. apply Z.quot_opp_l. pose proof (den_pos x). lia.
Qed.

(** integers below 2^53 are represented exactly *)
Lemma of_int_exact n : 0 ≤ n < 2 ^ 53 → num (of_int n) = n * den (of_int n).
Proof.
  intros [Hn Hb]. destruct (Z.eq_dec n 0) as [->|Hne]; [done|].
  assert (0 < n) as Hpos by lia.
  destruct (Z.log2_spec n Hpos) as [Hl Hu].
  pose proof (Z.log2_nonneg n).
  assert (Z.log2 n < 53) by (apply Z.log2_lt_pow2; lia).
  unfold of_int. rewrite (round_small n 1 (Z.log2 n)); try lia.
  - rewrite <- (Z.mul_1_r (n * _)) at 1. rewrite nearest_even_exact by lia.
    unfold num, den. simpl mant. simpl expo.
    rewrite (Z.max_l 0 (Z.log2 n - 52)), (Z.max_r 0 (- (Z.log2 n - 52))) by lia.
    replace (- (Z.log2 n - 52)) with (52 - Z.log2 n) by lia.
    change (2 ^ 0) with 1. lia.
  - unfold ge_pow2. rewrite (Z.max_r 0 (Z.log2 n)), (Z.max_l 0 (- Z.log2 n)) by lia.
    change (2 ^ 0) with 1. lia.
  - unfold ge_pow2. rewrite (Z.max_r 0 (Z.log2 n + 1)), (Z.max_l 0 (- (Z.log2 n + 1))) by lia.
    change (2 ^ 0) with 1. replace (Z.log2 n + 1) with (Z.succ (Z.log2 n)) by lia. lia.
Qed.

Lemma ge_pow2_nonneg K a d : 0 ≤ K → ge_pow2 K a d ↔ d * 2 ^ K ≤ a.
Proof.
  intros HK. unfold ge_pow2. rewrite (Z.max_r 0 K), (Z.max_l 0 (- K)) by lia.
  change (2 ^ 0) with 1. lia.
Qed.

Lemma ge_pow2_nonpos K a d : K ≤ 0 → ge_pow2 K a d ↔ d ≤ a * 2 ^ (- K).
Proof.
  intros HK. unfold ge_pow2. rewrite (Z.max_l 0 K), (Z.max_r 0 (- K)) by lia.
  change (2 ^ 0) with 1. lia.
Qed.



Lemma of_int_second : num (of_int 1000000000) = 1000000000 * den (of_int 1000000000) ∧ 0 < num (of_int 1000000000).
Proof. by vm_compute. Qed.

Lemma Seconds_nonneg d :
  0 ≤ d → d / 1000000000 < 2 ^ 53 →
  time.Seconds d =
    let x := round (d mod 1000000000) 1000000000 in
    round (d / 1000000000 * den x + num x) (den x).
Proof.
  intros Hd Hs. unfold time.Seconds.
  change time.Second with 1000000000 in *.
  rewrite Z.quot_div_nonneg, Z.rem_mod_nonneg by (lia).
  assert (0 ≤ d / 1000000000) by (apply Z.div_pos; lia).
  assert (0 ≤ d mod 1000000000 < 1000000000) as Hm by (apply Z.mod_pos_bound; lia).
  pose proof (of_int_exact (d / 1000000000) ltac:(lia)) as E1.
  pose proof (of_int_exact (d mod 1000000000) ltac:(lia)) as E2.
  destruct of_int_second as [E3 P3].
  set (a1 := of_int (d / 1000000000)) in *. set (a2 := of_int (d mod 1000000000)) in *.
  set (c := of_int 1000000000) in *.
  pose proof (den_pos a1). pose proof (den_pos a2). pose proof (den_pos c).
  assert (div a2 c = round (d mod 1000000000) 1000000000) as ->.
  { unfold div. rewrite Z.sgn_pos, Z.abs_eq, E2, E3 by lia.
    rewrite <- (round_scale (den a2 * den c) (d mod 1000000000) 1000000000) by (nia).
    f_equal; lia. }
  cbv zeta. set (x := round (d mod 1000000000) 1000000000).
  pose proof (den_pos x).
  unfold add. rewrite E1.
  rewrite <- (round_scale (den a1) (d / 1000000000 * den x + num x) (den x)) by lia.
  f_equal; lia.
Qed.

(** the fraction of a second, as a float64 *)
Lemma frac_shape nsec :
  0 < nsec < 1000000000 →
  ∃ m e, round nsec 1000000000 = mk m e ∧ -82 ≤ e ≤ -53 ∧ 0 < m ∧
    ∀ A, nsec * 2 ^ 53 ≤ A * 1000000000 → m * 2 ^ 53 ≤ A * 2 ^ (- e).
Proof.
  intros Hn. 
  destruct (ilog2_spec nsec 1000000000) as [H1 H2]; [lia..|].
  set (K := ilog2 nsec 1000000000) in *.
  assert (K < 0) as HK0.
  { destruct (Z.le_gt_cases 0 K); [|done]. exfalso.
    apply (ge_pow2_antitone 0 K) in H1; [|lia..]. rewrite ge_pow2_nonneg in H1 by lia. lia. }
  assert (-30 ≤ K) as HK30.
  { destruct (Z.le_gt_cases (-30) K); [done|]. exfalso. apply H2.
    apply (ge_pow2_antitone _ (-30)); [lia..|]. rewrite ge_pow2_nonpos by lia.
    change (2 ^ (- -30)) with 1073741824. lia. }
  exists (nearest_even (nsec * 2 ^ (52 - K)) 1000000000), (K - 52).
  split; [apply round_small; (done || lia)|].
  split; [lia|].
  replace (- (K - 52)) with (53 + (- 1 - K)) by lia.
  replace (52 - K) with (53 + (- 1 - K)) by lia.
  rewrite Z.pow_add_r by lia.
  assert (0 < 2 ^ (-1 - K)) as HP by (apply Z.pow_pos_nonneg; lia).
  set (P := 2 ^ (-1 - K)) in *.
  split.
  - assert (1 ≤ nearest_even (nsec * (2 ^ 53 * P)) 1000000000); [|lia].
    apply nearest_even_ge; [lia|]. change (2 ^ 53) with 9007199254740992. nia.
  - intros A HA.
    assert (nearest_even (nsec * (2 ^ 53 * P)) 1000000000 ≤ A * P); [|nia].
    apply nearest_even_le; [lia|]. nia.
Qed.

Lemma to_int_mk_neg_expo m e : e ≤ 0 → to_int (mk m e) = Z.quot m (2 ^ (- e)).
Proof.
  intros He. unfold to_int, num, den. simpl mant. simpl expo.
  rewrite (Z.max_l 0 e), (Z.max_r 0 (- e)) by lia. change (2 ^ 0) with 1.
  by rewrite Z.mul_1_r.
Qed.

Lemma num_den_mk_neg m e : e ≤ 0 → num (mk m e) = m ∧ den (mk m e) = 2 ^ (- e).
Proof.
  intros He. unfold num, den. simpl mant. simpl expo.
  rewrite (Z.max_l 0 e), (Z.max_r 0 (- e)) by lia. change (2 ^ 0) with 1. lia.
Qed.

(** a value below one truncates to zero *)
Lemma to_int_round_lt_one m D A :
  0 < m → 0 < D ≤ 2 ^ 82 → 0 ≤ A < 2 ^ 53 → m * 2 ^ 53 ≤ A * D →
  to_int (round m D) = 0.
Proof.
  intros Hm HD HA Hb.
  destruct (ilog2_spec m D) as [H1 H2]; [lia..|].
  set (K := ilog2 m D) in *.
  assert (K < 0) as HK0.
  { destruct (Z.le_gt_cases 0 K); [|done]. exfalso.
    apply (ge_pow2_antitone 0 K) in H1; [|lia..]. rewrite ge_pow2_nonneg in H1 by lia.
    change (2 ^ 53) with 9007199254740992 in *. nia. }
  assert (-82 ≤ K) as HK82.
  { destruct (Z.le_gt_cases (-82) K); [done|]. exfalso. apply H2.
    apply (ge_pow2_antitone _ (-82)); [lia..|]. rewrite ge_pow2_nonpos by lia.
    change (- -82) with 82. nia. }
  rewrite (round_small m D K) by (done || lia).
  rewrite to_int_mk_neg_expo by lia.
  replace (- (K - 52)) with (53 + (- 1 - K)) by lia.
  replace (52 - K) with (53 + (- 1 - K)) by lia.
  rewrite Z.pow_add_r by lia.
  assert (0 < 2 ^ (-1 - K)) as HP by (apply Z.pow_pos_nonneg; lia).
  set (P := 2 ^ (-1 - K)) in *.
  apply Z.quot_small. split.
  - apply nearest_even_ge; [lia|]. change (2 ^ 53) with 9007199254740992 in *. nia.
  - assert (nearest_even (m * (2 ^ 53 * P)) D ≤ A * P); [|nia].
    apply nearest_even_le; [lia|]. nia.
Qed.

(** a whole number of seconds plus a fraction below one *)
Lemma round_sum sec m D :
  1 ≤ sec < 2 ^ 53 → 0 ≤ m < D →
  ∃ m', round (sec * D + m) D = mk m' (Z.log2 sec - 52) ∧
    sec * 2 ^ (52 - Z.log2 sec) ≤ m' ≤ (sec + 1) * 2 ^ (52 - Z.log2 sec) ∧
    2 * m' * D ≤ 2 * (sec * D + m) * 2 ^ (52 - Z.log2 sec) + D.
Proof.
  intros Hs Hm.
  assert (0 < sec) as Hpos by lia.
  destruct (Z.log2_spec sec Hpos) as [Hl Hu].
  pose proof (Z.log2_nonneg sec).
  assert (Z.log2 sec < 53) by (apply Z.log2_lt_pow2; lia).
  set (ks := Z.log2 sec) in *.
  rewrite Z.pow_succ_r in Hu by lia.
  assert (0 < 2 ^ ks) by (apply Z.pow_pos_nonneg; lia).
  assert (0 < 2 ^ (52 - ks)) as HQ by (apply Z.pow_pos_nonneg; lia).
  exists (nearest_even ((sec * D + m) * 2 ^ (52 - ks)) D).
  split.
  - apply round_small; [nia|lia| | |lia].
    + rewrite ge_pow2_nonneg by lia. nia.
    + rewrite ge_pow2_nonneg by lia. rewrite Z.pow_add_r by lia. change (2 ^ 1) with 2. nia.
  - set (Q := 2 ^ (52 - ks)) in *. split; [split|].
    + apply nearest_even_ge; [lia|nia].
    + apply nearest_even_le; [lia|nia].
    + pose proof (nearest_even_half ((sec * D + m) * Q) D ltac:(lia)). lia.
Qed.

Lemma to_int_Seconds_nonneg d :
  0 ≤ d ≤ 2 ^ 63 →
  d / 1000000000 ≤ to_int (time.Seconds d) ≤ d / 1000000000 + 1
  ∧ (d / 1000000000 < 2 ^ 24 → to_int (time.Seconds d) = d / 1000000000)
  ∧ to_int (time.Seconds d) ≤ 9223372036.
Proof.
  intros Hd.
  assert (0 ≤ d / 1000000000 ≤ 9223372036) as Hsec.
  { split; [apply Z.div_pos; lia|].
    assert (d / 1000000000 < 9223372037); [|lia].
    apply Z.div_lt_upper_bound; [lia|].
    change (2 ^ 63) with 9223372036854775808 in Hd. lia. }
  assert (0 ≤ d mod 1000000000 < 1000000000) as Hns by (apply Z.mod_pos_bound; lia).
  assert (d = 1000000000 * (d / 1000000000) + d mod 1000000000) as Hdm by (apply Z.div_mod; lia).
  rewrite Seconds_nonneg by lia. cbv zeta.
  set (sec := d / 1000000000) in *. set (nsec := d mod 1000000000) in *.
  destruct (Z.eq_dec nsec 0) as [E0|Hne].
  { rewrite E0. change (round 0 1000000000) with (mk 0 0).
    change (den (mk 0 0)) with 1. change (num (mk 0 0)) with 0.
    replace (sec * 1 + 0) with sec by lia.
    assert (to_int (round sec 1) = sec) as ->; [|lia].
    pose proof (of_int_exact sec ltac:(lia)) as E. unfold of_int in E.
    unfold to_int. rewrite E. apply Z.quot_mul. pose proof (den_pos (round sec 1)). lia. }
  destruct (frac_shape nsec ltac:(lia)) as (m & e & Ex & He & Hm & HA).
  rewrite Ex. destruct (num_den_mk_neg m e ltac:(lia)) as [-> ->].
  assert (0 < 2 ^ (- e) ≤ 2 ^ 82) as HD.
  { split; [apply Z.pow_pos_nonneg; lia|apply Z.pow_le_mono_r; lia]. }
  set (D := 2 ^ (- e)) in *.
  pose proof (HA (2 ^ 53 - 2 ^ 23 - 1) ltac:(lia)) as Hx.
  destruct (Z.eq_dec sec 0) as [Es|Hs].
  { rewrite Es. rewrite Z.mul_0_l, Z.add_0_l.
    rewrite (to_int_round_lt_one m D (2 ^ 53 - 2 ^ 23 - 1)); lia. }
  destruct (round_sum sec m D) as (m' & Ey & [Hlo Hhi] & Hhalf); [lia| |].
  { change (2 ^ 53) with 9007199254740992 in *. change (2 ^ 23) with 8388608 in *. nia. }
  assert (0 < sec) as Hpos by lia.
  pose proof (Z.log2_nonneg sec).
  assert (Z.log2 sec < 34) by (apply Z.log2_lt_pow2; lia).
  rewrite Ey, to_int_mk_neg_expo by lia.
  replace (- (Z.log2 sec - 52)) with (52 - Z.log2 sec) by lia.
  assert (0 < 2 ^ (52 - Z.log2 sec)) as HQ by (apply Z.pow_pos_nonneg; lia).
  set (Q := 2 ^ (52 - Z.log2 sec)) in *.
  rewrite Z.quot_div_nonneg by nia.
  assert (sec ≤ m' / Q) by (apply Z.div_le_lower_bound; lia).
  assert (m' / Q ≤ sec + 1) by (apply Z.div_le_upper_bound; lia).
  split; [lia|]. split.
  - intros Hsmall.
    assert (Z.log2 sec < 24) by (apply Z.log2_lt_pow2; lia).
    assert (2 ^ 29 ≤ Q) by (apply Z.pow_le_mono_r; lia).
    assert (m' / Q < sec + 1); [|lia].
    apply Z.div_lt_upper_bound; [lia|].
    change (2 ^ 53) with 9007199254740992 in *. change (2 ^ 23) with 8388608 in *.
    change (2 ^ 29) with 536870912 in *. nia.
  - destruct (Z.eq_dec sec 9223372036) as [Emax|]; [|lia].
    assert (nsec ≤ 854775808) by (lia).
    pose proof (HA (7 * 2 ^ 50) ltac:(lia)) as Hx'.
    assert (Z.log2 sec = 33) as E33 by (rewrite Emax; done).
    assert (Q = 2 ^ 19) as EQ by (unfold Q; rewrite E33; done).
    assert (m' / Q < sec + 1); [|lia].
    apply Z.div_lt_upper_bound; [lia|].
    rewrite EQ in *.
    change (2 ^ 53) with 9007199254740992 in *. change (2 ^ 50) with 1125899906842624 in *.
    change (2 ^ 19) with 524288 in *. nia.
Qed.


Lemma Seconds_opp d : time.Seconds (- d) = neg (time.Seconds d).
Proof.
  unfold time.Seconds.
  rewrite Z.quot_opp_l, Z.rem_opp_l by done.
  by rewrite !of_int_opp, div_neg_l, add_neg.
Qed.

(** On these durations, small and large, positive and negative, with and
    without a fraction, [time.Seconds] is bit for bit what the machine
    computes. *)
Lemma Seconds_agrees_with_hardware :
  forallb (λ d, hardware.agree (time.Seconds d) (hardware.Seconds d))
    [ 0; 1; -1; 999999999; 1000000000; -999999999; 1500000000; 2999999999;
      3000000000; 3700000000; 90000000000; -2500000000;
      8388607999999999; 8388608999999999; 16777215999999999; 16777216999999999;
      16777216500000000; -16777216999999999; 4503599627999999999;
      9223372036000000000; 9223372036854775807; -9223372036854775808;
      1234567890123456789; -987654321987654321 ] = true.
Proof. by vm_compute. Qed.

(** [int(d.Seconds())] against the exact quotient *)
Lemma to_int_Seconds d :
  - 2 ^ 63 ≤ d ≤ 2 ^ 63 →
  Z.abs (to_int (time.Seconds d)) ≤ 9223372036
  ∧ (0 ≤ d → Z.quot d time.Second ≤ to_int (time.Seconds d) ≤ Z.quot d time.Second + 1)
  ∧ (d ≤ 0 → Z.quot d time.Second - 1 ≤ to_int (time.Seconds d) ≤ Z.quot d time.Second)
  ∧ (Z.abs (Z.quot d time.Second) < 2 ^ 24 →
       to_int (time.Seconds d) = Z.quot d time.Second).
Proof.
  intros Hd. change time.Second with 1000000000 in *.
  destruct (Z.le_gt_cases 0 d) as [Hpos|Hneg].
  - destruct (to_int_Seconds_nonneg d ltac:(lia)) as ([Hlo Hhi] & Hsmall & Hmax).
    rewrite Z.quot_div_nonneg by (lia).
    assert (0 ≤ d / 1000000000) by (apply Z.div_pos; lia).
    repeat split; try lia. intros ?. assert (d = 0) as -> by lia. done.
  - destruct (to_int_Seconds_nonneg (- d) ltac:(lia)) as ([Hlo Hhi] & Hsmall & Hmax).
    replace d with (- - d) by lia.
    rewrite Seconds_opp, to_int_neg, Z.quot_opp_l by done.
    rewrite Z.quot_div_nonneg by (lia).
    assert (0 ≤ - d / 1000000000) by (apply Z.div_pos; lia).
    repeat split; try lia.
Qed.

Lemma wrap_int64_small z : - 2 ^ 63 ≤ z < 2 ^ 63 → time.wrap_int64 z = z.
Proof.
  intros Hz. unfold time.wrap_int64. rewrite Z.mod_small; lia.
Qed.

Lemma wrap_int64_range z : - 2 ^ 63 ≤ time.wrap_int64 z < 2 ^ 63.
Proof.
  unfold time.wrap_int64.
  pose proof (Z.mod_pos_bound (z + 2 ^ 63) (2 ^ 64) ltac:(lia)). lia.
Qed.

Lemma ParseDuration_range s d :
  time.ParseDuration s = inl d → - 2 ^ 63 ≤ d < 2 ^ 63.
Proof.
  unfold time.ParseDuration.
  destruct (match s with "" => _ | String c rest => _ end) as [neg s0].
  repeat case_decide; try done.
  - intros [= <-]. lia.
  - destruct (time.parseLoop _ _ _ _) as [[d0|e]|]; try done.
    destruct neg.
    + intros [= <-]. apply wrap_int64_range.
    + destruct (2 ^ 63 - 1 <? d0); [done|]. intros [= <-]. apply wrap_int64_range.
Qed.


(** The model of [ParseDuration] on entries of the table that Go's own
    tests run, accepted and refused. *)
Lemma ParseDuration_examples :
  time.ParseDuration "0" = inl 0
  ∧ time.ParseDuration "5s" = inl (5 * time.Second)
  ∧ time.ParseDuration "-5s" = inl (- (5 * time.Second))
  ∧ time.ParseDuration "+5s" = inl (5 * time.Second)
  ∧ time.ParseDuration "5.6s" = inl (5 * time.Second + 600 * time.Millisecond)
  ∧ time.ParseDuration ".5s" = inl (500 * time.Millisecond)
  ∧ time.ParseDuration "100.00100s" = inl (100 * time.Second + time.Millisecond)
  ∧ time.ParseDuration "10.5s4m"
      = inl (4 * time.Minute + 10 * time.Second + 500 * time.Millisecond)
  ∧ time.ParseDuration "1h2m3s4ms5us6ns"
      = inl (time.Hour + 2 * time.Minute + 3 * time.Second
             + 4 * time.Millisecond + 5 * time.Microsecond + 6)
  ∧ time.ParseDuration "0.3333333333333333333h" = inl (20 * time.Minute)
  ∧ time.ParseDuration "0.830103483285477580700h"
      = inl (49 * time.Minute + 48 * time.Second + 372539827)
  ∧ time.ParseDuration "9223372036854775807ns" = inl (2 ^ 63 - 1)
  ∧ time.ParseDuration "-9223372036854775.808us" = inl (- 2 ^ 63)
  ∧ time.ParseDuration "" = inr (time.InvalidDuration "")
  ∧ time.ParseDuration "3" = inr (time.MissingUnit "3")
  ∧ time.ParseDuration ".s" = inr (time.InvalidDuration ".s")
  ∧ time.ParseDuration "1d" = inr (time.UnknownUnit "d" "1d")
  ∧ time.ParseDuration "9223372036854775808ns"
      = inr (time.InvalidDuration "9223372036854775808ns")
  ∧ time.ParseDuration "3000000h" = inr (time.InvalidDuration "3000000h").
Proof. by vm_compute. Qed.

Lemma parseHoldTime_parsed ht d :
  ht ≠ "" → time.ParseDuration ht = inl d →
  parseHoldTime ht =
    if bool_decide (roundedSeconds d ≠ 0 ∧ roundedSeconds d < 3)
    then inr (ErrHoldTimeRange ht)
    else inl (roundedSeconds d * time.Second).
Proof.
  intros Hne Hp. unfold parseHoldTime. rewrite decide_False by done. rewrite Hp.
  pose proof (ParseDuration_range _ _ Hp) as Hr.
  destruct (to_int_Seconds d ltac:(lia)) as (Habs & _).
  fold (roundedSeconds d) in *. set (r := roundedSeconds d) in *.
  change time.Second with 1000000000 in *.
  rewrite (wrap_int64_small r) by lia.
  rewrite (wrap_int64_small (r * 1000000000)) by lia.
  change (time.wrap_int64 (3 * 1000000000)) with 3000000000.
  case_bool_decide as Hc.
  - destruct Hc as [H0 H3].
    destruct (Z.eqb_spec (r * 1000000000) 0); [lia|].
    destruct (Z.ltb_spec (r * 1000000000) 3000000000); [done|lia].
  - destruct (Z.eqb_spec (r * 1000000000) 0); [done|].
    destruct (Z.ltb_spec (r * 1000000000) 3000000000); [|done].
    exfalso. apply Hc. lia.
Qed.

(** *** Every turn of the parsing loop consumes input *)

Lemma leadingInt_length s : ∀ x v s1,
  time.leadingInt s x = Some (v, s1) → (String.length s1 ≤ String.length s)%nat.
Proof.
  induction s as [|c s IH]; intros x v s1; simpl.
  - intros [= _ <-]. done.
  - destruct (time.isDigit c).
    + destruct (_ <? x); [done|]. destruct (_ <? _); [done|].
      intros Hl. apply IH in Hl. lia.
    + intros [= _ <-]. done.
Qed.

Lemma leadingFraction_length s : ∀ x sc o f sc' s2,
  time.leadingFraction s x sc o = (f, sc', s2) →
  (String.length s2 ≤ String.length s)%nat.
Proof.
  induction s as [|c s IH]; intros x sc o f sc' s2; simpl.
  - intros [= _ _ <-]. done.
  - destruct (time.isDigit c).
    + destruct o; [intros Hl; apply IH in Hl; lia|].
      destruct (_ <? x); [intros Hl; apply IH in Hl; lia|].
      destruct (_ <? _); intros Hl; apply IH in Hl; lia.
    + intros [= _ _ <-]. done.
Qed.

Lemma unitSplit_length s : ∀ u r,
  time.unitSplit s = (u, r) →
  String.length s = (String.length u + String.length r)%nat.
Proof.
  induction s as [|c s IH]; intros u r; simpl.
  - intros [= <- <-]. done.
  - destruct (_ || _).
    + intros [= <- <-]. done.
    + destruct (time.unitSplit s) as [u0 r0]. intros [= <- <-]. simpl.
      by rewrite (IH u0 r0).
Qed.

Lemma parseChunk_shrinks orig s d d' s' :
  time.parseChunk orig s d = inl (d', s') →
  (String.length s' < String.length s)%nat.
Proof.
  unfold time.parseChunk.
  destruct (negb _); [done|].
  destruct (time.leadingInt s 0) as [[v s1]|] eqn:E1; [|done].
  apply leadingInt_length in E1.
  assert (∀ f scale s2 post,
    match s1 with
    | "" => (0, of_int 1, s1, false)
    | String c rest =>
        if time.isDot c
        then let '(f, scale, s2) := time.leadingFraction rest 0 (of_int 1) false in
             (f, scale, s2, negb (String.length rest =? String.length s2)%nat)
        else (0, of_int 1, s1, false)
    end = (f, scale, s2, post) → (String.length s2 ≤ String.length s1)%nat) as Hs2.
  { intros f scale s2 post. destruct s1 as [|c rest].
    - intros [= _ _ <- _]. done.
    - destruct (time.isDot c).
      + destruct (time.leadingFraction rest 0 (of_int 1) false) as [[f0 sc0] s20] eqn:E2.
        apply leadingFraction_length in E2. intros [= _ _ <- _]. simpl. lia.
      + intros [= _ _ <- _]. done. }
  destruct (match s1 with "" => _ | String c rest => _ end) as [[[f scale] s2] post].
  pose proof (Hs2 _ _ _ _ eq_refl) as E2.
  destruct (_ && _); [done|].
  destruct (time.unitSplit s2) as [u s3] eqn:E3. apply unitSplit_length in E3.
  case_decide as Hu; [done|].
  destruct (time.unitMap u); [|done].
  destruct (_ <? v); [done|].
  destruct (if 0 <? f then _ else _); [|done].
  destruct (_ <? _); [done|].
  intros [= _ <-].
  destruct u; [done|]. simpl in E3. lia.
Qed.

Lemma parseLoop_fuel fuel : ∀ orig s d,
  (String.length s ≤ fuel)%nat → is_Some (time.parseLoop fuel orig s d).
Proof.
  induction fuel as [|fuel IH]; intros orig s d Hl.
  - destruct s; [by eexists|simpl in Hl; lia].
  - simpl. case_decide; [by eexists|].
    destruct (time.parseChunk orig s d) as [[d' s']|e] eqn:E; [|by eexists].
    apply parseChunk_shrinks in E. apply IH. lia.
Qed.


Lemma quot_second_sign d :
  (0 < Z.quot d time.Second → 0 < d) ∧ (Z.quot d time.Second < 0 → d < 0).
Proof.
  change time.Second with 1000000000 in *.
  pose proof (Z.quot_rem' d 1000000000) as E.
  destruct (Z.le_gt_cases 0 d) as [Hd|Hd].
  - pose proof (Z.rem_bound_pos d 1000000000 Hd ltac:(lia)).
    pose proof (Z.quot_pos d 1000000000 Hd ltac:(lia)).
    set (q := Z.quot d 1000000000) in *. set (r := Z.rem d 1000000000) in *.
    split; intros; lia.
  - pose proof (Z.rem_bound_pos_neg d 1000000000 ltac:(lia) ltac:(lia)).
    pose proof (Z.quot_opp_l d 1000000000 ltac:(lia)) as Ho.
    pose proof (Z.quot_pos (- d) 1000000000 ltac:(lia) ltac:(lia)) as Hp.
    rewrite Ho in Hp.
    set (q := Z.quot d 1000000000) in *. set (r := Z.rem d 1000000000) in *.
    split; intros; lia.
Qed.

(** C5, amended.  The empty string gives 90 seconds.  A non-empty string that
    does not parse fails with the hold-time error that wraps the parser's.
    One that parses to a duration of [q] whole seconds (the fraction
    discarded) gives zero when [q = 0], fails with the range error when
    [0 < q < 3], and gives [q] seconds when [3 <= q < 2 ^ 24]; from
    [2 ^ 24] seconds on the conversion through [float64] may round the
    duration up, and the result is [q] or [q + 1] seconds.  "5s" gives 5
    seconds and "2s" fails. *)
Theorem parseHoldTime_spec (ht : string) :
  ht ≠ "" →
  parseHoldTime "" = inl (90 * time.Second)
  ∧ match time.ParseDuration ht with
    | inr err => parseHoldTime ht = inr (ErrHoldTimeSyntax ht err)
    | inl d =>
        (Z.quot d time.Second = 0 → parseHoldTime ht = inl 0)
        ∧ (0 < Z.quot d time.Second < 3 → parseHoldTime ht = inr (ErrHoldTimeRange ht))
        ∧ (3 ≤ Z.quot d time.Second < 2 ^ 24 →
             parseHoldTime ht = inl (Z.quot d time.Second * time.Second))
        ∧ (2 ^ 24 ≤ Z.quot d time.Second →
             parseHoldTime ht = inl (Z.quot d time.Second * time.Second)
             ∨ parseHoldTime ht = inl ((Z.quot d time.Second + 1) * time.Second))
    end
  ∧ parseHoldTime "5s" = inl (5 * time.Second)
  ∧ parseHoldTime "2s" = inr (ErrHoldTimeRange "2s").
Proof.
  intros Hne. split; [by vm_compute|]. split; [|by vm_compute].
  destruct (time.ParseDuration ht) as [d|err] eqn:Hp.
  - rewrite (parseHoldTime_parsed ht d) by done.
    pose proof (ParseDuration_range _ _ Hp) as Hr.
    destruct (to_int_Seconds d ltac:(lia)) as (Habs & Hpos & Hneg & Hsmall).
    destruct (quot_second_sign d) as [Hsign _].
    fold (roundedSeconds d) in *.
    change (2 ^ 24) with 16777216 in *.
    set (r := roundedSeconds d) in *.
    set (q := Z.quot d time.Second) in *.
    clearbody r q. clear Hr Hp.
    repeat split.
    + intros Hq. rewrite Hsmall by lia. rewrite Hq.
      rewrite bool_decide_eq_false_2 by lia. done.
    + intros Hq. rewrite Hsmall by lia. rewrite bool_decide_eq_true_2 by lia. done.
    + intros Hq. rewrite Hsmall by lia. rewrite bool_decide_eq_false_2 by lia. done.
    + intros Hq.
      destruct (Hpos ltac:(lia)) as [Hlo Hhi].
      rewrite bool_decide_eq_false_2 by lia.
      destruct (Z.eq_dec r q) as [->|]; [by left|right].
      by replace r with (q + 1) by lia.
  - unfold parseHoldTime. rewrite decide_False by done. by rewrite Hp.
Qed.

(** X2.  A negative duration of a second or more is refused as well. *)
Lemma parseHoldTime_negative ht d :
  ht ≠ "" → time.ParseDuration ht = inl d → Z.quot d time.Second < 0 →
  parseHoldTime ht = inr (ErrHoldTimeRange ht).
Proof.
  intros Hne Hp Hq. rewrite (parseHoldTime_parsed ht d) by done.
  pose proof (ParseDuration_range _ _ Hp) as Hr.
  destruct (to_int_Seconds d ltac:(lia)) as (Habs & Hpos & Hneg & Hsmall).
  destruct (quot_second_sign d) as [_ Hsign].
  fold (roundedSeconds d) in *.
  set (r := roundedSeconds d) in *.
  set (q := Z.quot d time.Second) in *.
  clearbody r q. clear Hr Hp.
  rewrite bool_decide_eq_true_2; [done|]. lia.
Qed.

Lemma parseHoldTime_negative_witness :
  "-5s" ≠ ""
  ∧ time.ParseDuration "-5s" = inl (-5000000000)
  ∧ Z.quot (-5000000000) time.Second < 0
  ∧ parseHoldTime "-5s" = inr (ErrHoldTimeRange "-5s").
Proof.
  assert ("-5s" ≠ "") as H1 by done.
  assert (time.ParseDuration "-5s" = inl (-5000000000)) as H2 by (by vm_compute).
  assert (Z.quot (-5000000000) time.Second < 0) as H3 by (by vm_compute).
  repeat (split; [assumption|]).
  exact (parseHoldTime_negative "-5s" (-5000000000) H1 H2 H3).
Defined.

(** C5, as stated, fails at "16777216.999999999s": the duration parses, its
    whole seconds are 16777216, and the value returned is 16777217 seconds. *)
Lemma parseHoldTime_rounds_up :
  time.ParseDuration "16777216.999999999s" = inl 16777216999999999
  ∧ Z.quot 16777216999999999 time.Second = 16777216
  ∧ parseHoldTime "16777216.999999999s" = inl (16777217 * time.Second).
Proof. by vm_compute. Qed.

Lemma parseHoldTime_spec_witness :
  "3.7s" ≠ ""
  ∧ time.ParseDuration "3.7s" = inl 3700000000
  ∧ parseHoldTime "3.7s" = inl (Z.quot 3700000000 time.Second * time.Second).
Proof.
  split; [done|]. split; [by vm_compute|].
  pose proof (parseHoldTime_spec "3.7s" ltac:(done)) as (_ & H & _).
  change (time.ParseDuration "3.7s")
    with (@inl time.Duration time.ParseError 3700000000) in H.
  apply H. by vm_compute.
Defined.

(** *** [parseKeepaliveTime] *)

Lemma parseKeepaliveTime_parsed ka d :
  time.ParseDuration ka = inl d →
  parseKeepaliveTime ka = inl (roundedSeconds d * time.Second).
Proof.
  intros Hp. unfold parseKeepaliveTime. rewrite Hp.
  pose proof (ParseDuration_range _ _ Hp) as Hr.
  destruct (to_int_Seconds d ltac:(lia)) as (Habs & _).
  fold (roundedSeconds d) in *. set (r := roundedSeconds d) in *.
  change time.Second with 1000000000 in *.
  rewrite (wrap_int64_small r) by lia.
  by rewrite (wrap_int64_small (r * 1000000000)) by lia.
Qed.

(** X3.  [parseKeepaliveTime] refuses exactly the strings that [ParseDuration]
    refuses, the empty one among them, and hands the parser's error on.
    Every string that parses is accepted, whatever the duration: the result
    is a whole number [k] of seconds, the seconds of the duration with the
    fraction dropped while these are below [2 ^ 24] in magnitude, and at
    most one second further from zero beyond.  "10s" gives 10 seconds and
    "bogus" fails; "2s" and "-5s", which a hold time may not be, are
    accepted. *)
Theorem parseKeepaliveTime_spec (ka : string) :
  match time.ParseDuration ka with
  | inr err => parseKeepaliveTime ka = inr (ErrKeepaliveTimeSyntax ka err)
  | inl d =>
      ∃ k, parseKeepaliveTime ka = inl (k * time.Second)
           ∧ (Z.abs (Z.quot d time.Second) < 2 ^ 24 → k = Z.quot d time.Second)
           ∧ (0 ≤ d → Z.quot d time.Second ≤ k ≤ Z.quot d time.Second + 1)
           ∧ (d ≤ 0 → Z.quot d time.Second - 1 ≤ k ≤ Z.quot d time.Second)
  end
  ∧ parseKeepaliveTime "10s" = inl (10 * time.Second)
  ∧ parseKeepaliveTime "bogus" =
      inr (ErrKeepaliveTimeSyntax "bogus" (time.InvalidDuration "bogus"))
  ∧ parseKeepaliveTime "" = inr (ErrKeepaliveTimeSyntax "" (time.InvalidDuration ""))
  ∧ parseKeepaliveTime "2s" = inl (2 * time.Second)
  ∧ parseKeepaliveTime "-5s" = inl (- 5 * time.Second).
Proof.
  split; [|by vm_compute].
  destruct (time.ParseDuration ka) as [d|err] eqn:Hp.
  - exists (roundedSeconds d). split; [by apply parseKeepaliveTime_parsed|].
    pose proof (ParseDuration_range _ _ Hp) as Hr.
    destruct (to_int_Seconds d ltac:(lia)) as (_ & Hpos & Hneg & Hsmall).
    done.
  - unfold parseKeepaliveTime. by rewrite Hp.
Qed.

(** X4.  On a non-empty string the two parsers differ by the range check only:
    [parseHoldTime] gives a value exactly when [parseKeepaliveTime] gives
    it and it is zero or at least three seconds. *)
Theorem parseHoldTime_keepalive_agree (ht : string) (v : time.Duration) :
  ht ≠ "" →
  parseHoldTime ht = inl v ↔
  parseKeepaliveTime ht = inl v ∧ (v = 0 ∨ 3 * time.Second ≤ v).
Proof.
  intros Hne. destruct (time.ParseDuration ht) as [d|err] eqn:Hp.
  - rewrite (parseHoldTime_parsed ht d), (parseKeepaliveTime_parsed ht d) by done.
    change time.Second with 1000000000.
    set (r := roundedSeconds d). clearbody r.
    case_bool_decide as Hc; split.
    + intros [=].
    + intros [[= <-] Hv]. exfalso. lia.
    + intros [= <-]. split; [done|]. apply not_and_r in Hc. lia.
    + by intros [[= <-] _].
  - unfold parseHoldTime, parseKeepaliveTime. rewrite decide_False by done.
    rewrite Hp. split; [done|]. by intros [? _].
Qed.

(** What [parseHoldTime] returns when it returns a value *)
Lemma parseHoldTime_value ht v :
  parseHoldTime ht = inl v →
  (ht = "" → v = 90 * time.Second)
  ∧ ∃ h, v = h * time.Second ∧ (h = 0 ∨ 3 ≤ h) ∧ h ≤ 9223372036.
Proof.
  destruct (decide (ht = "")) as [->|Hne].
  - intros [= <-]. split; [done|]. exists 90. split; [by vm_compute|]. lia.
  - destruct (time.ParseDuration ht) as [d|err] eqn:Hp.
    + rewrite (parseHoldTime_parsed ht d) by done.
      pose proof (ParseDuration_range _ _ Hp) as Hr.
      destruct (to_int_Seconds d ltac:(lia)) as (Habs & _).
      fold (roundedSeconds d) in *. set (r := roundedSeconds d) in *. clearbody r.
      case_bool_decide as Hc; [done|]. intros [= <-]. split; [done|].
      exists r. split; [done|]. apply not_and_r in Hc. lia.
    + unfold parseHoldTime. rewrite decide_False by done. by rewrite Hp.
Qed.

Lemma parseKeepaliveTime_value ka v :
  parseKeepaliveTime ka = inl v → ∃ k, v = k * time.Second ∧ Z.abs k ≤ 9223372036.
Proof.
  destruct (time.ParseDuration ka) as [d|err] eqn:Hp.
  - rewrite (parseKeepaliveTime_parsed ka d) by done. intros [= <-].
    pose proof (ParseDuration_range _ _ Hp) as Hr.
    destruct (to_int_Seconds d ltac:(lia)) as (Habs & _).
    by exists (roundedSeconds d).
  - unfold parseKeepaliveTime. by rewrite Hp.
Qed.

End holdtime_facts.

(** ** Node selectors and peers *)

Module peer_facts.

Import v1beta1 conversion holdtime_facts translation_facts.

Lemma Sprintf_d_inj prefix : Inj (=) (=) (fmt.Sprintf_d prefix).
Proof.
  intros i j Hij. unfold fmt.Sprintf_d in Hij.
  by apply (inj (String.app prefix)), (inj pretty) in Hij.
Qed.

Lemma numbered_names_NoDup prefix (i : Z) (n : nat) :
  NoDup ((λ k : nat, fmt.Sprintf_d prefix (i + Z.of_nat k)) <$> seq 0 n).
Proof.
  apply NoDup_fmap_2; [|apply NoDup_seq].
  intros k1 k2 Hk. apply Sprintf_d_inj in Hk. lia.
Qed.

(** *** [parseNodeSelector] *)

(** The requirement that a clause becomes. *)
Lemma parseNodeSelector_eq sel :
  parseNodeSelector sel =
    {| metav1.MatchLabels := sel_MatchLabels sel;
       metav1.MatchExpressions :=
         (λ m, {| metav1.Key := req_Key m;
                  metav1.Operator := req_Operator m;
                  metav1.Values := req_Values m |}) <$> sel_MatchExpressions sel |}.
Proof.
  unfold parseNodeSelector.
  cut (∀ l acc,
    fold_left
      (λ res m,
         {| metav1.MatchLabels := metav1.MatchLabels res;
            metav1.MatchExpressions :=
              metav1.MatchExpressions res ++
              [ {| metav1.Key := req_Key m;
                   metav1.Operator := req_Operator m;
                   metav1.Values := copy_strings (req_Values m) |} ] |})
      l {| metav1.MatchLabels := sel_MatchLabels sel;
           metav1.MatchExpressions := acc |} =
    {| metav1.MatchLabels := sel_MatchLabels sel;
       metav1.MatchExpressions :=
         acc ++ ((λ m, {| metav1.Key := req_Key m;
                          metav1.Operator := req_Operator m;
                          metav1.Values := req_Values m |}) <$> l) |}).
  { intros Hcut. apply Hcut. }
  induction l as [|m l IH]; intros acc; simpl.
  - by rewrite app_nil_r.
  - rewrite IH. unfold copy_strings. by rewrite list_fmap_id, <- app_assoc.
Qed.

(** X5.  [parseNodeSelector] loses nothing: the label mapping is the one of the
    selector, the requirements are its clauses, one for one and in order,
    each with the key, the operator and the values of its clause, and two
    selectors that translate to the same label selector are the same. *)
Theorem parseNodeSelector_lossless (sel : nodeSelector) :
  metav1.MatchLabels (parseNodeSelector sel) = sel_MatchLabels sel
  ∧ length (metav1.MatchExpressions (parseNodeSelector sel)) =
      length (sel_MatchExpressions sel)
  ∧ (∀ i m, sel_MatchExpressions sel !! i = Some m →
       metav1.MatchExpressions (parseNodeSelector sel) !! i =
         Some {| metav1.Key := req_Key m;
                 metav1.Operator := req_Operator m;
                 metav1.Values := req_Values m |})
  ∧ (∀ sel', parseNodeSelector sel = parseNodeSelector sel' → sel = sel').
Proof.
  rewrite parseNodeSelector_eq. simpl. split; [done|].
  split; [by rewrite length_fmap|]. split.
  - intros i m Hi. by rewrite list_lookup_fmap, Hi.
  - intros sel'. rewrite parseNodeSelector_eq. intros [= Hl He].
    destruct sel as [ml1 me1], sel' as [ml2 me2]. simpl in *. f_equal; [done|].
    revert He. apply list_fmap_eq_inj.
    intros [k1 o1 v1] [k2 o2 v2] [= -> -> ->]. done.
Qed.

Section Peers.

Variable ns : string.

(** *** [parsePeer] *)

Lemma parsePeer_nodeSels (l : list nodeSelector) :
  fold_left (λ nodeSels sel, nodeSels ++ [parseNodeSelector sel]) l [] =
  parseNodeSelector <$> l.
Proof. by rewrite (fold_left_snoc parseNodeSelector l []). Qed.

(** X6.  A peer that [parsePeer] accepts has no name yet and the namespace of the
    translation; its hold time is a whole number of seconds, zero or at
    least three, and 90 seconds when the legacy peer gives none; its
    keepalive time is a whole number of seconds, zero when the legacy peer
    gives none; its node selectors are those of the legacy peer, translated
    one by one in order; every other field is the one of the legacy peer. *)
Theorem parsePeer_accepted (p : peer) (r : v1beta2.BGPPeer) :
  parsePeer ns p = inl r →
  peerName r = "" ∧ peerNamespace r = ns
  ∧ (∃ h, v1beta2.HoldTime (v1beta2.peer_Spec r) = h * time.Second
          ∧ (h = 0 ∨ 3 ≤ h))
  ∧ (peer_HoldTime p = "" →
       v1beta2.HoldTime (v1beta2.peer_Spec r) = 90 * time.Second)
  ∧ (∃ k, v1beta2.KeepaliveTime (v1beta2.peer_Spec r) = k * time.Second)
  ∧ (peer_KeepaliveTime p = "" →
       v1beta2.KeepaliveTime (v1beta2.peer_Spec r) = 0)
  ∧ v1beta2.NodeSelectors (v1beta2.peer_Spec r) =
      parseNodeSelector <$> peer_NodeSelectors p
  ∧ v1beta2.MyASN (v1beta2.peer_Spec r) = peer_MyASN p
  ∧ v1beta2.ASN (v1beta2.peer_Spec r) = peer_ASN p
  ∧ v1beta2.Address (v1beta2.peer_Spec r) = peer_Addr p
  ∧ v1beta2.SrcAddress (v1beta2.peer_Spec r) = peer_SrcAddr p
  ∧ v1beta2.Port (v1beta2.peer_Spec r) = peer_Port p
  ∧ v1beta2.RouterID (v1beta2.peer_Spec r) = peer_RouterID p
  ∧ v1beta2.Password (v1beta2.peer_Spec r) = peer_Password p
  ∧ v1beta2.BFDProfile (v1beta2.peer_Spec r) = peer_BFDProfile p
  ∧ v1beta2.EBGPMultiHop (v1beta2.peer_Spec r) = peer_EBGPMultiHop p.
Proof.
  unfold parsePeer. rewrite parsePeer_nodeSels.
  destruct (parseHoldTime (peer_HoldTime p)) as [h|err] eqn:Hh; [|done].
  destruct (parseHoldTime_value _ _ Hh) as (Hdef & h' & -> & Hrange & _).
  case_decide as Hka.
  - destruct (parseKeepaliveTime (peer_KeepaliveTime p)) as [k|err] eqn:Hk; [|done].
    destruct (parseKeepaliveTime_value _ _ Hk) as (k' & -> & _).
    intros [= <-]. unfold peerName, peerNamespace. simpl.
    split; [done|]. split; [done|]. split; [by exists h'|]. split; [done|].
    split; [by exists k'|]. split; [done|]. done.
  - intros [= <-]. unfold peerName, peerNamespace. simpl.
    split; [done|]. split; [done|]. split; [by exists h'|]. split; [done|].
    split; [by exists 0|]. split; [done|]. done.
Qed.

(** X7.  [parsePeer] fails in two cases only.  When the hold time is refused,
    the error is the one of [parseHoldTime], whatever the keepalive time is.
    When the hold time is accepted and the keepalive time is a non-empty
    string that does not parse, the error is the one of
    [parseKeepaliveTime].  In every other case the peer is accepted: the
    keepalive time is not compared with the hold time, nor with any bound. *)
Theorem parsePeer_refused (p : peer) :
  (∀ err, parseHoldTime (peer_HoldTime p) = inr err →
     parsePeer ns p = inr (HoldTimeError err))
  ∧ (∀ h err, parseHoldTime (peer_HoldTime p) = inl h →
       peer_KeepaliveTime p ≠ "" →
       time.ParseDuration (peer_KeepaliveTime p) = inr err →
       parsePeer ns p =
         inr (KeepaliveTimeError
                (ErrKeepaliveTimeSyntax (peer_KeepaliveTime p) err)))
  ∧ (∀ h, parseHoldTime (peer_HoldTime p) = inl h →
       peer_KeepaliveTime p = ""
       ∨ (∃ d, time.ParseDuration (peer_KeepaliveTime p) = inl d) →
       ∃ r, parsePeer ns p = inl r
            ∧ v1beta2.HoldTime (v1beta2.peer_Spec r) = h)
  ∧ ((∃ err, parsePeer ns p = inr err) ↔
     (∃ err, parseHoldTime (peer_HoldTime p) = inr err)
     ∨ (peer_KeepaliveTime p ≠ ""
        ∧ ∃ err, time.ParseDuration (peer_KeepaliveTime p) = inr err)).
Proof.
  unfold parsePeer, parseKeepaliveTime. repeat split.
  - by intros err ->.
  - intros h err -> Hka ->. by rewrite decide_True.
  - intros h -> [->|[d ->]]; [by eexists|].
    case_decide; by eexists.
  - intros [err Herr].
    destruct (parseHoldTime (peer_HoldTime p)) as [h|e]; [|by eauto].
    case_decide as Hka; [|done]. right. split; [done|].
    destruct (time.ParseDuration (peer_KeepaliveTime p)) as [d|e]; [done|by eauto].
  - intros [[err ->]|[Hka [err ->]]]; [by eauto|].
    destruct (parseHoldTime (peer_HoldTime p)) as [h|e]; [|by eauto].
    rewrite decide_True by done. by eauto.
Qed.

(** *** [peersFor] *)

Lemma peersLoop_accepted peers : ∀ i res out,
  peersLoop ns i peers res = inl out →
  ∃ tail,
    out = res ++ tail
    ∧ length tail = length peers
    ∧ ∀ k p, peers !! k = Some p →
        ∃ r b, parsePeer ns p = inl r ∧ tail !! k = Some b
               ∧ peerName b = fmt.Sprintf_d "peer" (i + 1 + Z.of_nat k)
               ∧ peerNamespace b = ns
               ∧ v1beta2.peer_Spec b = v1beta2.peer_Spec r.
Proof.
  induction peers as [|p peers IH]; intros i res out; simpl.
  - intros [= <-]. exists []. by rewrite app_nil_r.
  - destruct (parsePeer ns p) as [r|err] eqn:Hp; [|done].
    intros (tail & -> & Hlen & Htail)%IH.
    eexists (_ :: tail). split; [by rewrite <- app_assoc|].
    split; [by simpl; rewrite Hlen|].
    intros [|k] q Hq; simpl in *.
    + injection Hq as <-. exists r. eexists. split; [done|]. split; [done|].
      repeat split. unfold peerName. simpl. f_equal. lia.
    + destruct (Htail k q Hq) as (r' & b & ? & ? & Hn & ? & ?).
      exists r', b. repeat split; try done. rewrite Hn. f_equal. lia.
Qed.

Lemma peersLoop_total peers : ∀ i res,
  (∀ p, p ∈ peers → ∃ r, parsePeer ns p = inl r) →
  ∃ out, peersLoop ns i peers res = inl out.
Proof.
  induction peers as [|p peers IH]; intros i res Hall; simpl.
  - by eexists.
  - destruct (Hall p) as [r ->]; [by left|].
    apply IH. intros q Hq. apply Hall. by right.
Qed.

Lemma peersLoop_refused good : ∀ i res bad rest err,
  (∀ p, p ∈ good → ∃ r, parsePeer ns p = inl r) →
  parsePeer ns bad = inr err →
  peersLoop ns i (good ++ bad :: rest) res = inr err.
Proof.
  induction good as [|p good IH]; intros i res bad rest err Hall Hbad; simpl.
  - by rewrite Hbad.
  - destruct (Hall p) as [r ->]; [by left|].
    apply IH; [|done]. intros q Hq. apply Hall. by right.
Qed.

(** X8.  When [parsePeer] accepts every peer of the legacy document, [peersFor]
    returns one peer for each, in order: the one at position [k] (from
    zero) is named peer<k+1>, lies in the namespace of the translation and
    has the spec that [parsePeer] gives for the legacy peer at that
    position.  The names are pairwise distinct. *)
Theorem peersFor_accepted (peers : list peer) :
  (∀ p, p ∈ peers → ∃ r, parsePeer ns p = inl r) →
  ∃ res,
    peersFor ns peers = inl res
    ∧ length res = length peers
    ∧ (∀ k p, peers !! k = Some p →
         ∃ r b, parsePeer ns p = inl r ∧ res !! k = Some b
                ∧ peerName b = fmt.Sprintf_d "peer" (1 + Z.of_nat k)
                ∧ peerNamespace b = ns
                ∧ v1beta2.peer_Spec b = v1beta2.peer_Spec r)
    ∧ NoDup (peerName <$> res).
Proof.
  intros Hall. destruct (peersLoop_total peers 0 [] Hall) as [res Hres].
  exists res. split; [done|].
  destruct (peersLoop_accepted _ _ _ _ Hres) as (tail & -> & Hlen & Htail).
  simpl. split; [done|]. split; [done|].
  assert (peerName <$> tail =
          (λ k : nat, fmt.Sprintf_d "peer" (1 + Z.of_nat k)) <$> seq 0 (length tail))
    as ->; [|apply numbered_names_NoDup].
  apply list_eq. intros k. rewrite !list_lookup_fmap.
  destruct (decide (k < length tail)%nat) as [Hk|Hk].
  - rewrite lookup_seq_lt by done. simpl.
    destruct (lookup_lt_is_Some_2 peers k) as [p Hp]; [lia|].
    destruct (Htail k p Hp) as (r & b & _ & -> & Hn & _). simpl. by rewrite Hn.
  - rewrite lookup_seq_ge by lia. by rewrite lookup_ge_None_2 by lia.
Qed.

(** X9.  [peersFor] stops at the first peer that [parsePeer] refuses and returns
    its error, with no peer at all: the peers before it were accepted, and
    those after it are not looked at. *)
Theorem peersFor_first_error (good rest : list peer) (bad : peer) (err : peerError) :
  (∀ p, p ∈ good → ∃ r, parsePeer ns p = inl r) →
  parsePeer ns bad = inr err →
  peersFor ns (good ++ bad :: rest) = inr err.
Proof. intros Hall Hbad. by apply peersLoop_refused. Qed.

(** *** Peers added at the end of the document *)

Lemma peersLoop_app peers more : ∀ i res,
  peersLoop ns i (peers ++ more) res =
  match peersLoop ns i peers res with
  | inl out => peersLoop ns (i + Z.of_nat (length peers)) more out
  | inr err => inr err
  end.
Proof.
  induction peers as [|p peers IH]; intros i res; simpl.
  - by rewrite Z.add_0_r.
  - destruct (parsePeer ns p) as [r|err]; [|done].
    rewrite IH. destruct (peersLoop ns (i + 1) peers _); [|done].
    f_equal. lia.
Qed.

(** The loop run from two indices and two slices does the same, up to the
    names. *)
Lemma peersLoop_agree more : ∀ i j res out,
  match peersLoop ns i more res, peersLoop ns j more out with
  | inl r1, inl r2 =>
      ∃ t1 t2, r1 = res ++ t1 ∧ r2 = out ++ t2
               ∧ v1beta2.peer_Spec <$> t1 = v1beta2.peer_Spec <$> t2
  | inr e1, inr e2 => e1 = e2
  | _, _ => False
  end.
Proof.
  induction more as [|p more IH]; intros i j res out; simpl.
  - exists [], []. by rewrite !app_nil_r.
  - destruct (parsePeer ns p) as [r|err]; [|done].
    specialize (IH (i + 1) (j + 1)
      (res ++ [set_Namespace ns (set_Name (fmt.Sprintf_d "peer" (i + 1)) r)])
      (out ++ [set_Namespace ns (set_Name (fmt.Sprintf_d "peer" (j + 1)) r)])).
    destruct (peersLoop ns (i + 1) more _) as [r1|e1],
             (peersLoop ns (j + 1) more _) as [r2|e2]; try done.
    destruct IH as (t1 & t2 & -> & -> & Ht).
    eexists (_ :: t1), (_ :: t2). rewrite <- !app_assoc.
    split; [done|]. split; [done|]. rewrite !fmap_cons. by rewrite Ht.
Qed.

(** X28.  Peers added at the end of the document leave the translation of
    the peers before them as it is.  If [peersFor] fails on the document it
    fails with the same error on the longer one.  If it succeeds, the added
    peers are accepted or refused as they are on their own, with the same
    error; when they are accepted, the result for the longer document is the
    result for the document followed by the added peers with the specs they
    get on their own: only their names, numbered on from those of the
    document, differ. *)
Theorem peersFor_extended (peers more : list peer) :
  (∀ err, peersFor ns peers = inr err → peersFor ns (peers ++ more) = inr err)
  ∧ (∀ res err, peersFor ns peers = inl res → peersFor ns more = inr err →
       peersFor ns (peers ++ more) = inr err)
  ∧ (∀ res added, peersFor ns peers = inl res → peersFor ns more = inl added →
       ∃ tail,
         peersFor ns (peers ++ more) = inl (res ++ tail)
         ∧ v1beta2.peer_Spec <$> tail = v1beta2.peer_Spec <$> added
         ∧ peerName <$> tail =
             (λ k : nat, fmt.Sprintf_d "peer"
                           (1 + Z.of_nat (length peers) + Z.of_nat k))
               <$> seq 0 (length more)).
Proof.
  unfold peersFor. rewrite peersLoop_app. simpl. split; [|split].
  - by intros err ->.
  - intros res err -> Hmore.
    pose proof (peersLoop_agree more (Z.of_nat (length peers)) 0 res []) as Ha.
    rewrite Hmore in Ha. by destruct (peersLoop ns _ more res) as [?|?]; subst.
  - intros res added -> Hmore.
    pose proof (peersLoop_agree more (Z.of_nat (length peers)) 0 res []) as Ha.
    rewrite Hmore in Ha.
    destruct (peersLoop ns _ more res) as [out|?] eqn:Hout; [|done].
    destruct Ha as (t1 & t2 & -> & -> & Ht). exists t1. split; [done|].
    split; [done|].
    destruct (peersLoop_accepted _ _ _ _ Hout) as (tail & Htail & Hlen & Hnames).
    apply app_inv_head in Htail as <-.
    apply list_eq. intros k. rewrite !list_lookup_fmap.
    destruct (decide (k < length more)%nat) as [Hk|Hk].
    + rewrite lookup_seq_lt by done. simpl.
      destruct (lookup_lt_is_Some_2 more k) as [p Hp]; [lia|].
      destruct (Hnames k p Hp) as (r & b & _ & -> & Hn & _). simpl. rewrite Hn.
      do 2 f_equal. lia.
    + rewrite lookup_seq_ge by lia. by rewrite lookup_ge_None_2 by lia.
Qed.

End Peers.

End peer_facts.

(** ** Profiles, pools and the objects that refer to them *)

Module resource_facts.

Import v1beta1 conversion sort_facts translation_facts peer_facts.

(** A loop that writes slot [i] of a slice made for the purpose, for [i]
    running over the indices of [l], fills it with one entry per element. *)
Lemma index_fill {A B} (g : nat → A → B) (z : B)
    (step : list B * nat → A → list B * nat) :
  (∀ st x, step st x = (<[st.2 := g st.2 x]> st.1, S st.2)) →
  ∀ (l : list A) (pre : list B),
    fold_left step l (pre ++ replicate (length l) z, length pre) =
    (pre ++ imap (λ k, g (length pre + k)%nat) l, (length pre + length l)%nat).
Proof.
  intros Hstep. induction l as [|x l IH]; intros pre; simpl.
  - rewrite Nat.add_0_r. done.
  - rewrite Hstep. simpl.
    rewrite insert_app_r_alt by done. rewrite Nat.sub_diag. simpl.
    replace (pre ++ g (length pre) x :: replicate (length l) z)
      with ((pre ++ [g (length pre) x]) ++ replicate (length l) z)
      by (by rewrite <- app_assoc).
    replace (S (length pre)) with (length (pre ++ [g (length pre) x]))
      by (rewrite length_app; simpl; lia).
    rewrite IH. rewrite length_app. simpl. rewrite <- app_assoc. simpl.
    rewrite Nat.add_0_r. f_equal; [|lia]. do 2 f_equal.
    apply imap_ext. intros k y _. simpl. f_equal. lia.
Qed.

Lemma elem_of_numberFrom {A} (i : Z) (l : list (Z → A)) (x : A) :
  x ∈ numberFrom i l → ∃ mk j, mk ∈ l ∧ x = mk j.
Proof.
  unfold numberFrom. intros (k & mk & -> & Hk)%elem_of_lookup_imap_1.
  exists mk, (i + Z.of_nat k). split; [|done]. by eapply list_elem_of_lookup_2.
Qed.

Lemma numberFrom_elem_of {A} (i : Z) (l : list (Z → A)) (mk : Z → A) :
  mk ∈ l → ∃ j, mk j ∈ numberFrom i l.
Proof.
  intros (k & Hk)%list_elem_of_lookup_1. exists (i + Z.of_nat k).
  unfold numberFrom. by apply (elem_of_lookup_imap_2 (λ k mk, mk (i + Z.of_nat k))).
Qed.

Section Resources.

Variable ns : string.

(** *** [bfdProfileFor] *)

Lemma bfdProfileFor_eq profiles :
  bfdProfileFor ns profiles = imap (bfdProfileAt ns) profiles.
Proof.
  unfold bfdProfileFor.
  pose proof (index_fill (bfdProfileAt ns) zeroBFDProfile (bfdProfileStep ns)
                ltac:(done) profiles []) as Hfill.
  simpl in Hfill. by rewrite Hfill.
Qed.

(** X10.  [bfdProfileFor] returns one profile for each profile of the legacy
    slice, in order.  The one at index [i] has the name and the five numbers
    of the legacy profile at [i] and the namespace of the translation; its
    two modes are the addresses of the two flags of element [i] of the
    legacy slice, so that reading them there gives the flags of that
    profile.  No two profiles returned hold the same address. *)
Theorem bfdProfileFor_spec (profiles : list bfdProfile) :
  length (bfdProfileFor ns profiles) = length profiles
  ∧ (∀ i bfd, profiles !! i = Some bfd →
       ∃ b echo passive,
         bfdProfileFor ns profiles !! i = Some b
         ∧ Name (bfd_ObjectMeta b) = bfd_Name bfd
         ∧ Namespace (bfd_ObjectMeta b) = ns
         ∧ ReceiveInterval (bfd_Spec b) = bfd_ReceiveInterval bfd
         ∧ TransmitInterval (bfd_Spec b) = bfd_TransmitInterval bfd
         ∧ DetectMultiplier (bfd_Spec b) = bfd_DetectMultiplier bfd
         ∧ EchoInterval (bfd_Spec b) = bfd_EchoInterval bfd
         ∧ MinimumTTL (bfd_Spec b) = bfd_MinimumTTL bfd
         ∧ EchoMode (bfd_Spec b) = Some echo
         ∧ readFlag profiles echo = Some (bfd_EchoMode bfd)
         ∧ PassiveMode (bfd_Spec b) = Some passive
         ∧ readFlag profiles passive = Some (bfd_PassiveMode bfd))
  ∧ (∀ i j bi bj,
       bfdProfileFor ns profiles !! i = Some bi →
       bfdProfileFor ns profiles !! j = Some bj → i ≠ j →
       EchoMode (bfd_Spec bi) ≠ EchoMode (bfd_Spec bj)
       ∧ PassiveMode (bfd_Spec bi) ≠ PassiveMode (bfd_Spec bj)
       ∧ EchoMode (bfd_Spec bi) ≠ PassiveMode (bfd_Spec bj)).
Proof.
  rewrite bfdProfileFor_eq. split; [by rewrite length_imap|]. split.
  - intros i bfd Hi.
    exists (bfdProfileAt ns i bfd),
      {| ptr_elem := i; ptr_field := EchoModeField |},
      {| ptr_elem := i; ptr_field := PassiveModeField |}.
    rewrite list_lookup_imap, Hi. unfold readFlag. simpl. rewrite Hi.
    repeat (split; [done|]). done.
  - intros i j bi bj. rewrite !list_lookup_imap.
    destruct (profiles !! i) as [pi|]; [|done].
    destruct (profiles !! j) as [pj|]; [|done]. simpl.
    intros [= <-] [= <-] Hij. simpl. repeat split; congruence.
Qed.

(** *** [ipAddressPoolsFor] *)

Lemma ipAddressPoolsFor_eq c :
  ipAddressPoolsFor ns c = ipAddressPoolOf ns <$> Pools c.
Proof.
  unfold ipAddressPoolsFor.
  pose proof (index_fill (λ _, ipAddressPoolOf ns) zeroIPAddressPool
                (ipAddressPoolStep ns) ltac:(done) (Pools c) []) as Hfill.
  simpl in Hfill. rewrite Hfill. simpl. apply imap_const.
Qed.

(** X11.  [ipAddressPoolsFor] returns one pool for each pool of the legacy
    document, in order: the one at index [i] has the name, the addresses and
    the auto-assign flag of the legacy pool at [i] and the namespace of the
    translation, and it avoids buggy addresses exactly when the legacy pool
    says so: an unset flag counts as false. *)
Theorem ipAddressPoolsFor_spec (c : configFile) :
  length (ipAddressPoolsFor ns c) = length (Pools c)
  ∧ ipPoolName <$> ipAddressPoolsFor ns c = pool_Name <$> Pools c
  ∧ (∀ i addresspool, Pools c !! i = Some addresspool →
       ∃ ap,
         ipAddressPoolsFor ns c !! i = Some ap
         ∧ ipPoolName ap = pool_Name addresspool
         ∧ Namespace (ippool_ObjectMeta ap) = ns
         ∧ ippool_Addresses (ippool_Spec ap) = Addresses addresspool
         ∧ ippool_AutoAssign (ippool_Spec ap) = AutoAssign addresspool
         ∧ ippool_AvoidBuggyIPs (ippool_Spec ap) =
             default false (AvoidBuggyIPs addresspool)).
Proof.
  rewrite ipAddressPoolsFor_eq. split; [by rewrite length_fmap|]. split.
  - by rewrite <- list_fmap_compose.
  - intros i addresspool Hi. eexists. rewrite list_lookup_fmap, Hi. simpl.
    split; [done|]. unfold ipPoolName, ipAddressPoolOf, copy_strings.
    rewrite list_fmap_id. simpl. repeat (split; [done|]).
    by destruct (AvoidBuggyIPs addresspool).
Qed.

(** *** The advertisements against the pools *)

Lemma poolAdvs_pool ap mk j :
  mk ∈ poolAdvs ns ap →
  IPAddressPools (bgpadv_Spec (mk j)) = [pool_Name ap]
  ∧ Namespace (bgpadv_ObjectMeta (mk j)) = ns.
Proof.
  unfold poolAdvs. destruct (BGPAdvertisements ap) as [|a advs].
  - case_bool_decide; [|by intros ?%elem_of_nil].
    by intros ->%list_elem_of_singleton.
  - intros (x & -> & _)%list_elem_of_fmap. done.
Qed.

Lemma ipAddressPoolsFor_elem c ap :
  ap ∈ Pools c →
  ∃ p, p ∈ ipAddressPoolsFor ns c ∧ ipPoolName p = pool_Name ap
       ∧ Namespace (ippool_ObjectMeta p) = ns.
Proof.
  intros Hap. exists (ipAddressPoolOf ns ap). rewrite ipAddressPoolsFor_eq.
  split; [by apply list_elem_of_fmap_2|done].
Qed.

(** X12.  Every advertisement of the translation names exactly one pool, and that
    pool is among those that [ipAddressPoolsFor] gives for the same
    document, in the same namespace.  For an L2 advertisement the pool is
    one tagged layer2. *)
Theorem advertisements_name_translated_pools (c : configFile) :
  (∀ b, b ∈ bgpAdvertisementsFor ns c →
     ∃ ap p, ap ∈ Pools c
             ∧ IPAddressPools (bgpadv_Spec b) = [pool_Name ap]
             ∧ p ∈ ipAddressPoolsFor ns c
             ∧ ipPoolName p = pool_Name ap
             ∧ Namespace (ippool_ObjectMeta p) = Namespace (bgpadv_ObjectMeta b))
  ∧ (∀ l, l ∈ l2AdvertisementsFor ns c →
       ∃ ap p, ap ∈ Pools c ∧ Protocol ap = Layer2
               ∧ l2_IPAddressPools (l2adv_Spec l) = [pool_Name ap]
               ∧ p ∈ ipAddressPoolsFor ns c
               ∧ ipPoolName p = pool_Name ap
               ∧ Namespace (ippool_ObjectMeta p) = Namespace (l2adv_ObjectMeta l)).
Proof.
  split.
  - intros b. rewrite bgpAdvertisementsFor_numbered.
    intros (mk & j & Hmk & ->)%elem_of_numberFrom.
    apply list_elem_of_In, in_flat_map in Hmk as (ap & Hap%list_elem_of_In & Hmk%list_elem_of_In).
    destruct (poolAdvs_pool ap mk j Hmk) as [Hpool Hns].
    destruct (ipAddressPoolsFor_elem c ap Hap) as (p & Hp & Hname & Hpns).
    exists ap, p. by rewrite Hns.
  - intros l. rewrite l2AdvertisementsFor_numbered.
    intros (mk & j & Hmk & ->)%elem_of_numberFrom.
    apply list_elem_of_fmap in Hmk as (ap & -> & [Hproto Hap]%list_elem_of_filter).
    destruct (ipAddressPoolsFor_elem c ap Hap) as (p & Hp & Hname & Hpns).
    by exists ap, p.
Qed.

(** X13.  No pool tagged bgp or layer2 is left without an advertisement: a pool
    tagged bgp is named by at least one BGP advertisement, and a pool tagged
    layer2 by an L2 advertisement. *)
Theorem tagged_pools_are_advertised (c : configFile) :
  (∀ ap, ap ∈ Pools c → Protocol ap = BGP →
     ∃ b, b ∈ bgpAdvertisementsFor ns c
          ∧ IPAddressPools (bgpadv_Spec b) = [pool_Name ap])
  ∧ (∀ ap, ap ∈ Pools c → Protocol ap = Layer2 →
       ∃ l, l ∈ l2AdvertisementsFor ns c
            ∧ l2_IPAddressPools (l2adv_Spec l) = [pool_Name ap]).
Proof.
  split.
  - intros ap Hap Hproto. rewrite bgpAdvertisementsFor_numbered.
    assert (∃ mk, mk ∈ poolAdvs ns ap) as [mk Hmk].
    { unfold poolAdvs. destruct (BGPAdvertisements ap) as [|a advs].
      - rewrite bool_decide_eq_true_2 by done. eexists. by left.
      - eexists. by left. }
    assert (mk ∈ flat_map (poolAdvs ns) (Pools c)) as Hin.
    { apply list_elem_of_In, in_flat_map. exists ap.
      by split; apply list_elem_of_In. }
    destruct (numberFrom_elem_of 1 _ mk Hin) as [j Hj].
    exists (mk j). split; [done|]. by apply (poolAdvs_pool ap).
  - intros ap Hap Hproto. rewrite l2AdvertisementsFor_numbered.
    assert (layer2Adv ns ap ∈
            layer2Adv ns <$> filter (λ ap, Protocol ap = Layer2) (Pools c)) as Hin.
    { apply list_elem_of_fmap_2, list_elem_of_filter. done. }
    destruct (numberFrom_elem_of 1 _ _ Hin) as [j Hj].
    by exists (layer2Adv ns ap j).
Qed.

(** X14.  A pool whose tag is neither bgp nor layer2 and that lists no
    advertisement spec is translated to a pool, but nothing advertises it:
    the advertisements, and their numbers, are those of the document without
    that pool. *)
Theorem untagged_pool_is_not_advertised (communities : gmap string string)
    (before after : list addressPool) (ap : addressPool) :
  BGPAdvertisements ap = [] → Protocol ap ≠ BGP → Protocol ap ≠ Layer2 →
  let c := {| BGPCommunities := communities; Pools := before ++ ap :: after |} in
  let c' := {| BGPCommunities := communities; Pools := before ++ after |} in
  bgpAdvertisementsFor ns c = bgpAdvertisementsFor ns c'
  ∧ l2AdvertisementsFor ns c = l2AdvertisementsFor ns c'
  ∧ ipAddressPoolsFor ns c !! length before = Some (ipAddressPoolOf ns ap)
  ∧ ipPoolName (ipAddressPoolOf ns ap) = pool_Name ap.
Proof.
  intros Hadvs Hbgp Hl2 c c'.
  rewrite !bgpAdvertisementsFor_numbered, !l2AdvertisementsFor_numbered.
  rewrite ipAddressPoolsFor_eq. subst c c'. simpl.
  rewrite !flat_map_app, !filter_app, filter_cons. simpl.
  rewrite decide_False by done.
  unfold poolAdvs at 2. rewrite Hadvs. rewrite bool_decide_eq_false_2 by done.
  simpl. repeat split.
  rewrite list_lookup_fmap. by rewrite list_lookup_middle.
Qed.

(** X15.  The names that one translation gives are pairwise distinct among the
    BGP advertisements, and among the L2 advertisements. *)
Theorem advertisement_names_distinct (c : configFile) :
  NoDup (bgpAdvName <$> bgpAdvertisementsFor ns c)
  ∧ NoDup (l2AdvName <$> l2AdvertisementsFor ns c).
Proof.
  split.
  - rewrite bgpAdvertisementsFor_numbered.
    rewrite (numberFrom_names bgpAdvName "bgpadvertisement").
    + apply numbered_names_NoDup.
    + intros mk j Hmk.
      apply list_elem_of_In, in_flat_map in Hmk as (ap' & _ & Hmk).
      eapply poolAdvs_names. by apply list_elem_of_In.
  - rewrite l2AdvertisementsFor_numbered.
    rewrite (numberFrom_names l2AdvName "l2advertisement").
    + apply numbered_names_NoDup.
    + intros mk j (ap & -> & _)%list_elem_of_fmap. done.
Qed.

(** *** The communities read back *)

(** X16.  The aliases of the community resource, read back as a mapping, are the
    alias mapping of the legacy document: every alias of the document is
    there with its value, under a name that occurs once, and nothing else
    is. *)
Theorem communitiesFor_round_trip (cf : configFile) (order : list string) :
  order ≡ₚ keysOf cf →
  let aliases :=
    mjoin ((Communities ∘ community_Spec) <$> communitiesFor ns order cf) in
  aliasMap aliases = BGPCommunities cf
  ∧ NoDup (alias_Name <$> aliases)
  ∧ (∀ name value,
       BGPCommunities cf !! name = Some value ↔
       {| alias_Name := name; alias_Value := value |} ∈ aliases).
Proof.
  intros Hord aliases.
  set (entries := (λ k, (k, default "" (BGPCommunities cf !! k))) <$> sort.Strings order).
  assert (entries ≡ₚ map_to_list (BGPCommunities cf)) as Hperm.
  { unfold entries. rewrite Strings_perm, Hord. unfold keysOf.
    by rewrite entries_of_keys. }
  assert (NoDup entries.*1) as Hnd.
  { rewrite Hperm. apply NoDup_fst_map_to_list. }
  assert (aliasMap (aliasOf <$> entries) = BGPCommunities cf) as Hmap.
  { unfold aliasMap. rewrite <- list_fmap_compose.
    rewrite (list_fmap_ext _ id entries), list_fmap_id.
    - symmetry. apply list_to_map_flip. by symmetry.
    - by intros i [k v]. }
  assert (alias_Name <$> (aliasOf <$> entries) = entries.*1) as Hnames.
  { rewrite <- list_fmap_compose. by apply list_fmap_ext. }
  destruct (decide (BGPCommunities cf = ∅)) as [Hem|Hne].
  - assert (entries = []) as Hnil.
    { apply Permutation_nil_r. rewrite Hperm, Hem. by rewrite map_to_list_empty. }
    assert (aliases = []) as ->.
    { subst aliases. rewrite communitiesFor_eq.
      rewrite bool_decide_eq_true_2; [done|]. rewrite Hem. apply map_size_empty. }
    rewrite Hem. split; [done|]. split; [constructor|].
    intros name value. rewrite lookup_empty. split; [done|]. by intros ?%elem_of_nil.
  - assert (aliases = aliasOf <$> entries) as ->.
    { subst aliases. rewrite communitiesFor_eq.
      rewrite bool_decide_eq_false_2; [|by rewrite map_size_empty_iff].
      simpl. by rewrite app_nil_r. }
    split; [done|]. split; [by rewrite Hnames|].
    intros name value. rewrite <- elem_of_map_to_list, <- Hperm.
    rewrite list_elem_of_fmap. split.
    + intros Hin. by exists (name, value).
    + intros ([k v] & [= -> ->] & Hin). done.
Qed.

(** *** Pools added at the end of the document *)

Lemma length_numberFrom {A} (i : Z) (l : list (Z → A)) :
  length (numberFrom i l) = length l.
Proof. unfold numberFrom. apply length_imap. Qed.

(** X27.  Pools added at the end of the document, whatever the alias mappings
    are, leave the translation of the pools before them as it is: the pools
    and the advertisements of the document, names included, are the head of
    those of the longer document, and what follows them is what the added
    pools give, numbered on from the advertisements of the document. *)
Theorem pools_extended (communities communities' : gmap string string)
    (pools more : list addressPool) :
  let c := {| BGPCommunities := communities; Pools := pools |} in
  let c' := {| BGPCommunities := communities'; Pools := pools ++ more |} in
  ipAddressPoolsFor ns c' =
    ipAddressPoolsFor ns c
    ++ ipAddressPoolsFor ns {| BGPCommunities := communities'; Pools := more |}
  ∧ bgpAdvertisementsFor ns c' =
      bgpAdvertisementsFor ns c
      ++ numberFrom (1 + Z.of_nat (length (bgpAdvertisementsFor ns c)))
           (flat_map (poolAdvs ns) more)
  ∧ l2AdvertisementsFor ns c' =
      l2AdvertisementsFor ns c
      ++ numberFrom (1 + Z.of_nat (length (l2AdvertisementsFor ns c)))
           (layer2Adv ns <$> filter (λ ap, Protocol ap = Layer2) more).
Proof.
  intros c c'. subst c c'.
  rewrite !ipAddressPoolsFor_eq, !bgpAdvertisementsFor_numbered,
    !l2AdvertisementsFor_numbered. simpl.
  rewrite fmap_app, flat_map_app, filter_app, fmap_app, !numberFrom_app.
  by rewrite !length_numberFrom.
Qed.

End Resources.

End resource_facts.

(** ** Aggregation: [addResources] *)

Module aggregation_facts.

Import conversion.

Section AggregationFacts.
Context `{api.Types}.


Lemma forEach_mapAssign entries fm a st :
  maps st !! fm = Some a →
  forEach entries (λ kv, mapAssign fm kv.1 kv.2) st =
  Some (tt, {| objects := objects st;
               maps := <[fm := foldl insertEntry a entries]> (maps st) |}).
Proof.
  revert a st. induction entries as [|[k v] entries IH]; intros a st Ha; simpl.
  - unfold ret. rewrite insert_id by done. by destruct st.
  - unfold bind, mapAssign at 1. rewrite Ha. simpl.
    rewrite (IH (<[k:=v]> a)); simpl; [|by rewrite lookup_insert_eq].
    by rewrite insert_insert_eq.
Qed.

Lemma foldl_insertEntry entries (a : gmap string api.Secret) :
  NoDup entries.*1 →
  foldl insertEntry a entries = list_to_map entries ∪ a.
Proof.
  revert a. induction entries as [|[k v] entries IH]; intros a Hnd; simpl.
  - by rewrite (left_id_L ∅ (∪)).
  - apply NoDup_cons in Hnd as [Hk Hnd]. rewrite IH by done.
    unfold insertEntry. simpl.
    rewrite <- insert_union_r by (by apply not_elem_of_list_to_map_1).
    by rewrite insert_union_l.
Qed.

Lemma mergeEntries (a b : gmap string api.Secret) :
  foldl insertEntry a (map_to_list b) = b ∪ a.
Proof.
  rewrite foldl_insertEntry by apply NoDup_fst_map_to_list.
  by rewrite list_to_map_to_list.
Qed.

Lemma mergeEntries_order (a b : gmap string api.Secret) entries :
  entries ≡ₚ map_to_list b → foldl insertEntry a entries = b ∪ a.
Proof.
  intros Hp. rewrite foldl_insertEntry.
  - f_equal. symmetry. apply list_to_map_flip. by symmetry.
  - rewrite Hp. apply NoDup_fst_map_to_list.
Qed.

Lemma mergeSecrets_run l1 l2 f s st :
  objects st !! l1 = Some f → objects st !! l2 = Some s →
  secretsAllocated st f → secretsAllocated st s →
  mergeSecrets (Some l1) (Some l2) st =
  Some (tt, {| objects := objects st; maps := mergedMaps f s (maps st) |}).
Proof.
  intros H1 H2 Hf Hs. unfold mergeSecrets, bind, load. rewrite H1, H2.
  unfold mergedMaps, secretsAllocated in *.
  destruct (config.PasswordSecrets f) as [fm|]; [|by destruct st].
  destruct (config.PasswordSecrets s) as [sm|]; [|by destruct st].
  destruct (Hf fm eq_refl) as [a Ha]. destruct (Hs sm eq_refl) as [b Hb].
  unfold loadMap. rewrite Ha, Hb.
  rewrite (forEach_mapAssign _ _ a) by done. by rewrite mergeEntries.
Qed.

Lemma appendField_run {A} (get : config.ClusterResources → list A) set l1 l2 f s st :
  objects st !! l1 = Some f → objects st !! l2 = Some s →
  appendField get set (Some l1) (Some l2) st =
  Some (tt, {| objects := <[l1 := set (get f ++ get s) f]> (objects st);
               maps := maps st |}).
Proof. intros H1 H2. unfold appendField, bind, load, assign. by rewrite H1, H2. Qed.

Lemma addResources_run l1 l2 f s st :
  objects st !! l1 = Some f → objects st !! l2 = Some s →
  secretsAllocated st f → secretsAllocated st s →
  addResources (Some l1) (Some l2) st =
  Some (merged f s,
        {| objects := <[l1 := merged f s]> (objects st);
           maps := mergedMaps f s (maps st) |}).
Proof.
  intros H1 H2 Hf Hs.
  unfold addResources, bind at 1, ret.
  destruct (decide (l1 = l2)) as [->|Hne].
  - assert (s = f) as -> by congruence.
    do 7 (unfold bind at 1; erewrite appendField_run;
          [|simpl; rewrite ?lookup_insert_eq; (reflexivity || eassumption)..];
          simpl; rewrite ?insert_insert_eq).
    unfold bind at 1.
    erewrite (mergeSecrets_run l2 l2); simpl;
      [|by rewrite lookup_insert_eq..|done|done].
    do 2 (unfold bind at 1; erewrite appendField_run;
          [|simpl; rewrite ?lookup_insert_eq; (reflexivity || eassumption)..];
          simpl; rewrite ?insert_insert_eq).
    unfold load. simpl. by rewrite lookup_insert_eq.
  - do 7 (unfold bind at 1; erewrite appendField_run;
          [|simpl; rewrite ?lookup_insert_eq; rewrite ?lookup_insert_ne by done;
            (reflexivity || eassumption)..];
          simpl; rewrite ?insert_insert_eq).
    unfold bind at 1.
    erewrite (mergeSecrets_run l1 l2); simpl;
      [|by rewrite lookup_insert_eq|by rewrite lookup_insert_ne|done|done].
    do 2 (unfold bind at 1; erewrite appendField_run;
          [|simpl; rewrite ?lookup_insert_eq; rewrite ?lookup_insert_ne by done;
            (reflexivity || eassumption)..];
          simpl; rewrite ?insert_insert_eq).
    unfold load. simpl. by rewrite lookup_insert_eq.
Qed.

Lemma target_fresh st : objects st !! target st None = None.
Proof. apply not_elem_of_dom, is_fresh. Qed.

Lemma addResources_run_ptr first l2 f s st :
  valueAt st first = Some f → objects st !! l2 = Some s →
  secretsAllocated st f → secretsAllocated st s →
  addResources first (Some l2) st =
  Some (merged f s,
        {| objects := <[target st first := merged f s]> (objects st);
           maps := mergedMaps f s (maps st) |}).
Proof.
  intros H1 H2 Hf Hs. destruct first as [l1|]; simpl in *.
  - by apply addResources_run.
  - assert (f = config.zeroClusterResources) as -> by congruence.
    set (l := fresh (dom (objects st))).
    assert (objects st !! l = None) as Hl by apply target_fresh.
    assert (l ≠ l2) as Hne by congruence.
    transitivity (addResources (Some l) (Some l2)
      {| objects := <[l := config.zeroClusterResources]> (objects st);
         maps := maps st |}); [done|].
    rewrite (addResources_run l l2 config.zeroClusterResources s); simpl.
    + by rewrite insert_insert_eq.
    + by rewrite lookup_insert_eq.
    + by rewrite lookup_insert_ne.
    + done.
    + done.
Qed.

(** X1.  A nil [second] is dereferenced by the first append: the run panics,
    whatever [first] is. *)
Lemma addResources_nil_second first st : addResources first None st = None.
Proof.
  unfold addResources, bind at 1.
  destruct first as [l|]; simpl; unfold bind at 1, appendField, bind, load; simpl.
  - by destruct (objects st !! l).
  - by rewrite lookup_insert_eq.
Qed.

(** C10.  With [second] pointing to an object, and [first] nil or pointing
    to one, [addResources] does not fault.  It leaves at [first] (at a freshly
    allocated empty object when [first] is nil) the object it returns: every
    sequence field is the field of [first] followed by the field of [second],
    and the secret mapping is the one [first] had.  No other object changes.
    When both mappings are allocated, the entries of [second] are written
    into the map of [first]: afterwards that map has every entry of
    [second], and the entries of [first] under the other keys. *)
Theorem addResources_in_place first l2 f s st :
  valueAt st first = Some f → objects st !! l2 = Some s →
  secretsAllocated st f → secretsAllocated st s →
  ∃ r st',
    addResources first (Some l2) st = Some (r, st')
    ∧ objects st' !! target st first = Some r
    ∧ (first = None → objects st !! target st first = None)
    ∧ (∀ l, l ≠ target st first → objects st' !! l = objects st !! l)
    ∧ config.Pools r = config.Pools f ++ config.Pools s
    ∧ config.Peers r = config.Peers f ++ config.Peers s
    ∧ config.BFDProfiles r = config.BFDProfiles f ++ config.BFDProfiles s
    ∧ config.BGPAdvs r = config.BGPAdvs f ++ config.BGPAdvs s
    ∧ config.L2Advs r = config.L2Advs f ++ config.L2Advs s
    ∧ config.LegacyAddressPools r =
        config.LegacyAddressPools f ++ config.LegacyAddressPools s
    ∧ config.Communities r = config.Communities f ++ config.Communities s
    ∧ config.Nodes r = config.Nodes f ++ config.Nodes s
    ∧ config.Namespaces r = config.Namespaces f ++ config.Namespaces s
    ∧ config.PasswordSecrets r = config.PasswordSecrets f
    ∧ (∀ fm sm a b,
         config.PasswordSecrets f = Some fm → config.PasswordSecrets s = Some sm →
         maps st !! fm = Some a → maps st !! sm = Some b →
         ∃ a', maps st' !! fm = Some a'
               ∧ (∀ k v, b !! k = Some v → a' !! k = Some v)
               ∧ (∀ k, b !! k = None → a' !! k = a !! k)).
Proof.
  intros H1 H2 Hf Hs. eexists _, _.
  split; [by apply addResources_run_ptr|]. simpl.
  split; [by rewrite lookup_insert_eq|].
  split; [intros ->; apply target_fresh|].
  split; [by intros l Hl; rewrite lookup_insert_ne|].
  repeat (split; [done|]).
  intros fm sm a b Efm Esm Ha Hb. unfold mergedMaps. rewrite Efm, Esm, Ha, Hb.
  exists (b ∪ a). split; [by rewrite lookup_insert_eq|]. split.
  - intros k v Hk. by apply lookup_union_Some_l.
  - intros k Hk. by rewrite lookup_union_r.
Qed.

(** C1, amended.  The secret mapping of the result is always the one of
    [first].  When that is nil (or the one of [second] is), no map is
    written: a nil mapping of [first] stays nil whatever [second] holds.
    When both are allocated, the map of [first] becomes the entries of
    [second] laid over its own: a key present in [second] has the value of
    [second], any other key keeps the value of [first]. *)
Theorem addResources_secrets first l2 f s st :
  valueAt st first = Some f → objects st !! l2 = Some s →
  secretsAllocated st f → secretsAllocated st s →
  ∃ r st',
    addResources first (Some l2) st = Some (r, st')
    ∧ config.PasswordSecrets r = config.PasswordSecrets f
    ∧ (config.PasswordSecrets f = None ∨ config.PasswordSecrets s = None →
         maps st' = maps st)
    ∧ (∀ fm sm a b,
         config.PasswordSecrets f = Some fm → config.PasswordSecrets s = Some sm →
         maps st !! fm = Some a → maps st !! sm = Some b →
         maps st' = <[fm := b ∪ a]> (maps st)
         ∧ (∀ k v, b !! k = Some v → (b ∪ a) !! k = Some v)
         ∧ (∀ k, b !! k = None → (b ∪ a) !! k = a !! k)).
Proof.
  intros H1 H2 Hf Hs. eexists _, _.
  split; [by apply addResources_run_ptr|]. simpl.
  split; [done|]. split.
  - unfold mergedMaps. intros [->| ->]; [done|]. by destruct (config.PasswordSecrets f).
  - intros fm sm a b Efm Esm Ha Hb. unfold mergedMaps. rewrite Efm, Esm, Ha, Hb.
    split; [done|]. split.
    + intros k v Hk. by apply lookup_union_Some_l.
    + intros k Hk. by rewrite lookup_union_r.
Qed.
(** *** What [addResources] leaves alone, and how two calls compose *)

Lemma mergedMaps_lookup f s ms m :
  mergedMaps f s ms !! m =
  match config.PasswordSecrets f, config.PasswordSecrets s with
  | Some fm, Some sm =>
      match ms !! fm, ms !! sm with
      | Some a, Some b => if decide (m = fm) then Some (b ∪ a) else ms !! m
      | _, _ => ms !! m
      end
  | _, _ => ms !! m
  end.
Proof.
  unfold mergedMaps.
  destruct (config.PasswordSecrets f) as [fm|]; [|done].
  destruct (config.PasswordSecrets s) as [sm|]; [|done].
  destruct (ms !! fm) as [a|] eqn:Ha; [|done].
  destruct (ms !! sm) as [b|] eqn:Hb; [|done].
  case_decide as Hm.
  - subst m. by rewrite lookup_insert_eq.
  - by rewrite lookup_insert_ne.
Qed.

Lemma mergedMaps_allocated f s st r :
  secretsAllocated st r →
  secretsAllocated {| objects := objects st; maps := mergedMaps f s (maps st) |} r.
Proof.
  intros Hr m Hm. specialize (Hr m Hm). simpl. rewrite mergedMaps_lookup.
  repeat case_match; done.
Qed.

Lemma merged_assoc a b c : merged (merged a b) c = merged a (merged b c).
Proof. unfold merged. simpl. by rewrite <- !app_assoc. Qed.

(** X17.  [addResources] changes nothing of [second]: not the object it points
    to, unless [first] points to the same object, and not the map of its
    secrets, even when [first] shares that map.  No map is created or
    removed, no map other than the one of [first] is written, and every key
    of the map of [first] is still there afterwards. *)
Theorem addResources_leaves_second first l2 f s st :
  valueAt st first = Some f → objects st !! l2 = Some s →
  secretsAllocated st f → secretsAllocated st s →
  ∃ r st',
    addResources first (Some l2) st = Some (r, st')
    ∧ (first ≠ Some l2 → objects st' !! l2 = Some s)
    ∧ (∀ sm, config.PasswordSecrets s = Some sm → maps st' !! sm = maps st !! sm)
    ∧ (∀ m, config.PasswordSecrets f ≠ Some m → maps st' !! m = maps st !! m)
    ∧ dom (maps st') = dom (maps st)
    ∧ (∀ fm a k, config.PasswordSecrets f = Some fm → maps st !! fm = Some a →
         is_Some (a !! k) →
         ∃ a', maps st' !! fm = Some a' ∧ is_Some (a' !! k)).
Proof.
  intros H1 H2 Hf Hs. eexists _, _.
  split; [by apply addResources_run_ptr|]. simpl. split; [|split; [|split; [|split]]].
  - intros Hne. rewrite lookup_insert_ne; [done|].
    destruct first as [l1|]; simpl in *; [congruence|].
    intros Heq. pose proof (target_fresh st) as Hfr. simpl in Hfr. congruence.
  - intros sm Hsm. rewrite mergedMaps_lookup, Hsm.
    destruct (config.PasswordSecrets f) as [fm|]; [|done].
    destruct (maps st !! fm) as [a|] eqn:Ha; [|done].
    destruct (maps st !! sm) as [b|] eqn:Hb; [|done].
    case_decide as Hm; [|done]. subst fm.
    assert (a = b) as -> by congruence. by rewrite (idemp (∪) b).
  - intros m Hm. rewrite mergedMaps_lookup.
    destruct (config.PasswordSecrets f) as [fm|]; [|done].
    destruct (config.PasswordSecrets s) as [sm|]; [|done].
    destruct (maps st !! fm) as [a|] eqn:Ha; [|done].
    destruct (maps st !! sm) as [b|] eqn:Hb; [|done].
    rewrite decide_False; [done|congruence].
  - unfold mergedMaps.
    destruct (config.PasswordSecrets f) as [fm|]; [|done].
    destruct (config.PasswordSecrets s) as [sm|]; [|done].
    destruct (maps st !! fm) as [a|] eqn:Ha; [|done].
    destruct (maps st !! sm) as [b|] eqn:Hb; [|done].
    apply dom_insert_lookup_L. by eexists.
  - intros fm a k Hfm Ha Hk. rewrite mergedMaps_lookup, Hfm, Ha.
    destruct (config.PasswordSecrets s) as [sm|]; [|by eauto].
    destruct (maps st !! sm) as [b|] eqn:Hb; [|by eauto].
    rewrite decide_True by done. eexists. split; [done|].
    apply lookup_union_is_Some. by right.
Qed.

(** X18.  With one object as both arguments, [addResources] appends every
    sequence of the object to itself and changes no map. *)
Theorem addResources_same_object l f st :
  objects st !! l = Some f → secretsAllocated st f →
  ∃ r st',
    addResources (Some l) (Some l) st = Some (r, st')
    ∧ objects st' = <[l := r]> (objects st)
    ∧ maps st' = maps st
    ∧ config.Pools r = config.Pools f ++ config.Pools f
    ∧ config.Peers r = config.Peers f ++ config.Peers f
    ∧ config.BFDProfiles r = config.BFDProfiles f ++ config.BFDProfiles f
    ∧ config.BGPAdvs r = config.BGPAdvs f ++ config.BGPAdvs f
    ∧ config.L2Advs r = config.L2Advs f ++ config.L2Advs f
    ∧ config.LegacyAddressPools r =
        config.LegacyAddressPools f ++ config.LegacyAddressPools f
    ∧ config.Communities r = config.Communities f ++ config.Communities f
    ∧ config.Nodes r = config.Nodes f ++ config.Nodes f
    ∧ config.Namespaces r = config.Namespaces f ++ config.Namespaces f
    ∧ config.PasswordSecrets r = config.PasswordSecrets f.
Proof.
  intros Hl Hf. eexists _, _.
  split; [by apply (addResources_run l l f f)|]. simpl.
  split; [done|]. split; [|done].
  unfold mergedMaps. destruct (config.PasswordSecrets f) as [fm|] eqn:Hfm; [|done].
  destruct (Hf fm Hfm) as [a Ha]. rewrite Ha.
  rewrite (idemp (∪) a). by apply insert_id.
Qed.

(** X19.  Merging three distinct objects is associative in what is returned:
    adding the second and then the third to the first gives the object that
    adding the third to the second, and the second to the first, gives.
    It is not associative in the secrets: when the map of the second is nil
    and the two others are allocated, the first order writes the entries of
    the third into the map of the first, and the second order writes
    nothing. *)
Theorem addResources_assoc l1 l2 l3 a b c st :
  l1 ≠ l2 → l1 ≠ l3 → l2 ≠ l3 →
  objects st !! l1 = Some a → objects st !! l2 = Some b →
  objects st !! l3 = Some c →
  secretsAllocated st a → secretsAllocated st b → secretsAllocated st c →
  ∃ r stL stR,
    bind (addResources (Some l1) (Some l2))
         (λ _, addResources (Some l1) (Some l3)) st = Some (r, stL)
    ∧ bind (addResources (Some l2) (Some l3))
           (λ _, addResources (Some l1) (Some l2)) st = Some (r, stR)
    ∧ objects stL !! l1 = Some r
    ∧ objects stR !! l1 = Some r
    ∧ config.Pools r = config.Pools a ++ config.Pools b ++ config.Pools c
    ∧ config.Peers r = config.Peers a ++ config.Peers b ++ config.Peers c
    ∧ config.BFDProfiles r =
        config.BFDProfiles a ++ config.BFDProfiles b ++ config.BFDProfiles c
    ∧ config.BGPAdvs r = config.BGPAdvs a ++ config.BGPAdvs b ++ config.BGPAdvs c
    ∧ config.L2Advs r = config.L2Advs a ++ config.L2Advs b ++ config.L2Advs c
    ∧ config.LegacyAddressPools r =
        config.LegacyAddressPools a ++ config.LegacyAddressPools b
        ++ config.LegacyAddressPools c
    ∧ config.Communities r =
        config.Communities a ++ config.Communities b ++ config.Communities c
    ∧ config.Nodes r = config.Nodes a ++ config.Nodes b ++ config.Nodes c
    ∧ config.Namespaces r =
        config.Namespaces a ++ config.Namespaces b ++ config.Namespaces c
    ∧ config.PasswordSecrets r = config.PasswordSecrets a
    ∧ (∀ ma mc fa fc,
         config.PasswordSecrets a = Some ma → config.PasswordSecrets b = None →
         config.PasswordSecrets c = Some mc →
         maps st !! ma = Some fa → maps st !! mc = Some fc → ma ≠ mc →
         maps stL !! ma = Some (fc ∪ fa) ∧ maps stR !! ma = Some fa).
Proof.
  intros H12 H13 H23 Ha Hb Hc Hsa Hsb Hsc.
  exists (merged a (merged b c)). eexists _, _.
  unfold bind.
  rewrite (addResources_run l1 l2 a b) by done.
  rewrite (addResources_run l2 l3 b c) by done.
  rewrite (addResources_run l1 l3 (merged a b) c); simpl;
    [|by rewrite lookup_insert_eq|by rewrite lookup_insert_ne
     |by apply mergedMaps_allocated|by apply mergedMaps_allocated].
  rewrite (addResources_run l1 l2 a (merged b c)); simpl;
    [|by rewrite lookup_insert_ne|by rewrite lookup_insert_eq
     |by apply mergedMaps_allocated|by apply mergedMaps_allocated].
  rewrite merged_assoc.
  split; [reflexivity|]. split; [reflexivity|]. simpl.
  split; [by rewrite lookup_insert_eq|]. split; [by rewrite lookup_insert_eq|].
  repeat (split; [done|]).
  intros ma mc fa fc Hma Hmb Hmc Hfa Hfc Hne.
  rewrite !mergedMaps_lookup. simpl. rewrite Hma, Hmb, Hmc. simpl.
  rewrite mergedMaps_lookup, Hma, Hmb. rewrite Hfa.
  rewrite mergedMaps_lookup, Hma, Hmb. rewrite Hfc.
  rewrite decide_True by done. done.
Qed.

End AggregationFacts.

End aggregation_facts.

(** ** The reconciler *)

Module reconcile_facts.

Import controllers.

Section ReconcileFacts.

Context `{Decls}.

Lemma fetchResources_ok env resources st :
  fetched env = Some resources →
  fetchResources env st = (st, Continue resources).
Proof.
  unfold fetched, legacyDocument, fetchResources, step, listOrReturn, orReturn.
  destruct (listAddressPools env); [|done].
  destruct (listIPAddressPools env); [|done].
  destruct (listCommunities env); [|done].
  destruct (listNamespaces env); [|done]. simpl.
  destruct (getLegacyConfig env) as [cm|err]; simpl.
  - destruct (DecodeLegacyCM cm); [|done]. simpl.
    destruct (ResourcesFor _); [|done]. simpl. by intros [= <-].
  - destruct (IsNotFound err); [|done]. simpl.
    destruct (DecodeLegacyCM _); [|done]. simpl.
    destruct (ResourcesFor _); [|done]. simpl. by intros [= <-].
Qed.

Lemma Reconcile_fetched env resources st :
  fetched env = Some resources →
  Reconcile env st =
    let st1 := (log Debug "metallb CRs"
                  (updates_Inc (log Info "start reconcile" st).1).1).1 in
    match applyResources env resources st1 with
    | (st', Return err) => ((log Info "end reconcile" st').1, err)
    | (st', Continue _) => ((log Info "end reconcile" st').1, None)
    end.
Proof.
  intros Hf. unfold Reconcile, reconcileBody, step. simpl.
  by rewrite (fetchResources_ok env resources).
Qed.

(** C6.  When every read and the translation succeed and the builder
    rejects the merged resources, the invocation returns no error, the stale
    gauge is 1, the loaded gauge and [currentConfig] are what they were, and
    the handler is not called: the only events are four log lines. *)
Theorem Reconcile_build_failure env st resources err :
  fetched env = Some resources → toConfig resources = inr err →
  ∃ st',
    Reconcile env st = (st', None)
    ∧ configStale st' = 1
    ∧ configLoaded st' = configLoaded st
    ∧ currentConfig st' = currentConfig st
    ∧ handlerCalls (events st') = handlerCalls (events st)
    ∧ events st' = events st ++
        [Log Info "start reconcile"; Log Debug "metallb CRs";
         Log Error "failed to parse the configuration"; Log Info "end reconcile"].
Proof.
  intros Hf Hb. rewrite (Reconcile_fetched env resources) by done.
  unfold applyResources, step. rewrite Hb. simpl.
  eexists. split; [done|]. simpl. repeat split.
  - unfold handlerCalls. rewrite <- !app_assoc, omap_app. simpl. by rewrite app_nil_r.
  - by rewrite <- !app_assoc.
Qed.

(** C2, amended.  When every read, the translation and the build succeed and
    the configuration built equals [currentConfig], the invocation returns no
    error without calling the handler; [currentConfig], the error counter and
    the two gauges are what they were, and the counter of reconcile attempts,
    incremented at the start of every invocation, is one more. *)
Theorem Reconcile_unchanged env st resources cfg :
  fetched env = Some resources → toConfig resources = inl cfg →
  currentConfig st = Some cfg →
  ∃ st',
    Reconcile env st = (st', None)
    ∧ handlerCalls (events st') = handlerCalls (events st)
    ∧ currentConfig st' = currentConfig st
    ∧ updateErrors st' = updateErrors st
    ∧ configStale st' = configStale st
    ∧ configLoaded st' = configLoaded st
    ∧ updates st' = updates st + 1
    ∧ events st' = events st ++
        [Log Info "start reconcile"; Log Debug "metallb CRs";
         Log Debug "rendered config";
         Log Debug "configuration did not change, ignoring";
         Log Info "end reconcile"].
Proof.
  intros Hf Hb Hc. rewrite (Reconcile_fetched env resources) by done.
  unfold applyResources, step. rewrite Hb. simpl.
  rewrite bool_decide_eq_true_2 by done. simpl.
  eexists. split; [done|]. simpl. repeat split.
  - unfold handlerCalls. rewrite <- !app_assoc, omap_app. simpl. by rewrite app_nil_r.
  - by rewrite <- !app_assoc.
Qed.

Lemma Reconcile_handler_called env st resources cfg :
  fetched env = Some resources → toConfig resources = inl cfg →
  currentConfig st ≠ Some cfg →
  handlerCalls (events (Reconcile env st).1) =
    handlerCalls (events st) ++ [config_Pools cfg].
Proof.
  intros Hf Hb Hc. rewrite (Reconcile_fetched env resources) by done.
  unfold applyResources, step. rewrite Hb. simpl.
  rewrite bool_decide_eq_false_2 by done. simpl.
  unfold handlerCalls.
  repeat case_bool_decide; simpl;
    rewrite <- ?app_assoc; rewrite !omap_app; simpl; by rewrite ?app_nil_r.
Qed.

(** C3.  When the handler is reached and answers [SyncStateErrorNoRetry]
    (a value distinct from the two outcomes tested before it), the invocation
    returns no error, the error counter is one more, the stale gauge is 1,
    and [currentConfig] is what it was.  Any later invocation from the state
    reached, in which the reads, the translation and the build give the same
    configuration again, calls the handler once more with its pools. *)
Theorem Reconcile_error_no_retry env st resources cfg :
  fetched env = Some resources → toConfig resources = inl cfg →
  currentConfig st ≠ Some cfg →
  Handler env (config_Pools cfg) = SyncStateErrorNoRetry →
  SyncStateErrorNoRetry ≠ SyncStateError →
  SyncStateErrorNoRetry ≠ SyncStateReprocessAll →
  ∃ st',
    Reconcile env st = (st', None)
    ∧ updateErrors st' = updateErrors st + 1
    ∧ configStale st' = 1
    ∧ currentConfig st' = currentConfig st
    ∧ handlerCalls (events st') = handlerCalls (events st) ++ [config_Pools cfg]
    ∧ ∀ env' resources',
        fetched env' = Some resources' → toConfig resources' = inl cfg →
        handlerCalls (events (Reconcile env' st').1) =
          handlerCalls (events st') ++ [config_Pools cfg].
Proof.
  intros Hf Hb Hc Hh Hne1 Hne2.
  pose proof (Reconcile_handler_called env st resources cfg Hf Hb Hc) as Hcalls.
  assert (∃ st', Reconcile env st = (st', None)
            ∧ updateErrors st' = updateErrors st + 1
            ∧ configStale st' = 1
            ∧ currentConfig st' = currentConfig st) as (st' & E & Hu & Hs & Hcur).
  { rewrite (Reconcile_fetched env resources) by done.
    unfold applyResources, step. rewrite Hb. simpl.
    rewrite bool_decide_eq_false_2 by done. simpl.
    rewrite Hh.
    rewrite (bool_decide_eq_false_2 (SyncStateErrorNoRetry = SyncStateError)) by done.
    rewrite (bool_decide_eq_false_2 (SyncStateErrorNoRetry = SyncStateReprocessAll)) by done.
    rewrite bool_decide_eq_true_2 by done. simpl.
    eexists. split; [done|]. by simpl. }
  rewrite E in Hcalls. simpl in Hcalls.
  exists st'. repeat (split; [done|]).
  intros env' resources' Hf' Hb'.
  apply (Reconcile_handler_called env' st' resources' cfg); [done..|].
  by rewrite Hcur.
Qed.

(** C9.  When the handler is reached and answers a value that is none of
    [SyncStateError], [SyncStateReprocessAll] and [SyncStateErrorNoRetry], the
    invocation takes the success path: it returns no error, [currentConfig]
    is the configuration built, the loaded gauge is 1 and the stale gauge 0;
    the error counter is unchanged and no reload is forced. *)
Theorem Reconcile_unhandled_outcome env st resources cfg :
  fetched env = Some resources → toConfig resources = inl cfg →
  currentConfig st ≠ Some cfg →
  Handler env (config_Pools cfg) ≠ SyncStateError →
  Handler env (config_Pools cfg) ≠ SyncStateReprocessAll →
  Handler env (config_Pools cfg) ≠ SyncStateErrorNoRetry →
  ∃ st',
    Reconcile env st = (st', None)
    ∧ currentConfig st' = Some cfg
    ∧ configLoaded st' = 1
    ∧ configStale st' = 0
    ∧ updateErrors st' = updateErrors st
    ∧ events st' = events st ++
        [Log Info "start reconcile"; Log Debug "metallb CRs";
         Log Debug "rendered config"; HandlerCall (config_Pools cfg);
         Log Info "config reloaded"; Log Info "end reconcile"].
Proof.
  intros Hf Hb Hc H1 H2 H3. rewrite (Reconcile_fetched env resources) by done.
  unfold applyResources, step. rewrite Hb. simpl.
  rewrite bool_decide_eq_false_2 by done. simpl.
  rewrite !bool_decide_eq_false_2 by done. simpl.
  eexists. split; [done|]. simpl. repeat split.
  by rewrite <- !app_assoc.
Qed.

(** *** The other paths of [Reconcile], and what holds on all of them *)

Lemma handlerCalls_app evs1 evs2 :
  handlerCalls (evs1 ++ evs2) = handlerCalls evs1 ++ handlerCalls evs2.
Proof. unfold handlerCalls. apply omap_app. Qed.

Lemma forcedReloads_app evs1 evs2 :
  forcedReloads (evs1 ++ evs2) = (forcedReloads evs1 + forcedReloads evs2)%nat.
Proof. unfold forcedReloads. by rewrite omap_app, length_app. Qed.

(** Every path through [Reconcile], one goal for each. *)
Ltac reconcile_paths env :=
  unfold Reconcile, reconcileBody, fetchResources, applyResources, step,
    listOrReturn, orReturn, fetched, legacyDocument in *;
  destruct (listAddressPools env); simpl in *;
  [destruct (listIPAddressPools env); simpl in *;
   [destruct (listCommunities env); simpl in *;
    [destruct (listNamespaces env); simpl in *;
     [destruct (getLegacyConfig env) as [?|?]; simpl in *;
      [|destruct (IsNotFound _); simpl in *];
      try (destruct (DecodeLegacyCM _); simpl in *;
           [destruct (ResourcesFor _); simpl in *;
            [destruct (toConfig _); simpl in *;
             [case_bool_decide; simpl in *;
              [|repeat (case_bool_decide; simpl in *)]|]|]|])
     |]|]|]|].

Lemma Reconcile_step env st :
  updates (Reconcile env st).1 = updates st + 1
  ∧ (∃ evs, events (Reconcile env st).1 = events st ++ evs
            ∧ (length (handlerCalls evs) ≤ 1)%nat)
  ∧ updateErrors st ≤ updateErrors (Reconcile env st).1 ≤ updateErrors st + 1
  ∧ (configLoaded (Reconcile env st).1 = configLoaded st
     ∨ configLoaded (Reconcile env st).1 = 1).
Proof.
  reconcile_paths env; (split; [done|]);
    (split; [eexists; rewrite <- !app_assoc; split; [reflexivity|simpl; lia]|]);
    (split; [lia|]); auto.
Qed.

Lemma fetchResources_failed env st :
  fetched env = None →
  ∃ err evs,
    fetchResources env st =
      ({| currentConfig := currentConfig st; updates := updates st;
          updateErrors := updateErrors st; configStale := configStale st;
          configLoaded := configLoaded st; events := events st ++ evs |},
       Return (Some err))
    ∧ handlerCalls evs = [] ∧ forcedReloads evs = 0%nat
    ∧ (listAddressPools env = inr err ∨ listIPAddressPools env = inr err
       ∨ listCommunities env = inr err ∨ listNamespaces env = inr err
       ∨ getLegacyConfig env = inr err
       ∨ (∃ cm, DecodeLegacyCM cm = inr err)
       ∨ (∃ cf, ResourcesFor cf = inr err)).
Proof.
  assert (∀ err evs,
    handlerCalls evs = [] → forcedReloads evs = 0%nat →
    (listAddressPools env = inr err ∨ listIPAddressPools env = inr err
     ∨ listCommunities env = inr err ∨ listNamespaces env = inr err
     ∨ getLegacyConfig env = inr err
     ∨ (∃ cm, DecodeLegacyCM cm = inr err)
     ∨ (∃ cf, ResourcesFor cf = inr err)) →
    ∃ err' evs',
      ({| currentConfig := currentConfig st; updates := updates st;
          updateErrors := updateErrors st; configStale := configStale st;
          configLoaded := configLoaded st; events := events st ++ evs |},
       (Return (Some err) : Flow config.ClusterResources)) =
      ({| currentConfig := currentConfig st; updates := updates st;
          updateErrors := updateErrors st; configStale := configStale st;
          configLoaded := configLoaded st; events := events st ++ evs' |},
       Return (Some err'))
      ∧ handlerCalls evs' = [] ∧ forcedReloads evs' = 0%nat
      ∧ (listAddressPools env = inr err' ∨ listIPAddressPools env = inr err'
         ∨ listCommunities env = inr err' ∨ listNamespaces env = inr err'
         ∨ getLegacyConfig env = inr err'
         ∨ (∃ cm, DecodeLegacyCM cm = inr err')
         ∨ (∃ cf, ResourcesFor cf = inr err'))) as Hfin.
  { intros err evs ? ? ?. by exists err, evs. }
  assert (∀ err, (st, (Return (Some err) : Flow config.ClusterResources)) =
    ({| currentConfig := currentConfig st; updates := updates st;
        updateErrors := updateErrors st; configStale := configStale st;
        configLoaded := configLoaded st; events := events st ++ [] |},
     Return (Some err))) as Hnil.
  { intros err. rewrite app_nil_r. by destruct st. }
  unfold fetched, legacyDocument, fetchResources, step, listOrReturn, orReturn.
  destruct (listAddressPools env) as [?|e1] eqn:E1; simpl;
    [|intros _; apply Hfin; auto 10].
  destruct (listIPAddressPools env) as [?|e2] eqn:E2; simpl;
    [|intros _; apply Hfin; auto 10].
  destruct (listCommunities env) as [?|e3] eqn:E3; simpl;
    [|intros _; apply Hfin; auto 10].
  destruct (listNamespaces env) as [?|e4] eqn:E4; simpl;
    [|intros _; apply Hfin; auto 10].
  destruct (getLegacyConfig env) as [cm|e5] eqn:E5; simpl.
  - destruct (DecodeLegacyCM cm) as [cf|e6] eqn:E6; simpl.
    + destruct (ResourcesFor cf) as [?|e7] eqn:E7; simpl; [done|].
      intros _. rewrite Hnil. apply Hfin; eauto 10.
    + intros _. rewrite Hnil. apply Hfin; eauto 10.
  - destruct (IsNotFound e5); simpl; [|intros _; apply Hfin; auto 10].
    destruct (DecodeLegacyCM zeroConfigMap) as [cf|e6] eqn:E6; simpl.
    + destruct (ResourcesFor cf) as [?|e7] eqn:E7; simpl; [done|].
      intros _. rewrite Hnil. apply Hfin; eauto 10.
    + intros _. rewrite Hnil. apply Hfin; eauto 10.
Qed.

(** X20.  When a read of the cluster or the translation of the legacy document
    fails, [Reconcile] returns an error, and it is the error of one of
    these steps, handed on as it is.  Nothing but the counter of attempts
    and the log has changed: [currentConfig], the error counter and the two
    gauges are what they were, the handler has not been called and no reload
    has been forced. *)
Theorem Reconcile_fetch_failure env st :
  fetched env = None →
  ∃ err st',
    Reconcile env st = (st', Some err)
    ∧ (listAddressPools env = inr err ∨ listIPAddressPools env = inr err
       ∨ listCommunities env = inr err ∨ listNamespaces env = inr err
       ∨ getLegacyConfig env = inr err
       ∨ (∃ cm, DecodeLegacyCM cm = inr err)
       ∨ (∃ cf, ResourcesFor cf = inr err))
    ∧ currentConfig st' = currentConfig st
    ∧ updateErrors st' = updateErrors st
    ∧ configStale st' = configStale st
    ∧ configLoaded st' = configLoaded st
    ∧ updates st' = updates st + 1
    ∧ handlerCalls (events st') = handlerCalls (events st)
    ∧ forcedReloads (events st') = forcedReloads (events st).
Proof.
  intros Hf. unfold Reconcile, reconcileBody, step. simpl.
  match goal with
  | |- context [fetchResources env ?s] =>
      destruct (fetchResources_failed env s Hf)
        as (err & evs & -> & Hcalls & Hreloads & Horigin)
  end.
  exists err. eexists. split; [done|]. simpl.
  rewrite <- !app_assoc, !handlerCalls_app, !forcedReloads_app, Hcalls, Hreloads.
  simpl. rewrite app_nil_r, Nat.add_0_r. done.
Qed.

(** X21.  A legacy document that is not found counts as an empty one: the
    invocation is, in every respect, the one in which the read returns the
    zero value of the document. *)
Theorem Reconcile_legacy_not_found env st err :
  getLegacyConfig env = inr err → IsNotFound err = true →
  Reconcile env st = Reconcile (withEmptyLegacyConfig env) st.
Proof.
  intros Hget Hnf.
  unfold Reconcile, reconcileBody, fetchResources, applyResources, step.
  simpl. by rewrite Hget, Hnf.
Qed.

(** X22.  When the handler is reached and answers [SyncStateError], the
    invocation returns [errRetry]; the error counter is one more, the stale
    gauge is 1, and [currentConfig] and the loaded gauge are what they were.
    Any later invocation from the state reached, in which the reads, the
    translation and the build give the same configuration, calls the handler
    again with its pools. *)
Theorem Reconcile_error_retry env st resources cfg :
  fetched env = Some resources → toConfig resources = inl cfg →
  currentConfig st ≠ Some cfg →
  Handler env (config_Pools cfg) = SyncStateError →
  ∃ st',
    Reconcile env st = (st', Some errRetry)
    ∧ updateErrors st' = updateErrors st + 1
    ∧ configStale st' = 1
    ∧ configLoaded st' = configLoaded st
    ∧ currentConfig st' = currentConfig st
    ∧ events st' = events st ++
        [Log Info "start reconcile"; Log Debug "metallb CRs";
         Log Debug "rendered config"; HandlerCall (config_Pools cfg);
         Log Error "reload failed, retry"; Log Info "end reconcile"]
    ∧ ∀ env' resources',
        fetched env' = Some resources' → toConfig resources' = inl cfg →
        handlerCalls (events (Reconcile env' st').1) =
          handlerCalls (events st') ++ [config_Pools cfg].
Proof.
  intros Hf Hb Hc Hh.
  assert (∃ st', Reconcile env st = (st', Some errRetry)
            ∧ updateErrors st' = updateErrors st + 1
            ∧ configStale st' = 1
            ∧ configLoaded st' = configLoaded st
            ∧ currentConfig st' = currentConfig st
            ∧ events st' = events st ++
                [Log Info "start reconcile"; Log Debug "metallb CRs";
                 Log Debug "rendered config"; HandlerCall (config_Pools cfg);
                 Log Error "reload failed, retry"; Log Info "end reconcile"])
    as (st' & E & Hu & Hs & Hl & Hcur & Hev).
  { rewrite (Reconcile_fetched env resources) by done.
    unfold applyResources, step. rewrite Hb. simpl.
    rewrite bool_decide_eq_false_2 by done. simpl.
    rewrite Hh. rewrite bool_decide_eq_true_2 by done. simpl.
    eexists. split; [done|]. simpl. repeat split. by rewrite <- !app_assoc. }
  exists st'. repeat (split; [done|]).
  intros env' resources' Hf' Hb'.
  apply (Reconcile_handler_called env' st' resources' cfg); [done..|].
  by rewrite Hcur.
Qed.

(** X23.  When the handler is reached and answers [SyncStateReprocessAll] (a
    value distinct from [SyncStateError], which is tested first), the
    invocation forces one reload, right after the handler's answer, and then
    goes on as after a success: it returns no error, [currentConfig] is the
    configuration built, the loaded gauge is 1, the stale gauge 0, and the
    error counter is what it was. *)
Theorem Reconcile_reprocess_all env st resources cfg :
  fetched env = Some resources → toConfig resources = inl cfg →
  currentConfig st ≠ Some cfg →
  Handler env (config_Pools cfg) = SyncStateReprocessAll →
  SyncStateReprocessAll ≠ SyncStateError →
  ∃ st',
    Reconcile env st = (st', None)
    ∧ currentConfig st' = Some cfg
    ∧ configLoaded st' = 1
    ∧ configStale st' = 0
    ∧ updateErrors st' = updateErrors st
    ∧ forcedReloads (events st') = S (forcedReloads (events st))
    ∧ events st' = events st ++
        [Log Info "start reconcile"; Log Debug "metallb CRs";
         Log Debug "rendered config"; HandlerCall (config_Pools cfg);
         Log Info "force service reload"; ForceReloadCall;
         Log Info "config reloaded"; Log Info "end reconcile"].
Proof.
  intros Hf Hb Hc Hh Hne. rewrite (Reconcile_fetched env resources) by done.
  unfold applyResources, step. rewrite Hb. simpl.
  rewrite bool_decide_eq_false_2 by done. simpl.
  rewrite Hh. rewrite bool_decide_eq_false_2 by done.
  rewrite bool_decide_eq_true_2 by done. simpl.
  eexists. split; [done|]. simpl. repeat split.
  - rewrite <- !app_assoc, forcedReloads_app. unfold forcedReloads. simpl. lia.
  - by rewrite <- !app_assoc.
Qed.

Lemma Reconcile_same_config env st resources cfg :
  fetched env = Some resources → toConfig resources = inl cfg →
  currentConfig st = Some cfg →
  currentConfig (Reconcile env st).1 = Some cfg
  ∧ handlerCalls (events (Reconcile env st).1) = handlerCalls (events st)
  ∧ configLoaded (Reconcile env st).1 = configLoaded st
  ∧ configStale (Reconcile env st).1 = configStale st.
Proof.
  intros Hf Hb Hc. rewrite (Reconcile_fetched env resources) by done.
  unfold applyResources, step. rewrite Hb. simpl.
  rewrite bool_decide_eq_true_2 by done. simpl.
  rewrite <- !app_assoc, handlerCalls_app. simpl. by rewrite app_nil_r.
Qed.

Lemma Reconcile_adopted env st resources cfg :
  fetched env = Some resources → toConfig resources = inl cfg →
  currentConfig st ≠ Some cfg →
  Handler env (config_Pools cfg) ≠ SyncStateError →
  Handler env (config_Pools cfg) ≠ SyncStateErrorNoRetry →
  currentConfig (Reconcile env st).1 = Some cfg
  ∧ configLoaded (Reconcile env st).1 = 1
  ∧ configStale (Reconcile env st).1 = 0.
Proof.
  intros Hf Hb Hc H1 H2. rewrite (Reconcile_fetched env resources) by done.
  unfold applyResources, step. rewrite Hb. simpl.
  rewrite bool_decide_eq_false_2 by done. simpl.
  rewrite (bool_decide_eq_false_2 (_ = SyncStateError)) by done.
  case_bool_decide; simpl; [done|].
  by rewrite bool_decide_eq_false_2 by done.
Qed.

Lemma reconcileAll_same_config envs : ∀ st cfg,
  Forall (λ e, ∃ resources, fetched e = Some resources
                            ∧ toConfig resources = inl cfg) envs →
  currentConfig st = Some cfg →
  currentConfig (reconcileAll envs st) = Some cfg
  ∧ handlerCalls (events (reconcileAll envs st)) = handlerCalls (events st)
  ∧ configLoaded (reconcileAll envs st) = configLoaded st
  ∧ configStale (reconcileAll envs st) = configStale st.
Proof.
  induction envs as [|e envs IH]; intros st cfg Hall Hc; [done|].
  apply Forall_cons in Hall as [(resources & Hf & Hb) Hall]. simpl.
  destruct (Reconcile_same_config e st resources cfg Hf Hb Hc)
    as (Hc' & Hcalls & Hl & Hs).
  destruct (IH _ cfg Hall Hc') as (? & ? & ? & ?).
  repeat split; congruence.
Qed.

Lemma reconcileAll_updates envs : ∀ st,
  updates (reconcileAll envs st) = updates st + Z.of_nat (length envs).
Proof.
  induction envs as [|e envs IH]; intros st; simpl; [lia|].
  rewrite IH. destruct (Reconcile_step e st) as [-> _]. lia.
Qed.

(** X24.  A configuration is applied once.  Take an invocation in which the
    reads, the translation and the build succeed and the handler, if it is
    called, answers neither [SyncStateError] nor [SyncStateErrorNoRetry];
    let any number of invocations follow in which the same configuration is
    built.  Over all of them the handler is called once if the reconciler
    did not hold that configuration at the start, and not at all if it did;
    at the end the reconciler holds the configuration, and the counter of
    attempts has counted every invocation. *)
Theorem Reconcile_applies_once env envs st resources cfg :
  fetched env = Some resources → toConfig resources = inl cfg →
  Handler env (config_Pools cfg) ≠ SyncStateError →
  Handler env (config_Pools cfg) ≠ SyncStateErrorNoRetry →
  Forall (λ e, ∃ resources', fetched e = Some resources'
                             ∧ toConfig resources' = inl cfg) envs →
  currentConfig (reconcileAll (env :: envs) st) = Some cfg
  ∧ handlerCalls (events (reconcileAll (env :: envs) st)) =
      handlerCalls (events st) ++
      (if decide (currentConfig st = Some cfg) then [] else [config_Pools cfg])
  ∧ updates (reconcileAll (env :: envs) st) =
      updates st + 1 + Z.of_nat (length envs)
  ∧ (currentConfig st ≠ Some cfg →
       configLoaded (reconcileAll (env :: envs) st) = 1
       ∧ configStale (reconcileAll (env :: envs) st) = 0).
Proof.
  intros Hf Hb H1 H2 Hall.
  assert (updates (reconcileAll (env :: envs) st) =
          updates st + 1 + Z.of_nat (length envs)) as Hup.
  { rewrite reconcileAll_updates. simpl length. lia. }
  simpl in *. case_decide as Hc.
  - destruct (Reconcile_same_config env st resources cfg Hf Hb Hc)
      as (Hc' & Hcalls & _).
    destruct (reconcileAll_same_config envs _ cfg Hall Hc') as (-> & -> & _).
    rewrite Hcalls, app_nil_r. done.
  - destruct (Reconcile_adopted env st resources cfg Hf Hb Hc H1 H2)
      as (Hc' & Hl & Hs).
    destruct (reconcileAll_same_config envs _ cfg Hall Hc') as (-> & -> & -> & ->).
    rewrite (Reconcile_handler_called env st resources cfg) by done. done.
Qed.

(** X25.  On every path, whatever the cluster and the handler answer:
    [currentConfig] changes only in an invocation that called the handler
    with the pools of the new configuration, got an answer other than
    [SyncStateError], returns no error and leaves the loaded gauge at 1 and
    the stale gauge at 0; an invocation that returns an error has changed
    neither [currentConfig] nor the loaded gauge; the error counter moves
    only together with the stale gauge set to 1 and [currentConfig] kept;
    and a reload is forced only when the handler answered
    [SyncStateReprocessAll], and then once. *)
Theorem Reconcile_adoption_discipline env st :
  (currentConfig (Reconcile env st).1 ≠ currentConfig st →
     (Reconcile env st).2 = None
     ∧ configLoaded (Reconcile env st).1 = 1
     ∧ configStale (Reconcile env st).1 = 0
     ∧ updateErrors (Reconcile env st).1 = updateErrors st
     ∧ ∃ cfg, currentConfig (Reconcile env st).1 = Some cfg
              ∧ handlerCalls (events (Reconcile env st).1) =
                  handlerCalls (events st) ++ [config_Pools cfg]
              ∧ Handler env (config_Pools cfg) ≠ SyncStateError)
  ∧ ((Reconcile env st).2 ≠ None →
       currentConfig (Reconcile env st).1 = currentConfig st
       ∧ configLoaded (Reconcile env st).1 = configLoaded st)
  ∧ (updateErrors (Reconcile env st).1 ≠ updateErrors st →
       configStale (Reconcile env st).1 = 1
       ∧ currentConfig (Reconcile env st).1 = currentConfig st)
  ∧ (forcedReloads (events (Reconcile env st).1) ≠ forcedReloads (events st) →
       forcedReloads (events (Reconcile env st).1) = S (forcedReloads (events st))
       ∧ ∃ cfg, currentConfig (Reconcile env st).1 = Some cfg
                ∧ Handler env (config_Pools cfg) = SyncStateReprocessAll).
Proof.
  reconcile_paths env;
    rewrite <- ?app_assoc, ?handlerCalls_app, ?forcedReloads_app;
    unfold forcedReloads, handlerCalls; simpl;
    rewrite ?Nat.add_0_r, ?app_nil_r;
    (split; [intros Hne;
             first [by destruct Hne
                   |repeat (split; [done|]); eexists; by repeat split]|]);
    (split; [intros Hne; first [by destruct Hne|done]|]);
    (split; [intros Hne; first [by destruct Hne|done|lia]|]);
    (intros Hne;
     first [by destruct Hne|lia|split; [lia|]; eexists; by split]).
Qed.

(** X26.  Over any run of invocations, one after the other: the counter of
    attempts counts each of them; the handler is called at most once in
    each; the error counter never decreases and grows by one at most in
    each; a loaded gauge that is 1 stays 1, whatever fails later; and the
    events already recorded stay, in order, at the head of the record. *)
Theorem reconcileAll_invariants envs st :
  updates (reconcileAll envs st) = updates st + Z.of_nat (length envs)
  ∧ (∃ evs, events (reconcileAll envs st) = events st ++ evs
            ∧ (length (handlerCalls evs) ≤ length envs)%nat)
  ∧ updateErrors st ≤ updateErrors (reconcileAll envs st)
      ≤ updateErrors st + Z.of_nat (length envs)
  ∧ (configLoaded st = 1 → configLoaded (reconcileAll envs st) = 1).
Proof.
  split; [apply reconcileAll_updates|].
  revert st. induction envs as [|e envs IH]; intros st; simpl.
  - split; [exists []; by rewrite app_nil_r|]. split; [lia|done].
  - destruct (Reconcile_step e st) as (_ & (evs1 & Hev1 & Hc1) & He1 & Hl1).
    destruct (IH (Reconcile e st).1) as ((evs2 & Hev2 & Hc2) & He2 & Hl2).
    split; [|split].
    + exists (evs1 ++ evs2). rewrite Hev2, Hev1, <- app_assoc. split; [done|].
      rewrite handlerCalls_app, length_app. lia.
    + lia.
    + intros Hl. apply Hl2. destruct Hl1 as [Hl1|Hl1]; congruence.
Qed.

End ReconcileFacts.

End reconcile_facts.

(** ** The statements at the sample data *)

Module closed_facts.

Import conversion controllers samples.
Import translation_facts aggregation_facts reconcile_facts.
Import holdtime_facts peer_facts resource_facts.

#[local] Existing Instance stringTypes.
#[local] Existing Instance listDecls.

Lemma communitiesFor_sorted_witness :
  ["b"; "a"] ≡ₚ keysOf exampleCommunities
  ∧ ["a"; "b"] ≡ₚ keysOf exampleCommunities
  ∧ communitiesFor "metallb-system" ["a"; "b"] exampleCommunities =
      communitiesFor "metallb-system" ["b"; "a"] exampleCommunities.
Proof.
  assert (["b"; "a"] ≡ₚ keysOf exampleCommunities) as H1 by (vm_compute; apply perm_swap).
  assert (["a"; "b"] ≡ₚ keysOf exampleCommunities) as H2 by (vm_compute; reflexivity).
  split; [exact H1|]. split; [exact H2|].
  exact (proj1 (proj2 (proj2
    (communitiesFor_sorted "metallb-system" exampleCommunities _ _ H1 H2)))).
Defined.

(** C1, as stated, fails when the mapping of [first] is nil and the one of
    [second] is allocated: the mapping of the result is nil, not the map of
    [second]. *)
Lemma addResources_nil_mapping_dropped :
  (config.PasswordSecrets ∘ fst)
    <$> addResources (Some 1%positive) (Some 2%positive) bareStore = Some None
  ∧ config.PasswordSecrets bareFirst = None
  ∧ config.PasswordSecrets keyedSecond = Some 1%positive
  ∧ maps bareStore !! 1%positive = Some (<["k" := "new"]> ∅).
Proof. by vm_compute. Qed.

Lemma secretsAllocated_keyedFirst : secretsAllocated keyedStore keyedFirst.
Proof. intros m [= <-]. by eexists. Defined.

Lemma secretsAllocated_keyedSecond st :
  maps st = secretMaps → secretsAllocated st keyedSecond.
Proof. intros E m [= <-]. rewrite E. by eexists. Defined.

Lemma secretsAllocated_nil st r :
  config.PasswordSecrets r = None → secretsAllocated st r.
Proof. intros E m Hm. congruence. Defined.

Lemma addResources_secrets_witness :
  valueAt keyedStore (Some 1%positive) = Some keyedFirst
  ∧ objects keyedStore !! 2%positive = Some keyedSecond
  ∧ secretsAllocated keyedStore keyedFirst
  ∧ secretsAllocated keyedStore keyedSecond
  ∧ ∃ r st',
      addResources (Some 1%positive) (Some 2%positive) keyedStore = Some (r, st')
      ∧ config.PasswordSecrets r = Some 2%positive.
Proof.
  assert (valueAt keyedStore (Some 1%positive) = Some keyedFirst) as H1 by reflexivity.
  assert (objects keyedStore !! 2%positive = Some keyedSecond) as H2 by reflexivity.
  pose proof secretsAllocated_keyedFirst as H3.
  pose proof (secretsAllocated_keyedSecond keyedStore eq_refl) as H4.
  repeat (split; [assumption|]).
  destruct (addResources_secrets _ _ _ _ _ H1 H2 H3 H4) as (r & st' & E & Hr & _).
  exists r, st'. split; [exact E|]. exact Hr.
Defined.

Lemma addResources_in_place_witness :
  valueAt bareStore None = Some config.zeroClusterResources
  ∧ objects bareStore !! 2%positive = Some keyedSecond
  ∧ secretsAllocated bareStore config.zeroClusterResources
  ∧ secretsAllocated bareStore keyedSecond
  ∧ ∃ r st',
      addResources None (Some 2%positive) bareStore = Some (r, st')
      ∧ objects st' !! target bareStore None = Some r
      ∧ config.Pools r = [] ++ ["pool-b"].
Proof.
  assert (valueAt bareStore None = Some config.zeroClusterResources) as H1 by reflexivity.
  assert (objects bareStore !! 2%positive = Some keyedSecond) as H2 by reflexivity.
  pose proof (secretsAllocated_nil bareStore config.zeroClusterResources eq_refl) as H3.
  pose proof (secretsAllocated_keyedSecond bareStore eq_refl) as H4.
  repeat (split; [assumption|]).
  destruct (addResources_in_place _ _ _ _ _ H1 H2 H3 H4)
    as (r & st' & E & Hat & _ & _ & Hpools & _).
  exists r, st'. split; [exact E|]. split; [exact Hat|]. exact Hpools.
Defined.

Lemma Reconcile_build_failure_witness :
  fetched (clusterWith [] 0) = Some config.zeroClusterResources
  ∧ toConfig config.zeroClusterResources = inr "no pools"
  ∧ ∃ st',
      Reconcile (clusterWith [] 0) (stateWith (Some ["pool-a"])) = (st', None)
      ∧ configStale st' = 1
      ∧ configLoaded st' = 1
      ∧ currentConfig st' = Some ["pool-a"].
Proof.
  assert (fetched (clusterWith [] 0) = Some config.zeroClusterResources) as H1
    by reflexivity.
  assert (toConfig config.zeroClusterResources = inr "no pools") as H2 by reflexivity.
  repeat (split; [assumption|]).
  destruct (Reconcile_build_failure _ (stateWith (Some ["pool-a"])) _ _ H1 H2)
    as (st' & E & Hs & Hl & Hc & _).
  exists st'. split; [exact E|]. split; [exact Hs|]. split; [exact Hl|]. exact Hc.
Defined.

(** The resources fetched from a cluster with the single pool [pool-a]. *)
Lemma fetched_one_pool outcome :
  fetched (clusterWith ["pool-a"] outcome) =
  Some (merged (clusterResources ["pool-a"] [] [] []) config.zeroClusterResources).
Proof. reflexivity. Defined.

Lemma Reconcile_unchanged_witness :
  fetched (clusterWith ["pool-a"] 0) =
    Some (merged (clusterResources ["pool-a"] [] [] []) config.zeroClusterResources)
  ∧ toConfig (merged (clusterResources ["pool-a"] [] [] []) config.zeroClusterResources)
      = inl ["pool-a"]
  ∧ currentConfig (stateWith (Some ["pool-a"])) = Some ["pool-a"]
  ∧ ∃ st',
      Reconcile (clusterWith ["pool-a"] 0) (stateWith (Some ["pool-a"])) = (st', None)
      ∧ handlerCalls (events st') = []
      ∧ updates st' = 7 + 1.
Proof.
  pose proof (fetched_one_pool 0) as H1.
  assert (toConfig (merged (clusterResources ["pool-a"] [] [] [])
                      config.zeroClusterResources) = inl ["pool-a"]) as H2 by reflexivity.
  assert (currentConfig (stateWith (Some ["pool-a"])) = Some ["pool-a"]) as H3
    by reflexivity.
  repeat (split; [assumption|]).
  destruct (Reconcile_unchanged _ _ _ _ H1 H2 H3)
    as (st' & E & Hh & _ & _ & _ & _ & Hu & _).
  exists st'. split; [exact E|]. split; [exact Hh|]. exact Hu.
Defined.

(** C2, as stated, fails on the metrics: in a cycle that finds the
    configuration unchanged the counter of reconcile attempts goes from 7
    to 8. *)
Lemma Reconcile_unchanged_counts_attempt :
  fetched (clusterWith ["pool-a"] 0) =
    Some (merged (clusterResources ["pool-a"] [] [] []) config.zeroClusterResources)
  ∧ toConfig (merged (clusterResources ["pool-a"] [] [] []) config.zeroClusterResources)
      = inl ["pool-a"]
  ∧ currentConfig (stateWith (Some ["pool-a"])) = Some ["pool-a"]
  ∧ updates (stateWith (Some ["pool-a"])) = 7
  ∧ updates (Reconcile (clusterWith ["pool-a"] 0) (stateWith (Some ["pool-a"]))).1 = 8.
Proof. by vm_compute. Qed.

Lemma Reconcile_error_no_retry_witness :
  fetched (clusterWith ["pool-a"] 2) =
    Some (merged (clusterResources ["pool-a"] [] [] []) config.zeroClusterResources)
  ∧ toConfig (merged (clusterResources ["pool-a"] [] [] []) config.zeroClusterResources)
      = inl ["pool-a"]
  ∧ currentConfig (stateWith None) ≠ Some ["pool-a"]
  ∧ Handler (clusterWith ["pool-a"] 2) (config_Pools ["pool-a"]) = SyncStateErrorNoRetry
  ∧ SyncStateErrorNoRetry ≠ SyncStateError
  ∧ SyncStateErrorNoRetry ≠ SyncStateReprocessAll
  ∧ ∃ st',
      Reconcile (clusterWith ["pool-a"] 2) (stateWith None) = (st', None)
      ∧ updateErrors st' = 0 + 1
      ∧ configStale st' = 1
      ∧ currentConfig st' = None
      ∧ handlerCalls (events (Reconcile (clusterWith ["pool-a"] 2) st').1) =
          handlerCalls (events st') ++ [config_Pools ["pool-a"]].
Proof.
  pose proof (fetched_one_pool 2) as H1.
  assert (toConfig (merged (clusterResources ["pool-a"] [] [] [])
                      config.zeroClusterResources) = inl ["pool-a"]) as H2 by reflexivity.
  assert (currentConfig (stateWith None) ≠ Some ["pool-a"]) as H3 by discriminate.
  assert (Handler (clusterWith ["pool-a"] 2) (config_Pools ["pool-a"])
          = SyncStateErrorNoRetry) as H4 by reflexivity.
  assert (SyncStateErrorNoRetry ≠ SyncStateError) as H5 by discriminate.
  assert (SyncStateErrorNoRetry ≠ SyncStateReprocessAll) as H6 by discriminate.
  repeat (split; [assumption|]).
  destruct (Reconcile_error_no_retry _ _ _ _ H1 H2 H3 H4 H5 H6)
    as (st' & E & Hu & Hs & Hc & _ & Hagain).
  exists st'. split; [exact E|]. split; [exact Hu|]. split; [exact Hs|].
  split; [exact Hc|]. exact (Hagain _ _ H1 H2).
Defined.

Lemma Reconcile_unhandled_outcome_witness :
  fetched (clusterWith ["pool-a"] 42) =
    Some (merged (clusterResources ["pool-a"] [] [] []) config.zeroClusterResources)
  ∧ toConfig (merged (clusterResources ["pool-a"] [] [] []) config.zeroClusterResources)
      = inl ["pool-a"]
  ∧ currentConfig (stateWith None) ≠ Some ["pool-a"]
  ∧ Handler (clusterWith ["pool-a"] 42) (config_Pools ["pool-a"]) ≠ SyncStateError
  ∧ Handler (clusterWith ["pool-a"] 42) (config_Pools ["pool-a"]) ≠ SyncStateReprocessAll
  ∧ Handler (clusterWith ["pool-a"] 42) (config_Pools ["pool-a"]) ≠ SyncStateErrorNoRetry
  ∧ ∃ st',
      Reconcile (clusterWith ["pool-a"] 42) (stateWith None) = (st', None)
      ∧ currentConfig st' = Some ["pool-a"]
      ∧ configLoaded st' = 1
      ∧ configStale st' = 0.
Proof.
  pose proof (fetched_one_pool 42) as H1.
  assert (toConfig (merged (clusterResources ["pool-a"] [] [] [])
                      config.zeroClusterResources) = inl ["pool-a"]) as H2 by reflexivity.
  assert (currentConfig (stateWith None) ≠ Some ["pool-a"]) as H3 by discriminate.
  assert (Handler (clusterWith ["pool-a"] 42) (config_Pools ["pool-a"])
          ≠ SyncStateError) as H4 by discriminate.
  assert (Handler (clusterWith ["pool-a"] 42) (config_Pools ["pool-a"])
          ≠ SyncStateReprocessAll) as H5 by discriminate.
  assert (Handler (clusterWith ["pool-a"] 42) (config_Pools ["pool-a"])
          ≠ SyncStateErrorNoRetry) as H6 by discriminate.
  repeat (split; [assumption|]).
  destruct (Reconcile_unhandled_outcome _ _ _ _ H1 H2 H3 H4 H5 H6)
    as (st' & E & Hc & Hl & Hs & _).
  exists st'. split; [exact E|]. split; [exact Hc|]. split; [exact Hl|]. exact Hs.
Defined.

(** *** Peers, pools and communities *)

Lemma parsePeer_accepted_witness :
  ∃ r,
    parsePeer "metallb-system" timedPeer = inl r
    ∧ peerNamespace r = "metallb-system"
    ∧ (∃ h, v1beta2.HoldTime (v1beta2.peer_Spec r) = h * time.Second
            ∧ (h = 0 ∨ 3 ≤ h))
    ∧ v1beta2.NodeSelectors (v1beta2.peer_Spec r) =
        parseNodeSelector <$> [rackSelector].
Proof.
  destruct (parsePeer "metallb-system" timedPeer) as [r|e] eqn:E;
    [|by vm_compute in E].
  exists r. split; [reflexivity|].
  destruct (parsePeer_accepted _ _ _ E) as (_ & Hns & Hh & _ & _ & _ & Hsel & _).
  split; [exact Hns|]. split; [exact Hh|]. exact Hsel.
Defined.

Lemma parsePeer_accepts_samples p :
  p ∈ [plainPeer; timedPeer] → ∃ r, parsePeer "metallb-system" p = inl r.
Proof.
  intros [->|[->|[]%elem_of_nil]%elem_of_cons]%elem_of_cons;
    eexists; vm_compute; reflexivity.
Defined.

Lemma peersFor_accepted_witness :
  (∀ p, p ∈ [plainPeer; timedPeer] → ∃ r, parsePeer "metallb-system" p = inl r)
  ∧ ∃ res,
      peersFor "metallb-system" [plainPeer; timedPeer] = inl res
      ∧ length res = 2%nat
      ∧ NoDup (peerName <$> res).
Proof.
  split; [exact parsePeer_accepts_samples|].
  destruct (peersFor_accepted "metallb-system" _ parsePeer_accepts_samples)
    as (res & E & Hlen & _ & Hnd).
  exists res. split; [exact E|]. split; [exact Hlen|]. exact Hnd.
Defined.

Lemma parsePeer_accepts_plain p :
  p ∈ [plainPeer] → ∃ r, parsePeer "metallb-system" p = inl r.
Proof.
  intros [->|[]%elem_of_nil]%elem_of_cons. eexists; vm_compute; reflexivity.
Defined.

Lemma peersFor_first_error_witness :
  (∀ p, p ∈ [plainPeer] → ∃ r, parsePeer "metallb-system" p = inl r)
  ∧ parsePeer "metallb-system" hastyPeer =
      inr (HoldTimeError (ErrHoldTimeRange "2s"))
  ∧ peersFor "metallb-system" ([plainPeer] ++ hastyPeer :: [timedPeer]) =
      inr (HoldTimeError (ErrHoldTimeRange "2s")).
Proof.
  assert (parsePeer "metallb-system" hastyPeer =
          inr (HoldTimeError (ErrHoldTimeRange "2s"))) as H2 by (by vm_compute).
  split; [exact parsePeer_accepts_plain|]. split; [exact H2|].
  exact (peersFor_first_error "metallb-system" _ [timedPeer] _ _
           parsePeer_accepts_plain H2).
Defined.

Lemma untagged_pool_is_not_advertised_witness :
  BGPAdvertisements untaggedPool = []
  ∧ Protocol untaggedPool ≠ BGP
  ∧ Protocol untaggedPool ≠ Layer2
  ∧ bgpAdvertisementsFor "metallb-system"
      {| BGPCommunities := ∅; Pools := [layer2WithAdv] ++ untaggedPool :: [bgpWithAdv] |}
    = bgpAdvertisementsFor "metallb-system"
        {| BGPCommunities := ∅; Pools := [layer2WithAdv] ++ [bgpWithAdv] |}.
Proof.
  assert (BGPAdvertisements untaggedPool = []) as H1 by reflexivity.
  assert (Protocol untaggedPool ≠ BGP) as H2 by discriminate.
  assert (Protocol untaggedPool ≠ Layer2) as H3 by discriminate.
  repeat (split; [assumption|]).
  exact (proj1 (untagged_pool_is_not_advertised "metallb-system" ∅
                  [layer2WithAdv] [bgpWithAdv] untaggedPool H1 H2 H3)).
Defined.

Lemma communitiesFor_round_trip_witness :
  ["b"; "a"] ≡ₚ keysOf exampleCommunities
  ∧ aliasMap
      (mjoin ((v1beta1.Communities ∘ v1beta1.community_Spec)
                <$> communitiesFor "metallb-system" ["b"; "a"] exampleCommunities))
    = BGPCommunities exampleCommunities.
Proof.
  assert (["b"; "a"] ≡ₚ keysOf exampleCommunities) as H1 by (vm_compute; apply perm_swap).
  split; [exact H1|].
  exact (proj1 (communitiesFor_round_trip "metallb-system" exampleCommunities _ H1)).
Defined.

Lemma parseHoldTime_keepalive_agree_witness :
  "5s" ≠ ""
  ∧ (parseHoldTime "5s" = inl (5 * time.Second) ↔
     parseKeepaliveTime "5s" = inl (5 * time.Second)
     ∧ (5 * time.Second = 0 ∨ 3 * time.Second ≤ 5 * time.Second)).
Proof.
  assert ("5s" ≠ "") as H by done.
  split; [exact H|]. exact (parseHoldTime_keepalive_agree "5s" (5 * time.Second) H).
Defined.

Lemma secretsAllocated_at st r m :
  config.PasswordSecrets r = Some m → is_Some (maps st !! m) →
  secretsAllocated st r.
Proof. intros E Hm m' Hm'. congruence. Defined.

Lemma addResources_leaves_second_witness :
  valueAt keyedStore (Some 1%positive) = Some keyedFirst
  ∧ objects keyedStore !! 2%positive = Some keyedSecond
  ∧ secretsAllocated keyedStore keyedFirst
  ∧ secretsAllocated keyedStore keyedSecond
  ∧ ∃ r st',
      addResources (Some 1%positive) (Some 2%positive) keyedStore = Some (r, st')
      ∧ objects st' !! 2%positive = Some keyedSecond
      ∧ maps st' !! 1%positive = maps keyedStore !! 1%positive.
Proof.
  assert (valueAt keyedStore (Some 1%positive) = Some keyedFirst) as H1 by reflexivity.
  assert (objects keyedStore !! 2%positive = Some keyedSecond) as H2 by reflexivity.
  pose proof secretsAllocated_keyedFirst as H3.
  pose proof (secretsAllocated_keyedSecond keyedStore eq_refl) as H4.
  repeat (split; [assumption|]).
  destruct (addResources_leaves_second _ _ _ _ _ H1 H2 H3 H4)
    as (r & st' & E & Hobj & Hmap & _).
  exists r, st'. split; [exact E|]. split.
  - apply Hobj. discriminate.
  - exact (Hmap 1%positive eq_refl).
Defined.

Lemma addResources_same_object_witness :
  objects keyedStore !! 1%positive = Some keyedFirst
  ∧ secretsAllocated keyedStore keyedFirst
  ∧ ∃ r st',
      addResources (Some 1%positive) (Some 1%positive) keyedStore = Some (r, st')
      ∧ maps st' = maps keyedStore
      ∧ config.Pools r = ["pool-a"] ++ ["pool-a"].
Proof.
  assert (objects keyedStore !! 1%positive = Some keyedFirst) as H1 by reflexivity.
  pose proof secretsAllocated_keyedFirst as H2.
  repeat (split; [assumption|]).
  destruct (addResources_same_object _ _ _ H1 H2)
    as (r & st' & E & _ & Hmaps & Hpools & _).
  exists r, st'. split; [exact E|]. split; [exact Hmaps|]. exact Hpools.
Defined.

Lemma addResources_assoc_witness :
  (1 ≠ 2)%positive ∧ (1 ≠ 3)%positive ∧ (2 ≠ 3)%positive
  ∧ objects threeStore !! 1%positive = Some keyedFirst
  ∧ objects threeStore !! 2%positive = Some bareFirst
  ∧ objects threeStore !! 3%positive = Some keyedSecond
  ∧ secretsAllocated threeStore keyedFirst
  ∧ secretsAllocated threeStore bareFirst
  ∧ secretsAllocated threeStore keyedSecond
  ∧ ∃ r stL stR,
      bind (addResources (Some 1%positive) (Some 2%positive))
           (λ _, addResources (Some 1%positive) (Some 3%positive)) threeStore
        = Some (r, stL)
      ∧ bind (addResources (Some 2%positive) (Some 3%positive))
             (λ _, addResources (Some 1%positive) (Some 2%positive)) threeStore
          = Some (r, stR)
      ∧ config.Pools r = ["pool-a"] ++ ["pool-a"] ++ ["pool-b"]
      ∧ maps stL !! 2%positive =
          Some ((<["k" := "new"]> ∅) ∪ (<["k" := "old"]> (<["j" := "other"]> ∅)))
      ∧ maps stR !! 2%positive = Some (<["k" := "old"]> (<["j" := "other"]> ∅)).
Proof.
  assert ((1 ≠ 2)%positive) as N12 by discriminate.
  assert ((1 ≠ 3)%positive) as N13 by discriminate.
  assert ((2 ≠ 3)%positive) as N23 by discriminate.
  assert (objects threeStore !! 1%positive = Some keyedFirst) as H1 by reflexivity.
  assert (objects threeStore !! 2%positive = Some bareFirst) as H2 by reflexivity.
  assert (objects threeStore !! 3%positive = Some keyedSecond) as H3 by reflexivity.
  assert (secretsAllocated threeStore keyedFirst) as A1.
  { apply (secretsAllocated_at _ _ 2%positive); [reflexivity|by eexists]. }
  pose proof (secretsAllocated_nil threeStore bareFirst eq_refl) as A2.
  pose proof (secretsAllocated_keyedSecond threeStore eq_refl) as A3.
  repeat (split; [assumption|]).
  destruct (addResources_assoc _ _ _ _ _ _ _ N12 N13 N23 H1 H2 H3 A1 A2 A3)
    as (r & stL & stR & EL & ER & _ & _ & Hpools & _ & _ & _ & _ & _ & _ & _ & _ & _
        & Hsecrets).
  exists r, stL, stR. split; [exact EL|]. split; [exact ER|]. split; [exact Hpools|].
  exact (Hsecrets 2%positive 1%positive _ _ eq_refl eq_refl eq_refl eq_refl eq_refl
           ltac:(discriminate)).
Defined.

Lemma Reconcile_fetch_failure_witness :
  fetched unreachableCluster = None
  ∧ ∃ err st',
      Reconcile unreachableCluster (stateWith (Some ["pool-a"])) = (st', Some err)
      ∧ currentConfig st' = Some ["pool-a"]
      ∧ configStale st' = 0
      ∧ updates st' = 7 + 1.
Proof.
  assert (fetched unreachableCluster = None) as H1 by reflexivity.
  split; [exact H1|].
  destruct (Reconcile_fetch_failure unreachableCluster (stateWith (Some ["pool-a"])) H1)
    as (err & st' & E & _ & Hc & _ & Hs & _ & Hu & _).
  exists err, st'. split; [exact E|]. split; [exact Hc|]. split; [exact Hs|]. exact Hu.
Defined.

Lemma Reconcile_legacy_not_found_witness :
  getLegacyConfig (clusterWith ["pool-a"] 0) = inr "not found"
  ∧ IsNotFound "not found" = true
  ∧ Reconcile (clusterWith ["pool-a"] 0) (stateWith None) =
      Reconcile (withEmptyLegacyConfig (clusterWith ["pool-a"] 0)) (stateWith None).
Proof.
  assert (getLegacyConfig (clusterWith ["pool-a"] 0) = inr "not found") as H1
    by reflexivity.
  assert (IsNotFound "not found" = true) as H2 by reflexivity.
  repeat (split; [assumption|]).
  exact (Reconcile_legacy_not_found _ (stateWith None) _ H1 H2).
Defined.

Lemma Reconcile_error_retry_witness :
  fetched (clusterWith ["pool-a"] 1) =
    Some (merged (clusterResources ["pool-a"] [] [] []) config.zeroClusterResources)
  ∧ toConfig (merged (clusterResources ["pool-a"] [] [] []) config.zeroClusterResources)
      = inl ["pool-a"]
  ∧ currentConfig (stateWith None) ≠ Some ["pool-a"]
  ∧ Handler (clusterWith ["pool-a"] 1) (config_Pools ["pool-a"]) = SyncStateError
  ∧ ∃ st',
      Reconcile (clusterWith ["pool-a"] 1) (stateWith None) = (st', Some errRetry)
      ∧ updateErrors st' = 0 + 1
      ∧ configStale st' = 1
      ∧ currentConfig st' = None.
Proof.
  pose proof (fetched_one_pool 1) as H1.
  assert (toConfig (merged (clusterResources ["pool-a"] [] [] [])
                      config.zeroClusterResources) = inl ["pool-a"]) as H2 by reflexivity.
  assert (currentConfig (stateWith None) ≠ Some ["pool-a"]) as H3 by discriminate.
  assert (Handler (clusterWith ["pool-a"] 1) (config_Pools ["pool-a"])
          = SyncStateError) as H4 by reflexivity.
  repeat (split; [assumption|]).
  destruct (Reconcile_error_retry _ _ _ _ H1 H2 H3 H4)
    as (st' & E & Hu & Hs & _ & Hc & _).
  exists st'. split; [exact E|]. split; [exact Hu|]. split; [exact Hs|]. exact Hc.
Defined.

Lemma Reconcile_reprocess_all_witness :
  fetched (clusterWith ["pool-a"] 3) =
    Some (merged (clusterResources ["pool-a"] [] [] []) config.zeroClusterResources)
  ∧ toConfig (merged (clusterResources ["pool-a"] [] [] []) config.zeroClusterResources)
      = inl ["pool-a"]
  ∧ currentConfig (stateWith None) ≠ Some ["pool-a"]
  ∧ Handler (clusterWith ["pool-a"] 3) (config_Pools ["pool-a"]) = SyncStateReprocessAll
  ∧ SyncStateReprocessAll ≠ SyncStateError
  ∧ ∃ st',
      Reconcile (clusterWith ["pool-a"] 3) (stateWith None) = (st', None)
      ∧ currentConfig st' = Some ["pool-a"]
      ∧ forcedReloads (events st') = 1%nat.
Proof.
  pose proof (fetched_one_pool 3) as H1.
  assert (toConfig (merged (clusterResources ["pool-a"] [] [] [])
                      config.zeroClusterResources) = inl ["pool-a"]) as H2 by reflexivity.
  assert (currentConfig (stateWith None) ≠ Some ["pool-a"]) as H3 by discriminate.
  assert (Handler (clusterWith ["pool-a"] 3) (config_Pools ["pool-a"])
          = SyncStateReprocessAll) as H4 by reflexivity.
  assert (SyncStateReprocessAll ≠ SyncStateError) as H5 by discriminate.
  repeat (split; [assumption|]).
  destruct (Reconcile_reprocess_all _ _ _ _ H1 H2 H3 H4 H5)
    as (st' & E & Hc & _ & _ & _ & Hf & _).
  exists st'. split; [exact E|]. split; [exact Hc|]. exact Hf.
Defined.

Lemma Reconcile_applies_once_witness :
  fetched (clusterWith ["pool-a"] 0) =
    Some (merged (clusterResources ["pool-a"] [] [] []) config.zeroClusterResources)
  ∧ toConfig (merged (clusterResources ["pool-a"] [] [] []) config.zeroClusterResources)
      = inl ["pool-a"]
  ∧ Handler (clusterWith ["pool-a"] 0) (config_Pools ["pool-a"]) ≠ SyncStateError
  ∧ Handler (clusterWith ["pool-a"] 0) (config_Pools ["pool-a"]) ≠ SyncStateErrorNoRetry
  ∧ Forall (λ e, ∃ resources', fetched e = Some resources'
                               ∧ toConfig resources' = inl ["pool-a"])
      [clusterWith ["pool-a"] 1; clusterWith ["pool-a"] 2]
  ∧ handlerCalls
      (events (reconcileAll
                 [clusterWith ["pool-a"] 0; clusterWith ["pool-a"] 1;
                  clusterWith ["pool-a"] 2] (stateWith None))) =
      [] ++ [["pool-a"]].
Proof.
  pose proof (fetched_one_pool 0) as H1.
  assert (toConfig (merged (clusterResources ["pool-a"] [] [] [])
                      config.zeroClusterResources) = inl ["pool-a"]) as H2 by reflexivity.
  assert (Handler (clusterWith ["pool-a"] 0) (config_Pools ["pool-a"])
          ≠ SyncStateError) as H3 by discriminate.
  assert (Handler (clusterWith ["pool-a"] 0) (config_Pools ["pool-a"])
          ≠ SyncStateErrorNoRetry) as H4 by discriminate.
  assert (Forall (λ e, ∃ resources', fetched e = Some resources'
                                     ∧ toConfig resources' = inl ["pool-a"])
            [clusterWith ["pool-a"] 1; clusterWith ["pool-a"] 2]) as H5.
  { repeat constructor; eexists; split; reflexivity. }
  repeat (split; [assumption|]).
  exact (proj1 (proj2 (Reconcile_applies_once _ _ (stateWith None) _ _ H1 H2 H3 H4 H5))).
Defined.

End closed_facts.
